(** * BFF_AdamW: a shallow embedding of [bff_optimizer.py]

    The optimizer keeps, for every parameter tensor, a dictionary of state
    tensors ([step], [exp_avg], [exp_avg_sq] and, optionally,
    [compensation]) and updates parameter and state in place.  The
    embedding follows the source line by line:

    - tensor objects that exist outside the optimizer (parameters and
      their gradient arrays) live in a heap indexed by locations, so that a
      gradient aliasing its parameter is expressible;
    - [self.state] is a dictionary from parameters to dictionaries from
      string keys to the state tensors, which are allocated by
      [zeros_like] inside [step] and only ever reached through that
      dictionary;
    - tensors created by out-of-place operations ([clone], [sqrt], [/])
      are fresh values;
    - Python exceptions leave every mutation made so far in place;
    - scalar arithmetic is a parameter of the development ([Arith]): one
      instance is exact arithmetic on the reals, another is IEEE binary32
      built on [SpecFloat]. *)

From Stdlib Require Import ZArith Reals Lra Lia.
From Stdlib Require Import Floats.SpecFloat.
From stdpp Require Import base gmap strings list.

(** ** Storage precisions and scalar arithmetic *)

Inductive dtype := BFloat16 | Float16 | Float32 | Float64.

#[global] Instance dtype_eq_dec : EqDecision dtype.
Proof. solve_decision. Defined.

(** The numbers the optimizer computes with.  [cast d x] rounds [x] to
    the storage precision [d]; [truthy x] is Python's [bool(x)] on a
    float; [fpow] is [**]. *)
Class Arith := {
  F : Type;
  f0 : F;
  f1 : F;
  fhalf : F;
  fadd : F -> F -> F;
  fsub : F -> F -> F;
  fmul : F -> F -> F;
  fdiv : F -> F -> F;
  fpow : F -> F -> F;
  fneg : F -> F;
  fsqrt : F -> F;
  truthy : F -> bool;
  cast : dtype -> F -> F
}.

(** Identities the claims of the specification read formulas up to.  All of
    them hold on the reals and are sign or unit facts of IEEE arithmetic. *)
Class ArithLaws (A : Arith) : Prop := {
  fmul_comm : forall x y : F, fmul x y = fmul y x;
  fmul_1_l : forall x : F, fmul f1 x = x;
  fadd_neg_sub : forall a s m v : F,
      fadd a (fdiv (fmul (fneg s) m) v) = fsub a (fdiv (fmul s m) v);
  fpow_half : forall x : F, fpow x fhalf = fsqrt x
}.

(** A number is zero when it is [0.0] or [-0.0]; on the reals the two
    coincide. *)
Definition is_zero {A : Arith} (x : F) : Prop := x = f0 \/ x = fneg f0.

(** Python's truth value of a float: [bool(x)] is [x != 0.0], false
    exactly for the two zeros. *)
Class TruthLaws (A : Arith) : Prop := {
  truthy_nonzero : forall x : F, truthy x = true <-> ~ is_zero x
}.

(** ** Tensors *)

Inductive layout := Strided | SparseCoo.

Definition loc := positive.

(** [torch.tensor(0.0)] takes the default dtype. *)
Definition default_dtype : dtype := Float32.

(** ** Exceptions *)

Inductive exn :=
| RuntimeError (msg : string)
| KeyError (key : string)
| Dangling (l : loc).   (* a location with no object: not a Python state *)

Inductive outcome (X : Type) :=
| Ok (x : X)
| Raise (e : exn).
Arguments Ok {X} x.
Arguments Raise {X} e.

Section Optimizer.
Context {A : Arith}.

(** A tensor: storage precision, layout and the flattened elements (a
    0-dim tensor has exactly one). *)
Record tensor := Tensor {
  t_dtype : dtype;
  t_layout : layout;
  t_data : list F
}.

Definition is_sparse (t : tensor) : bool :=
  match t_layout t with SparseCoo => true | Strided => false end.

Definition with_data (t : tensor) (d : list F) : tensor :=
  Tensor (t_dtype t) (t_layout t) d.

(** ** The optimizer's monad *)

(** The objects a call of [step] can see. *)
Record world := World {
  heap : gmap loc tensor;                     (* parameters and gradient arrays *)
  grad_of : gmap loc loc;                     (* [p.grad]; absent is [None] *)
  state : gmap loc (gmap string tensor)       (* [self.state] *)
}.

Definition M (X : Type) : Type := world -> world * outcome X.

#[global] Instance M_ret : MRet M := fun X x w => (w, Ok x).

#[global] Instance M_bind : MBind M := fun X Y k m w =>
  match m w with
  | (w', Ok x) => k x w'
  | (w', Raise e) => (w', Raise e)
  end.

Definition raise {X} (e : exn) : M X := fun w => (w, Raise e).

Definition lift {X} (o : outcome X) : M X := fun w => (w, o).

(** ** Elementwise tensor operations

    Every operation that writes a tensor rounds each element to that
    tensor's storage precision.  An in-place operation with a tensor
    operand needs the operand to have the shape of the destination. *)

Definition same_shape (a b : tensor) : bool :=
  Nat.eqb (length (t_data a)) (length (t_data b)).

Definition size_mismatch {X} : outcome X :=
  Raise (RuntimeError "The size of tensor a must match the size of tensor b").

(** [t.op_(scalar)], written back to [t]. *)
Definition tmap (f : F -> F) (t : tensor) : tensor :=
  with_data t ((fun x => cast (t_dtype t) (f x)) <$> t_data t).

(** The elements [t.op_(other)] and [t.op_(a, b)] write back to [t]. *)
Definition zipT (f : F -> F -> F) (t other : tensor) : tensor :=
  with_data t (zip_with (fun x y => cast (t_dtype t) (f x y))
                        (t_data t) (t_data other)).

Definition zip3T (f : F -> F -> F -> F) (t a b : tensor) : tensor :=
  with_data t (zip_with (fun x yz => cast (t_dtype t) (f x (fst yz) (snd yz)))
                        (t_data t) (zip (t_data a) (t_data b))).

Definition tzip (f : F -> F -> F) (t other : tensor) : outcome tensor :=
  if same_shape t other then Ok (zipT f t other) else size_mismatch.

Definition tzip3 (f : F -> F -> F -> F) (t a b : tensor) : outcome tensor :=
  if same_shape t a && same_shape t b then Ok (zip3T f t a b) else size_mismatch.

(** [t.mul_(s)] *)
Definition t_mul_ (t : tensor) (s : F) : tensor :=
  tmap (fun x => fmul x s) t.

(** [t.add_(s, alpha=alpha)] with a number [s]: [t + alpha * s]. *)
Definition t_add_scalar_ (t : tensor) (s alpha : F) : tensor :=
  tmap (fun x => fadd x (fmul alpha s)) t.

(** [t += 1]: the default [alpha] adds the operand itself. *)
Definition t_iadd (t : tensor) (s : F) : tensor :=
  tmap (fun x => fadd x s) t.

(** [t.add_(other, alpha=alpha)]: [t + alpha * other]. *)
Definition t_add_alpha_ (t other : tensor) (alpha : F) : outcome tensor :=
  tzip (fun x y => fadd x (fmul alpha y)) t other.

(** [t.add_(other)] *)
Definition t_add_ (t other : tensor) : outcome tensor :=
  tzip fadd t other.

(** [t.sub_(other)] *)
Definition t_sub_ (t other : tensor) : outcome tensor :=
  tzip fsub t other.

(** [t.addcmul_(a, b, value=value)]: [t + value * a * b]. *)
Definition t_addcmul_ (t a b : tensor) (value : F) : outcome tensor :=
  tzip3 (fun x y z => fadd x (fmul (fmul value y) z)) t a b.

(** [t.addcdiv_(a, b, value=value)]: [t + value * a / b]. *)
Definition t_addcdiv_ (t a b : tensor) (value : F) : outcome tensor :=
  tzip3 (fun x y z => fadd x (fdiv (fmul value y) z)) t a b.

(** [t.sqrt()]: a new tensor of the same dtype. *)
Definition t_sqrt (t : tensor) : tensor := tmap fsqrt t.

(** [-t]: a sign flip, exact at every precision. *)
Definition t_neg (t : tensor) : tensor := with_data t (fneg <$> t_data t).

(** [s ** t], [s - t], [s / t] and [t ** s] with a Python number [s]: the
    result has the dtype of [t]. *)
Definition t_rpow (s : F) (t : tensor) : tensor := tmap (fun x => fpow s x) t.
Definition t_rsub (s : F) (t : tensor) : tensor := tmap (fun x => fsub s x) t.
Definition t_rdiv (s : F) (t : tensor) : tensor := tmap (fun x => fdiv s x) t.
Definition t_pow (t : tensor) (s : F) : tensor := tmap (fun x => fpow x s) t.

(** The number held by a one-element tensor ([value=] takes a number). *)
Definition item (t : tensor) : outcome F :=
  match t_data t with
  | [x] => Ok x
  | _ => Raise (RuntimeError "a Tensor with several elements cannot be converted to Scalar")
  end.

(** [t / d] with a 0-dim [d]: the result keeps the dtype of [t], which
    has at least one dimension. *)
Definition t_div_0dim (t d : tensor) : outcome tensor :=
  match item d with
  | Ok x => Ok (tmap (fun y => fdiv y x) t)
  | Raise e => Raise e
  end.

(** [torch.zeros_like(p, memory_format=torch.preserve_format, dtype=d)] *)
Definition zeros_like (p : tensor) (d : dtype) : tensor :=
  Tensor d (t_layout p) ((fun _ => f0) <$> t_data p).

(** [torch.tensor(0.0)] *)
Definition tensor_0 : tensor := Tensor default_dtype Strided [f0].

(** ** References and their accessors

    A variable of the source holds either an object of the heap or a slot
    of a parameter's state dictionary. *)

Inductive ref :=
| Heap (l : loc)
| Slot (p : loc) (key : string).

Definition read (r : ref) : M tensor := fun w =>
  match r with
  | Heap l =>
      match heap w !! l with
      | Some t => (w, Ok t)
      | None => (w, Raise (Dangling l))
      end
  | Slot p key =>
      match state w !! p ≫= (fun st => st !! key) with
      | Some t => (w, Ok t)
      | None => (w, Raise (KeyError key))
      end
  end.

Definition write (r : ref) (t : tensor) : M unit := fun w =>
  match r with
  | Heap l => (World (<[l := t]> (heap w)) (grad_of w) (state w), Ok tt)
  | Slot p key =>
      (World (heap w) (grad_of w)
             (<[p := <[key := t]> (default ∅ (state w !! p))]> (state w)), Ok tt)
  end.

(** [state[key]]: the reference stored under [key]. *)
Definition state_ref (p : loc) (key : string) : M ref :=
  _ ← read (Slot p key); mret (Slot p key).

(** [p.grad] *)
Definition get_grad (p : loc) : M (option loc) := fun w => (w, Ok (grad_of w !! p)).

(** [self.state[p]] on a [defaultdict(dict)]: a missing entry is created
    empty.  The result is the dictionary at the time of the access. *)
Definition self_state (p : loc) : M (gmap string tensor) := fun w =>
  match state w !! p with
  | Some st => (w, Ok st)
  | None => (World (heap w) (grad_of w) (<[p := ∅]> (state w)), Ok ∅)
  end.

(** In-place operations through a reference. *)
Definition modify (r : ref) (f : tensor -> outcome tensor) : M unit :=
  t ← read r; t' ← lift (f t); write r t'.

(** ** The optimizer *)

(** One entry of [self.param_groups]. *)
Record group := Group {
  lr : F;
  beta1 : F;
  beta2 : F;
  eps : F;
  weight_decay : F;
  use_kahan_summation : bool;
  momentum_dtype : dtype;
  variance_dtype : dtype;
  compensation_buffer_dtype : dtype;
  params : list loc
}.

(** State initialization, the body of [if len(state) == 0]. *)
Definition init_state (g : group) (p : loc) : M unit :=
  write (Slot p "step") tensor_0;;
  tp ← read (Heap p);
  write (Slot p "exp_avg") (zeros_like tp (momentum_dtype g));;
  tp ← read (Heap p);
  write (Slot p "exp_avg_sq") (zeros_like tp (variance_dtype g));;
  if use_kahan_summation g then
    tp ← read (Heap p);
    write (Slot p "compensation") (zeros_like tp (compensation_buffer_dtype g))
  else mret tt.

(** The branch [if use_kahan_summation]: the update goes to the
    compensation buffer, the buffer to the weights, and what the weights
    did not take goes back to the buffer. *)
Definition kahan_apply (p : loc) (exp_avg : ref) (centered_variance step_size : tensor)
  : M unit :=
  compensation ← state_ref p "compensation";
  value ← lift (item (t_neg step_size));
  m ← read exp_avg;
  modify compensation (fun c => t_addcdiv_ c m centered_variance value);;
  temp_buffer ← read (Heap p);
  c ← read compensation;
  modify (Heap p) (fun t => t_add_ t c);;
  pd ← read (Heap p);
  d ← lift (t_sub_ temp_buffer pd);
  modify compensation (fun c => t_add_ c d).

(** The branch [else]: usual AdamW updates. *)
Definition direct_apply (p : loc) (exp_avg : ref) (centered_variance step_size : tensor)
  : M unit :=
  value ← lift (item (t_neg step_size));
  m ← read exp_avg;
  modify (Heap p) (fun t => t_addcdiv_ t m centered_variance value).

(** The scalars of the bias correction, 0-dim tensors computed from the
    step tensor. *)
Definition bias_correction1 (g : group) (step : tensor) : tensor :=
  t_rsub f1 (t_rpow (beta1 g) step).

Definition step_size (g : group) (step : tensor) : tensor :=
  t_rdiv (lr g) (bias_correction1 g step).

Definition denom_correction (g : group) (step : tensor) : tensor :=
  t_pow (t_rsub f1 (t_rpow (beta2 g) step)) fhalf.

(** [(exp_avg_sq.sqrt() / denom_correction).add_(eps, alpha=1)] *)
Definition centered_variance (g : group) (exp_avg_sq denom : tensor) : outcome tensor :=
  match t_div_0dim (t_sqrt exp_avg_sq) denom with
  | Ok q => Ok (t_add_scalar_ q (eps g) f1)
  | Raise e => Raise e
  end.

(** Main processing of one parameter with the dense gradient at [gl]. *)
Definition main_processing (g : group) (p gl : loc) : M unit :=
  modify (Slot p "step") (fun t => Ok (t_iadd t f1));;
  step ← state_ref p "step";
  exp_avg ← state_ref p "exp_avg";
  exp_avg_sq ← state_ref p "exp_avg_sq";
  let grad := Heap gl in
  (if truthy (weight_decay g)
   then modify (Heap p)
          (fun t => Ok (t_mul_ t (fsub f1 (fmul (lr g) (weight_decay g)))))
   else mret tt);;
  modify exp_avg (fun m => Ok (t_mul_ m (beta1 g)));;
  tg ← read grad;
  modify exp_avg (fun m => t_add_alpha_ m tg (fsub f1 (beta1 g)));;
  modify exp_avg_sq (fun v => Ok (t_mul_ v (beta2 g)));;
  tg ← read grad;
  modify exp_avg_sq (fun v => t_addcmul_ v tg tg (fsub f1 (beta2 g)));;
  tstep ← read step;
  v ← read exp_avg_sq;
  cv ← lift (centered_variance g v (denom_correction g tstep));
  if use_kahan_summation g
  then kahan_apply p exp_avg cv (step_size g tstep)
  else direct_apply p exp_avg cv (step_size g tstep).

(** The body of [for p in group["params"]]. *)
Definition update_param (g : group) (p : loc) : M unit :=
  gr ← get_grad p;
  match gr with
  | None => mret tt
  | Some gl =>
      tg ← read (Heap gl);
      if is_sparse tg
      then raise (RuntimeError "BFF does not support sparse gradients")
      else
        st ← self_state p;
        (if decide (size st = 0%nat) then init_state g p else mret tt);;
        main_processing g p gl
  end.

Fixpoint for_each {X} (l : list X) (body : X -> M unit) : M unit :=
  match l with
  | [] => mret tt
  | x :: l' => body x;; for_each l' body
  end.

(** [BFF_AdamW.step]: the closure, when given, runs first and its result
    is dropped. *)
Definition step (closure : option (M unit)) (param_groups : list group) : M unit :=
  match closure with
  | Some c => c
  | None => mret tt
  end;;
  for_each param_groups (fun g => for_each (params g) (update_param g)).

(** ** The caller

    Between two calls the differentiation engine stores a new gradient
    array in [p.grad], or [None]. *)
Definition set_grad (p : loc) (o : option tensor) (w : world) : world :=
  match o with
  | Some t =>
      let gl := fresh (dom (heap w)) in
      World (<[gl := t]> (heap w)) (<[p := gl]> (grad_of w)) (state w)
  | None => World (heap w) (delete p (grad_of w)) (state w)
  end.

(** One update call for a parameter: the caller sets [p.grad], then the
    loop body runs with the hyperparameters of the parameter's group. *)
Definition call (cfg : loc -> group) (ev : loc * option tensor) : M unit :=
  fun w => update_param (cfg ev.1) ev.1 (set_grad ev.1 ev.2 w).

(** A sequence of update calls, for any parameters in any order; it stops
    at the first exception. *)
Definition run (cfg : loc -> group) (evs : list (loc * option tensor)) : M unit :=
  for_each evs (call cfg).

(** The number of calls for [p] that came with a gradient. *)
Definition present_calls (p : loc) (evs : list (loc * option tensor)) : nat :=
  length (filter (fun ev => ev.1 = p /\ is_Some ev.2) evs).

(** The step counter of [p]: the tensor under ["step"], and the initial
    [torch.tensor(0.0)] as long as [p] has no state. *)
Definition step_tensor (w : world) (p : loc) : tensor :=
  default tensor_0 (state w !! p ≫= (fun st => st !! "step")).

(** ** What one update computes

    The values below name the tensors a successful update leaves behind,
    as functions of the tensors it starts from. *)

(** The element of a 0-dim tensor. *)
Definition scalar_of (t : tensor) : F := default f0 (head (t_data t)).

(** The dictionary [main_processing] starts from: the one stored for the
    parameter, or the one the state initialization creates. *)
Definition created_state (g : group) (tp : tensor) : gmap string tensor :=
  let st := <["exp_avg_sq" := zeros_like tp (variance_dtype g)]>
              (<["exp_avg" := zeros_like tp (momentum_dtype g)]>
                 (<["step" := tensor_0]> ∅)) in
  if use_kahan_summation g
  then <["compensation" := zeros_like tp (compensation_buffer_dtype g)]> st
  else st.

Definition get_or_create (g : group) (tp : tensor) (o : option (gmap string tensor))
  : gmap string tensor :=
  match o with
  | Some st => if decide (size st = 0%nat) then created_state g tp else st
  | None => created_state g tp
  end.

Definition new_step (ts : tensor) : tensor := t_iadd ts f1.

Definition decay_factor (g : group) : F := fsub f1 (fmul (lr g) (weight_decay g)).

Definition decayed (g : group) (tp : tensor) : tensor :=
  if truthy (weight_decay g) then t_mul_ tp (decay_factor g) else tp.

Definition new_momentum (g : group) (tm tg : tensor) : tensor :=
  zipT (fun x y => fadd x (fmul (fsub f1 (beta1 g)) y)) (t_mul_ tm (beta1 g)) tg.

Definition new_variance (g : group) (tv tg : tensor) : tensor :=
  zip3T (fun x y z => fadd x (fmul (fmul (fsub f1 (beta2 g)) y) z))
        (t_mul_ tv (beta2 g)) tg tg.

(** [centered_variance] from the updated variance and step. *)
Definition cvar (g : group) (tv' ts' : tensor) : tensor :=
  t_add_scalar_
    (tmap (fun y => fdiv y (scalar_of (denom_correction g ts'))) (t_sqrt tv'))
    (eps g) f1.

(** [-step_size] as the number passed for [value=]. *)
Definition neg_step_size (g : group) (ts' : tensor) : F :=
  fneg (scalar_of (step_size g ts')).

(** The four tensors of the compensated apply, in the order they are
    written. *)
Definition kahan_accumulate (value : F) (tc tm cv : tensor) : tensor :=
  zip3T (fun x y z => fadd x (fdiv (fmul value y) z)) tc tm cv.

Definition kahan_param (snapshot c1 : tensor) : tensor := zipT fadd snapshot c1.

Definition kahan_lost (snapshot p2 : tensor) : tensor := zipT fsub snapshot p2.

Definition kahan_recover (c1 lost : tensor) : tensor := zipT fadd c1 lost.

(** The parameter after the uncompensated apply. *)
Definition direct_param (value : F) (tp tm cv : tensor) : tensor :=
  zip3T (fun x y z => fadd x (fdiv (fmul value y) z)) tp tm cv.

(** The state tensors an update starts from. *)
Record pstate := PState {
  ps_step : tensor;
  ps_m : tensor;
  ps_v : tensor;
  ps_c : tensor   (* read only when compensation is enabled *)
}.

(** Parameter and state after the update of a parameter [tp] with
    gradient [tg] from the state [ps]. *)
Definition post_param (g : group) (tp tg : tensor) (ps : pstate) : tensor :=
  let ts' := new_step (ps_step ps) in
  let tm' := new_momentum g (ps_m ps) tg in
  let cv := cvar g (new_variance g (ps_v ps) tg) ts' in
  if use_kahan_summation g
  then kahan_param (decayed g tp)
         (kahan_accumulate (neg_step_size g ts') (ps_c ps) tm' cv)
  else direct_param (neg_step_size g ts') (decayed g tp) tm' cv.

Definition post_compensation (g : group) (tp tg : tensor) (ps : pstate) : tensor :=
  let ts' := new_step (ps_step ps) in
  let tm' := new_momentum g (ps_m ps) tg in
  let cv := cvar g (new_variance g (ps_v ps) tg) ts' in
  let c1 := kahan_accumulate (neg_step_size g ts') (ps_c ps) tm' cv in
  let snapshot := decayed g tp in
  let p2 := kahan_param snapshot c1 in
  kahan_recover c1 (kahan_lost snapshot p2).

Definition post_state (g : group) (tp tg : tensor) (ps : pstate)
    (st : gmap string tensor) : gmap string tensor :=
  let st' := <["exp_avg_sq" := new_variance g (ps_v ps) tg]>
               (<["exp_avg" := new_momentum g (ps_m ps) tg]>
                  (<["step" := new_step (ps_step ps)]> st)) in
  if use_kahan_summation g
  then <["compensation" := post_compensation g tp tg ps]> st'
  else st'.

(** The dictionary holds the tensors of [ps], of the parameter's shape. *)
Record holds (g : group) (tp : tensor) (st : gmap string tensor) (ps : pstate)
  : Prop := Holds {
  h_step : st !! "step" = Some (ps_step ps);
  h_0dim : length (t_data (ps_step ps)) = 1%nat;
  h_m : st !! "exp_avg" = Some (ps_m ps);
  h_v : st !! "exp_avg_sq" = Some (ps_v ps);
  h_c : use_kahan_summation g = true -> st !! "compensation" = Some (ps_c ps);
  h_len_m : length (t_data (ps_m ps)) = length (t_data tp);
  h_len_v : length (t_data (ps_v ps)) = length (t_data tp);
  h_len_c : use_kahan_summation g = true ->
            length (t_data (ps_c ps)) = length (t_data tp)
}.

(** The world offers parameter [p] a dense gradient [tg], stored at [gl],
    of the parameter's shape. *)
Record dense_grad (w : world) (p gl : loc) (tp tg : tensor) : Prop := DenseGrad {
  d_param : heap w !! p = Some tp;
  d_grad : grad_of w !! p = Some gl;
  d_tensor : heap w !! gl = Some tg;
  d_dense : is_sparse tg = false;
  d_apart : gl <> p;
  d_len : length (t_data tg) = length (t_data tp)
}.

(** The part of a world one parameter's update works on: the parameter at
    [p] and its dictionary. *)
Definition focus (h : gmap loc tensor) (gr : gmap loc loc)
    (s : gmap loc (gmap string tensor)) (p : loc) (tp : tensor)
    (st : gmap string tensor) : world :=
  World (<[p := tp]> h) gr (<[p := st]> s).

(** [w'] differs from [w] at most in the tensors and dictionaries of the
    parameters in [P]; no [.grad] attribute changed. *)
Definition unchanged_outside (P : loc -> Prop) (w w' : world) : Prop :=
  grad_of w' = grad_of w /\
  (forall l, ~ P l -> heap w' !! l = heap w !! l) /\
  (forall l, ~ P l -> state w' !! l = state w !! l).

(** A computation that writes only to the parameters in [P]. *)
Definition confined (P : loc -> Prop) {X} (m : M X) : Prop :=
  forall w, unchanged_outside P w (m w).1.

(** Every stored dictionary is complete and of its parameter's shape. *)
Definition state_ok (cfg : loc -> group) (w : world) : Prop :=
  forall p st, state w !! p = Some st ->
    exists tp ps, heap w !! p = Some tp /\ holds (cfg p) tp st ps.

(** The call is for an allocated parameter and its gradient, if any, is
    dense and of the parameter's shape. *)
Definition event_ok (w : world) (ev : loc * option tensor) : Prop :=
  exists tp, heap w !! ev.1 = Some tp /\
    forall t, ev.2 = Some t ->
      is_sparse t = false /\ length (t_data t) = length (t_data tp).

(** [w'] has every object of [w], with the same number of elements. *)
Definition same_shapes (w w' : world) : Prop :=
  forall l tp, heap w !! l = Some tp ->
    exists tp', heap w' !! l = Some tp' /\
                length (t_data tp') = length (t_data tp).

(** The state tensors after an update from [ps]. *)
Definition post_pstate (g : group) (tp tg : tensor) (ps : pstate) : pstate :=
  PState (new_step (ps_step ps))
         (new_momentum g (ps_m ps) tg)
         (new_variance g (ps_v ps) tg)
         (if use_kahan_summation g then post_compensation g tp tg ps else ps_c ps).

(** The worlds a new optimizer reaches through well-formed calls that
    succeed. *)
Inductive reachable (cfg : loc -> group) : world -> Prop :=
| reach_init w : state w = ∅ -> reachable cfg w
| reach_call w ev w' :
    reachable cfg w -> event_ok w ev -> call cfg ev w = (w', Ok tt) ->
    reachable cfg w'.

(** The same hyperparameters with compensation switched off. *)
Definition no_kahan (g : group) : group :=
  Group (lr g) (beta1 g) (beta2 g) (eps g) (weight_decay g) false
        (momentum_dtype g) (variance_dtype g) (compensation_buffer_dtype g)
        (params g).

(** A world with one parameter, at location 1, and its gradient array, at
    location 2; the optimizer has no state yet. *)
Definition example_world (tp tg : tensor) : world :=
  World (<[2%positive := tg]> {[1%positive := tp]}) {[1%positive := 2%positive]} ∅.

(** A reference into the parameters in [P]. *)
Definition ref_in (P : loc -> Prop) (r : ref) : Prop :=
  match r with Heap l => P l | Slot q _ => P q end.

(** The state of a parameter that was just created. *)
Definition created_pstate (g : group) (tp : tensor) : pstate :=
  PState tensor_0
         (zeros_like tp (momentum_dtype g))
         (zeros_like tp (variance_dtype g))
         (zeros_like tp (compensation_buffer_dtype g)).

End Optimizer.

(** ** Further notions *)

Section Further.
Context {A : Arith}.

(** The dictionary once step, momentum and variance are written, before
    the apply phase. *)
Definition moments_written (g : group) (tg : tensor) (ps : pstate)
    (st : gmap string tensor) : gmap string tensor :=
  <["exp_avg_sq" := new_variance g (ps_v ps) tg]>
    (<["exp_avg" := new_momentum g (ps_m ps) tg]>
       (<["step" := new_step (ps_step ps)]> st)).

(** The keys an update reads or writes. *)
Definition update_keys : list string :=
  ["step"; "exp_avg"; "exp_avg_sq"; "compensation"].

(** The loop nest of [step], one entry per visit of the inner body. *)
Definition visits (param_groups : list group) : list (group * loc) :=
  g ← param_groups; (fun p => (g, p)) <$> params g.

(** The parameters of all groups, in the order [step] walks over them. *)
Definition all_params (param_groups : list group) : list loc :=
  (visits param_groups).*2.

(** Parameter [p] of group [g] is ready for an update: it is allocated,
    its stored dictionary, if any, is complete, and its gradient, if any,
    is a dense array of its shape kept apart from the parameters in
    [listed]. *)
Definition param_ok (listed : list loc) (w : world) (g : group) (p : loc) : Prop :=
  exists tp, heap w !! p = Some tp /\
    (forall st, state w !! p = Some st -> size st <> 0%nat ->
       exists ps, holds g tp st ps) /\
    (forall gl, grad_of w !! p = Some gl ->
       (gl ∉ listed) /\ gl <> p /\
       exists tg, heap w !! gl = Some tg /\ is_sparse tg = false /\
                  length (t_data tg) = length (t_data tp)).

End Further.

(** ** Exact arithmetic: the reals *)

Module Exact.

Local Open Scope R_scope.

Definition Rtruthy (x : R) : bool := if Req_dec_T x 0 then false else true.

(** [x ** y] on the reals.  Where Python has no real result (a negative
    base with a fractional exponent) the value is 0, as is [sqrt] there. *)
Definition Rpow (x y : R) : R :=
  if Rlt_dec 0 x then Rpower x y
  else if Req_dec_T x 0 then (if Req_dec_T y 0 then 1 else 0)
  else if Req_dec_T y (IZR (Int_part y)) then powerRZ x (Int_part y)
  else 0.

Definition RArith : Arith := {|
  F := R;
  f0 := 0;
  f1 := 1;
  fhalf := / 2;
  fadd := Rplus;
  fsub := Rminus;
  fmul := Rmult;
  fdiv := Rdiv;
  fpow := Rpow;
  fneg := Ropp;
  fsqrt := sqrt;
  truthy := Rtruthy;
  cast := fun _ x => x
|}.

(** Every compensation buffer holds zeros only. *)
Definition comp_zero (w : @world RArith) : Prop :=
  forall p st tc, state w !! p = Some st -> st !! "compensation" = Some tc ->
    Forall (fun x => x = 0) (@t_data RArith tc).

(** The concrete scenario of the specification: a scalar parameter 1.0
    with gradient 2.0, lr = 0.1, betas = (0.9, 0.999), eps = 1e-8, no
    weight decay, no compensation, everything at full precision. *)
Definition scenario_group : @group RArith :=
  @Group RArith 0.1 0.9 0.999 1e-8 0 false Float32 Float32 Float32 [1%positive].

Definition scenario_param : @tensor RArith := @Tensor RArith Float32 Strided [1].
Definition scenario_grad : @tensor RArith := @Tensor RArith Float32 Strided [2].

Definition sparse_grad : @tensor RArith := @Tensor RArith Float32 SparseCoo [2].

Definition scenario_world : @world RArith :=
  @example_world RArith scenario_param scenario_grad.

(** A parameter 1.0 with a zero gradient whose stored compensation buffer
    holds 1.0, as a buffer restored from a reduced-precision run may. *)
Definition stale_group : @group RArith :=
  @Group RArith 0.1 0.9 0.999 1e-8 0 true Float32 Float32 Float32 [1%positive].

Definition stale_state : gmap string (@tensor RArith) :=
  <["compensation" := @Tensor RArith Float32 Strided [1]]>
    (<["exp_avg_sq" := @Tensor RArith Float32 Strided [0]]>
       (<["exp_avg" := @Tensor RArith Float32 Strided [0]]>
          (<["step" := @Tensor RArith Float32 Strided [1]]> ∅))).

Definition stale_pstate : @pstate RArith :=
  @PState RArith (@Tensor RArith Float32 Strided [1]) (@Tensor RArith Float32 Strided [0])
          (@Tensor RArith Float32 Strided [0]) (@Tensor RArith Float32 Strided [1]).

Definition stale_world : @world RArith :=
  @World RArith
    (<[2%positive := @Tensor RArith Float32 Strided [0]]>
       {[1%positive := @Tensor RArith Float32 Strided [1]]})
    {[1%positive := 2%positive]}
    {[1%positive := stale_state]}.

(** The scenario with compensation and weight decay switched on. *)
Definition kahan_group : @group RArith :=
  @Group RArith 0.1 0.9 0.999 1e-8 0.1 true BFloat16 BFloat16 BFloat16 [1%positive].

(** One update of a weight [x] under the gradient [d] when the moments
    are those of a constant gradient: the decay, then a move of
    [lr * d / (|d| + eps)]. *)
Definition normalized_step (g : @group RArith) (x d : R) : R :=
  x * (1 - @lr RArith g * @weight_decay RArith g)
  - @lr RArith g * d / (Rabs d + @eps RArith g).

(** The state after [n] updates that all saw the gradient [tg]. *)
Definition tracking (g : @group RArith) (n : nat) (tg : @tensor RArith)
    (ps : @pstate RArith) : Prop :=
  @t_data RArith (@ps_step RArith ps) = [INR n] /\
  @t_data RArith (@ps_m RArith ps)
  = (fun d => (1 - @beta1 RArith g ^ n) * d) <$> @t_data RArith tg /\
  @t_data RArith (@ps_v RArith ps)
  = (fun d => (1 - @beta2 RArith g ^ n) * (d * d)) <$> @t_data RArith tg /\
  Forall (fun x => x = 0) (@t_data RArith (@ps_c RArith ps)).

(** The scenario's world with a dictionary already stored for the
    parameter. *)
Definition stored_world (st : gmap string (@tensor RArith)) : @world RArith :=
  @World RArith (<[2%positive := scenario_grad]> {[1%positive := scenario_param]})
         {[1%positive := 2%positive]} {[1%positive := st]}.

(** The dictionary the scenario leaves behind: no compensation buffer. *)
Definition plain_state : gmap string (@tensor RArith) :=
  <["exp_avg_sq" := @Tensor RArith Float32 Strided [0.004]]>
    (<["exp_avg" := @Tensor RArith Float32 Strided [0.2]]>
       (<["step" := @Tensor RArith Float32 Strided [1]]> ∅)).

Definition plain_pstate : @pstate RArith :=
  @PState RArith (@Tensor RArith Float32 Strided [1])
          (@Tensor RArith Float32 Strided [0.2])
          (@Tensor RArith Float32 Strided [0.004])
          (@Tensor RArith Float32 Strided [0]).

(** Dictionaries that lack entries. *)
Definition moment_only_state : gmap string (@tensor RArith) :=
  <["exp_avg" := @Tensor RArith Float32 Strided [0.2]]> ∅.

Definition step_only_state : gmap string (@tensor RArith) :=
  <["step" := @Tensor RArith Float32 Strided [1]]> ∅.

(** The scenario's parameter without a gradient. *)
Definition idle_world : @world RArith :=
  @World RArith {[1%positive := scenario_param]} ∅ ∅.

(** The scenario's group with a second parameter listed first. *)
Definition pair_group : @group RArith :=
  @Group RArith 0.1 0.9 0.999 1e-8 0 false Float32 Float32 Float32
         [3%positive; 1%positive].

End Exact.

(** ** IEEE binary32 arithmetic *)

Module Binary32.

Local Open Scope Z_scope.

Definition prec_of (d : dtype) : Z :=
  match d with BFloat16 => 8 | Float16 => 11 | Float32 => 24 | Float64 => 53 end.

Definition emax_of (d : dtype) : Z :=
  match d with BFloat16 => 128 | Float16 => 16 | Float32 => 128 | Float64 => 1024 end.

(** Round a binary32 number to the format of [d] and bring the result
    back to its binary32 form; nothing to do for the formats that hold
    every binary32 number. *)
Definition b32_cast (d : dtype) (x : spec_float) : spec_float :=
  match d, x with
  | (BFloat16 | Float16), S754_finite s m e =>
      match binary_normalize (prec_of d) (emax_of d) (cond_Zopp s (Zpos m)) e s with
      | S754_finite s' m' e' => binary_normalize 24 128 (cond_Zopp s' (Zpos m')) e' s'
      | y => y
      end
  | _, _ => x
  end.

Definition b32_one : spec_float := S754_finite false 8388608 (-23).
Definition b32_half : spec_float := S754_finite false 8388608 (-24).

(** The integer a float stands for, when it is one. *)
Definition b32_to_Z (x : spec_float) : option Z :=
  match x with
  | S754_zero _ => Some 0
  | S754_finite s m e =>
      match e with
      | Zneg k =>
          if Z.eqb (Z.modulo (Zpos m) (2 ^ Zpos k)) 0
          then Some (cond_Zopp s (Zpos m / 2 ^ Zpos k))
          else None
      | _ => Some (cond_Zopp s (Zpos m * 2 ^ e))
      end
  | _ => None
  end.

Definition b32_of_Z (n : Z) : spec_float := binary_normalize 24 128 n 0 false.

Fixpoint pow_pos (x : spec_float) (n : positive) : spec_float :=
  match n with
  | xH => x
  | xO n' => let y := pow_pos x n' in SFmul 24 128 y y
  | xI n' => let y := pow_pos x n' in SFmul 24 128 x (SFmul 24 128 y y)
  end.

(** [x ** y]: [sqrt] for the exponent 0.5, repeated squaring for an
    integer exponent (the library routine may differ from it in the last
    place), and not a number otherwise. *)
Definition b32_pow (x y : spec_float) : spec_float :=
  if SFeqb y b32_half then SFsqrt 24 128 x
  else match b32_to_Z y with
       | Some Z0 => b32_one
       | Some (Zpos n) => pow_pos x n
       | Some (Zneg n) => SFdiv 24 128 b32_one (pow_pos x n)
       | None => S754_nan
       end.

Definition b32_truthy (x : spec_float) : bool :=
  match x with S754_zero _ => false | _ => true end.

Definition B32Arith : Arith := {|
  F := spec_float;
  f0 := S754_zero false;
  f1 := b32_one;
  fhalf := b32_half;
  fadd := SFadd 24 128;
  fsub := SFsub 24 128;
  fmul := SFmul 24 128;
  fdiv := SFdiv 24 128;
  fpow := b32_pow;
  fneg := SFopp;
  fsqrt := SFsqrt 24 128;
  truthy := b32_truthy;
  cast := b32_cast
|}.

(** A parameter group with the defaults of the constructor, a one-element
    parameter at location 1, and a run of 2^24 + 1 calls that all come
    with the same gradient. *)
Definition b32_ratio (a b : Z) : spec_float := SFdiv 24 128 (b32_of_Z a) (b32_of_Z b).

Definition counter_group : @group B32Arith :=
  @Group B32Arith (b32_ratio 1 1000) (b32_ratio 9 10) (b32_ratio 999 1000)
         (b32_ratio 1 100000000) (S754_zero false) true
         BFloat16 BFloat16 BFloat16 [1%positive].

Definition counter_param : @tensor B32Arith := @Tensor B32Arith BFloat16 Strided [b32_one].
Definition counter_grad : @tensor B32Arith := @Tensor B32Arith BFloat16 Strided [b32_one].

Definition counter_world : @world B32Arith :=
  @World B32Arith {[1%positive := counter_param]} ∅ ∅.

Definition counter_calls : list (loc * option (@tensor B32Arith)) :=
  replicate (Z.to_nat 16777217) (1%positive, Some counter_grad).

End Binary32.

(** * Verification *)

(** ** Running the primitives *)

(** Lookups in a dictionary written with literal keys. *)
Ltac slot :=
  repeat first [ rewrite lookup_insert_eq
               | rewrite lookup_insert_ne by discriminate ];
  first [ eassumption | reflexivity ].

Section Running.
Context {A : Arith}.

Lemma bind_ok {X Y} (m : M X) (k : X -> M Y) w w' x :
  m w = (w', Ok x) -> (m ≫= k) w = k x w'.
Proof. intros H. unfold mbind, M_bind. now rewrite H. Qed.

Lemma bind_raise {X Y} (m : M X) (k : X -> M Y) w w' e :
  m w = (w', Raise e) -> (m ≫= k) w = (w', Raise e).
Proof. intros H. unfold mbind, M_bind. now rewrite H. Qed.

Lemma lift_ok {X} (o : outcome X) x w : o = Ok x -> lift o w = (w, Ok x).
Proof. now intros ->. Qed.

Lemma focus_intro w p tp st :
  heap w !! p = Some tp -> state w !! p = Some st ->
  w = focus (heap w) (grad_of w) (state w) p tp st.
Proof.
  intros Hp Hs. destruct w as [h gr s]. unfold focus. cbn in *.
  now rewrite !insert_id.
Qed.

Section Focus.
Variables (h : gmap loc tensor) (gr : gmap loc loc)
          (s : gmap loc (gmap string tensor)) (p : loc).

Lemma read_param tp st :
  read (Heap p) (focus h gr s p tp st) = (focus h gr s p tp st, Ok tp).
Proof. unfold read, focus. cbn [heap]. now rewrite lookup_insert_eq. Qed.

Lemma read_other l t tp st :
  l <> p -> h !! l = Some t ->
  read (Heap l) (focus h gr s p tp st) = (focus h gr s p tp st, Ok t).
Proof.
  intros Hne Hl. unfold read, focus. cbn [heap].
  rewrite lookup_insert_ne by congruence. now rewrite Hl.
Qed.

Lemma read_slot key t tp st :
  st !! key = Some t ->
  read (Slot p key) (focus h gr s p tp st) = (focus h gr s p tp st, Ok t).
Proof.
  intros Hk. unfold read, focus. cbn [state].
  rewrite lookup_insert_eq. cbn. now rewrite Hk.
Qed.

Lemma read_slot_missing key tp st :
  st !! key = None ->
  read (Slot p key) (focus h gr s p tp st)
  = (focus h gr s p tp st, Raise (KeyError key)).
Proof.
  intros Hk. unfold read, focus. cbn [state].
  rewrite lookup_insert_eq. cbn. now rewrite Hk.
Qed.

Lemma state_ref_slot key t tp st :
  st !! key = Some t ->
  state_ref p key (focus h gr s p tp st) = (focus h gr s p tp st, Ok (Slot p key)).
Proof.
  intros Hk. unfold state_ref. now rewrite (bind_ok _ _ _ _ _ (read_slot _ _ _ _ Hk)).
Qed.

Lemma write_slot key t tp st :
  write (Slot p key) t (focus h gr s p tp st)
  = (focus h gr s p tp (<[key := t]> st), Ok tt).
Proof.
  unfold write, focus. cbn [state heap grad_of].
  rewrite lookup_insert_eq. cbn. now rewrite insert_insert_eq.
Qed.

Lemma write_param t tp st :
  write (Heap p) t (focus h gr s p tp st) = (focus h gr s p t st, Ok tt).
Proof.
  unfold write, focus. cbn [state heap grad_of]. now rewrite insert_insert_eq.
Qed.

Lemma modify_slot key f t t' tp st :
  st !! key = Some t -> f t = Ok t' ->
  modify (Slot p key) f (focus h gr s p tp st)
  = (focus h gr s p tp (<[key := t']> st), Ok tt).
Proof.
  intros Hk Hf. unfold modify.
  rewrite (bind_ok _ _ _ _ _ (read_slot _ _ _ _ Hk)).
  rewrite (bind_ok _ _ _ _ _ (lift_ok _ _ _ Hf)).
  apply write_slot.
Qed.

Lemma modify_param f t' tp st :
  f tp = Ok t' ->
  modify (Heap p) f (focus h gr s p tp st) = (focus h gr s p t' st, Ok tt).
Proof.
  intros Hf. unfold modify.
  rewrite (bind_ok _ _ _ _ _ (read_param _ _)).
  rewrite (bind_ok _ _ _ _ _ (lift_ok _ _ _ Hf)).
  apply write_param.
Qed.

End Focus.

(** ** Shapes *)

Lemma tmap_length f t : length (t_data (tmap f t)) = length (t_data t).
Proof. unfold tmap. cbn. now rewrite length_fmap. Qed.

Lemma tmap_dtype f t : t_dtype (tmap f t) = t_dtype t.
Proof. reflexivity. Qed.

Lemma zipT_length f t o :
  length (t_data o) = length (t_data t) ->
  length (t_data (zipT f t o)) = length (t_data t).
Proof. intros H. unfold zipT. cbn. rewrite length_zip_with. lia. Qed.

Lemma zip3T_length f t a b :
  length (t_data a) = length (t_data t) ->
  length (t_data b) = length (t_data t) ->
  length (t_data (zip3T f t a b)) = length (t_data t).
Proof.
  intros Ha Hb. unfold zip3T. cbn. rewrite length_zip_with, length_zip. lia.
Qed.

Lemma tzip_ok f t o :
  length (t_data o) = length (t_data t) -> tzip f t o = Ok (zipT f t o).
Proof.
  intros H. unfold tzip, same_shape. rewrite H. now rewrite Nat.eqb_refl.
Qed.

Lemma tzip3_ok f t a b :
  length (t_data a) = length (t_data t) ->
  length (t_data b) = length (t_data t) ->
  tzip3 f t a b = Ok (zip3T f t a b).
Proof.
  intros Ha Hb. unfold tzip3, same_shape. rewrite Ha, Hb.
  now rewrite Nat.eqb_refl.
Qed.

Lemma item_ok t : length (t_data t) = 1%nat -> item t = Ok (scalar_of t).
Proof.
  unfold item, scalar_of. destruct (t_data t) as [|x [|y l]]; cbn; try discriminate.
  reflexivity.
Qed.

Lemma decayed_length g tp : length (t_data (decayed g tp)) = length (t_data tp).
Proof. unfold decayed. destruct (truthy _); [apply tmap_length | reflexivity]. Qed.

Lemma decayed_dtype g tp : t_dtype (decayed g tp) = t_dtype tp.
Proof. unfold decayed. now destruct (truthy _). Qed.

(** ** Running the two apply branches *)

Lemma kahan_apply_run h gr s p tp st tc tm cv ss :
  st !! "compensation" = Some tc ->
  st !! "exp_avg" = Some tm ->
  length (t_data ss) = 1%nat ->
  length (t_data tc) = length (t_data tp) ->
  length (t_data tm) = length (t_data tp) ->
  length (t_data cv) = length (t_data tp) ->
  let c1 := kahan_accumulate (fneg (scalar_of ss)) tc tm cv in
  let p2 := kahan_param tp c1 in
  kahan_apply p (Slot p "exp_avg") cv ss (focus h gr s p tp st)
  = (focus h gr s p p2
       (<["compensation" := kahan_recover c1 (kahan_lost tp p2)]> st), Ok tt).
Proof.
  intros Hc Hm Hss Lc Lm Lv c1 p2. unfold kahan_apply.
  rewrite (bind_ok _ _ _ _ _ (state_ref_slot _ _ _ _ _ _ _ _ Hc)).
  assert (Hitem : item (t_neg ss) = Ok (fneg (scalar_of ss))).
  { unfold item, scalar_of, t_neg. cbn.
    destruct (t_data ss) as [|x [|y l]]; cbn in *; try discriminate. reflexivity. }
  rewrite (bind_ok _ _ _ _ _ (lift_ok _ _ _ Hitem)).
  rewrite (bind_ok _ _ _ _ _ (read_slot _ _ _ _ _ _ _ _ Hm)).
  assert (H1 : t_addcdiv_ tc tm cv (fneg (scalar_of ss)) = Ok c1).
  { unfold t_addcdiv_. apply tzip3_ok; congruence. }
  rewrite (bind_ok _ _ _ _ _
             (modify_slot _ _ _ _ _ (fun c => t_addcdiv_ c tm cv _) _ _ _ _ Hc H1)).
  rewrite (bind_ok _ _ _ _ _ (read_param _ _ _ _ _ _)).
  assert (Hc1 : <["compensation" := c1]> st !! "compensation" = Some c1) by slot.
  rewrite (bind_ok _ _ _ _ _ (read_slot _ _ _ _ _ _ _ _ Hc1)).
  assert (Lc1 : length (t_data c1) = length (t_data tp)).
  { unfold c1, kahan_accumulate. rewrite zip3T_length; congruence. }
  assert (H2 : t_add_ tp c1 = Ok p2) by (apply tzip_ok; exact Lc1).
  rewrite (bind_ok _ _ _ _ _ (modify_param _ _ _ _ (fun t => t_add_ t c1) _ _ _ H2)).
  rewrite (bind_ok _ _ _ _ _ (read_param _ _ _ _ _ _)).
  assert (Lp2 : length (t_data p2) = length (t_data tp)).
  { unfold p2, kahan_param. now rewrite zipT_length. }
  assert (H3 : t_sub_ tp p2 = Ok (kahan_lost tp p2)) by (apply tzip_ok; exact Lp2).
  rewrite (bind_ok _ _ _ _ _ (lift_ok _ _ _ H3)).
  assert (H4 : t_add_ c1 (kahan_lost tp p2) = Ok (kahan_recover c1 (kahan_lost tp p2))).
  { apply tzip_ok. unfold kahan_lost. rewrite zipT_length; congruence. }
  rewrite (modify_slot _ _ _ _ _ (fun c => t_add_ c _) _ _ _ _ Hc1 H4).
  now rewrite insert_insert_eq.
Qed.

Lemma direct_apply_run h gr s p tp st tm cv ss :
  st !! "exp_avg" = Some tm ->
  length (t_data ss) = 1%nat ->
  length (t_data tm) = length (t_data tp) ->
  length (t_data cv) = length (t_data tp) ->
  direct_apply p (Slot p "exp_avg") cv ss (focus h gr s p tp st)
  = (focus h gr s p (direct_param (fneg (scalar_of ss)) tp tm cv) st, Ok tt).
Proof.
  intros Hm Hss Lm Lv. unfold direct_apply.
  assert (Hitem : item (t_neg ss) = Ok (fneg (scalar_of ss))).
  { unfold item, scalar_of, t_neg. cbn.
    destruct (t_data ss) as [|x [|y l]]; cbn in *; try discriminate. reflexivity. }
  rewrite (bind_ok _ _ _ _ _ (lift_ok _ _ _ Hitem)).
  rewrite (bind_ok _ _ _ _ _ (read_slot _ _ _ _ _ _ _ _ Hm)).
  apply (modify_param _ _ _ _ (fun t => t_addcdiv_ t tm cv _)).
  unfold t_addcdiv_. now apply tzip3_ok.
Qed.

(** ** Running one update *)

Lemma new_step_length ts :
  length (t_data ts) = 1%nat -> length (t_data (new_step ts)) = 1%nat.
Proof. intros H. unfold new_step, t_iadd. now rewrite tmap_length. Qed.

Lemma step_size_length g ts :
  length (t_data ts) = 1%nat -> length (t_data (step_size g ts)) = 1%nat.
Proof.
  intros H. unfold step_size, bias_correction1, t_rdiv, t_rsub, t_rpow.
  now rewrite !tmap_length.
Qed.

Lemma denom_correction_length g ts :
  length (t_data ts) = 1%nat -> length (t_data (denom_correction g ts)) = 1%nat.
Proof.
  intros H. unfold denom_correction, t_pow, t_rsub, t_rpow.
  now rewrite !tmap_length.
Qed.

Lemma new_momentum_length g tm tg tp :
  length (t_data tm) = length (t_data tp) ->
  length (t_data tg) = length (t_data tp) ->
  length (t_data (new_momentum g tm tg)) = length (t_data tp).
Proof.
  intros Hm Hg. unfold new_momentum, t_mul_.
  rewrite zipT_length; rewrite tmap_length; congruence.
Qed.

Lemma new_variance_length g tv tg tp :
  length (t_data tv) = length (t_data tp) ->
  length (t_data tg) = length (t_data tp) ->
  length (t_data (new_variance g tv tg)) = length (t_data tp).
Proof.
  intros Hv Hg. unfold new_variance, t_mul_.
  rewrite zip3T_length; rewrite tmap_length; congruence.
Qed.

Lemma cvar_length g tv ts : length (t_data (cvar g tv ts)) = length (t_data tv).
Proof. unfold cvar, t_add_scalar_, t_sqrt. now rewrite !tmap_length. Qed.

Lemma centered_variance_ok g tv ts :
  length (t_data ts) = 1%nat ->
  centered_variance g tv (denom_correction g ts) = Ok (cvar g tv ts).
Proof.
  intros H. unfold centered_variance, t_div_0dim.
  now rewrite (item_ok _ (denom_correction_length g ts H)).
Qed.

Lemma main_processing_run g h gr s p gl tp tg st ps :
  holds g tp st ps ->
  gl <> p -> h !! gl = Some tg ->
  length (t_data tg) = length (t_data tp) ->
  main_processing g p gl (focus h gr s p tp st)
  = (focus h gr s p (post_param g tp tg ps) (post_state g tp tg ps st), Ok tt).
Proof.
  intros [Hs H0 Hm Hv Hc Lm Lv Lc] Hne Hg Lg. unfold main_processing.
  (* state["step"] += 1 *)
  rewrite (bind_ok _ _ _ _ _
             (modify_slot _ _ _ _ _ (fun t => Ok (t_iadd t f1)) _ _ _ _ Hs eq_refl)).
  fold (new_step (ps_step ps)).
  set (st1 := <["step" := new_step (ps_step ps)]> st).
  assert (Hs1 : st1 !! "step" = Some (new_step (ps_step ps))) by (unfold st1; slot).
  assert (Hm1 : st1 !! "exp_avg" = Some (ps_m ps)) by (unfold st1; slot).
  assert (Hv1 : st1 !! "exp_avg_sq" = Some (ps_v ps)) by (unfold st1; slot).
  rewrite (bind_ok _ _ _ _ _ (state_ref_slot _ _ _ _ _ _ _ _ Hs1)).
  rewrite (bind_ok _ _ _ _ _ (state_ref_slot _ _ _ _ _ _ _ _ Hm1)).
  rewrite (bind_ok _ _ _ _ _ (state_ref_slot _ _ _ _ _ _ _ _ Hv1)).
  (* weight decay *)
  assert (Hdecay :
    (if truthy (weight_decay g)
     then modify (Heap p)
            (fun t => Ok (t_mul_ t (fsub f1 (fmul (lr g) (weight_decay g)))))
     else mret tt) (focus h gr s p tp st1)
    = (focus h gr s p (decayed g tp) st1, Ok tt)).
  { unfold decayed, decay_factor. destruct (truthy (weight_decay g)).
    - now apply (modify_param _ _ _ _ (fun t => Ok (t_mul_ t _))).
    - reflexivity. }
  rewrite (bind_ok _ _ _ _ _ Hdecay). clear Hdecay.
  (* momentum *)
  rewrite (bind_ok _ _ _ _ _
             (modify_slot _ _ _ _ _ (fun m => Ok (t_mul_ m (beta1 g))) _ _ _ _
                Hm1 eq_refl)).
  rewrite (bind_ok _ _ _ _ _ (read_other _ _ _ _ _ _ _ _ Hne Hg)).
  assert (Hm2 : <["exp_avg" := t_mul_ (ps_m ps) (beta1 g)]> st1 !! "exp_avg"
                = Some (t_mul_ (ps_m ps) (beta1 g))) by slot.
  assert (Hadd : t_add_alpha_ (t_mul_ (ps_m ps) (beta1 g)) tg (fsub f1 (beta1 g))
                 = Ok (new_momentum g (ps_m ps) tg)).
  { unfold t_add_alpha_, new_momentum. apply tzip_ok.
    unfold t_mul_. rewrite tmap_length. congruence. }
  rewrite (bind_ok _ _ _ _ _
             (modify_slot _ _ _ _ _ (fun m => t_add_alpha_ m tg _) _ _ _ _ Hm2 Hadd)).
  rewrite insert_insert_eq. clear Hm2 Hadd.
  set (st2 := <["exp_avg" := new_momentum g (ps_m ps) tg]> st1).
  assert (Hv2 : st2 !! "exp_avg_sq" = Some (ps_v ps)) by (unfold st2; slot).
  (* variance *)
  rewrite (bind_ok _ _ _ _ _
             (modify_slot _ _ _ _ _ (fun v => Ok (t_mul_ v (beta2 g))) _ _ _ _
                Hv2 eq_refl)).
  rewrite (bind_ok _ _ _ _ _ (read_other _ _ _ _ _ _ _ _ Hne Hg)).
  assert (Hv3 : <["exp_avg_sq" := t_mul_ (ps_v ps) (beta2 g)]> st2 !! "exp_avg_sq"
                = Some (t_mul_ (ps_v ps) (beta2 g))) by slot.
  assert (Hcm : t_addcmul_ (t_mul_ (ps_v ps) (beta2 g)) tg tg (fsub f1 (beta2 g))
                = Ok (new_variance g (ps_v ps) tg)).
  { unfold t_addcmul_, new_variance. apply tzip3_ok;
      unfold t_mul_; rewrite tmap_length; congruence. }
  rewrite (bind_ok _ _ _ _ _
             (modify_slot _ _ _ _ _ (fun v => t_addcmul_ v tg tg _) _ _ _ _ Hv3 Hcm)).
  rewrite insert_insert_eq. clear Hv3 Hcm.
  set (st3 := <["exp_avg_sq" := new_variance g (ps_v ps) tg]> st2).
  assert (Hs3 : st3 !! "step" = Some (new_step (ps_step ps)))
    by (unfold st3, st2; slot).
  assert (Hm3 : st3 !! "exp_avg" = Some (new_momentum g (ps_m ps) tg))
    by (unfold st3, st2; slot).
  assert (Hv4 : st3 !! "exp_avg_sq" = Some (new_variance g (ps_v ps) tg))
    by (unfold st3; slot).
  (* bias correction *)
  rewrite (bind_ok _ _ _ _ _ (read_slot _ _ _ _ _ _ _ _ Hs3)).
  rewrite (bind_ok _ _ _ _ _ (read_slot _ _ _ _ _ _ _ _ Hv4)).
  pose proof (new_step_length _ H0) as L1.
  rewrite (bind_ok _ _ _ _ _ (lift_ok _ _ _ (centered_variance_ok g _ _ L1))).
  pose proof (new_momentum_length g _ _ _ Lm Lg) as Lm'.
  pose proof (new_variance_length g _ _ _ Lv Lg) as Lv'.
  (* apply *)
  unfold post_param, post_state, post_compensation, neg_step_size.
  fold st1. fold st2. fold st3.
  destruct (use_kahan_summation g) eqn:Hk.
  - assert (Hc3 : st3 !! "compensation" = Some (ps_c ps)).
    { unfold st3, st2, st1. rewrite !lookup_insert_ne by discriminate. now apply Hc. }
    rewrite (kahan_apply_run _ _ _ _ _ _ _ _ _ _ Hc3 Hm3); try reflexivity.
    + now apply step_size_length.
    + rewrite decayed_length. now apply Lc.
    + now rewrite decayed_length.
    + now rewrite cvar_length, decayed_length.
  - rewrite (direct_apply_run _ _ _ _ _ _ _ _ _ Hm3); try reflexivity.
    + now apply step_size_length.
    + now rewrite decayed_length.
    + now rewrite cvar_length, decayed_length.
Qed.

Lemma init_state_run g h gr s p tp :
  init_state g p (focus h gr s p tp ∅)
  = (focus h gr s p tp (created_state g tp), Ok tt).
Proof.
  unfold init_state, created_state.
  rewrite (bind_ok _ _ _ _ _ (write_slot _ _ _ _ _ _ _ _)).
  rewrite (bind_ok _ _ _ _ _ (read_param _ _ _ _ _ _)).
  rewrite (bind_ok _ _ _ _ _ (write_slot _ _ _ _ _ _ _ _)).
  rewrite (bind_ok _ _ _ _ _ (read_param _ _ _ _ _ _)).
  rewrite (bind_ok _ _ _ _ _ (write_slot _ _ _ _ _ _ _ _)).
  destruct (use_kahan_summation g).
  - rewrite (bind_ok _ _ _ _ _ (read_param _ _ _ _ _ _)).
    apply write_slot.
  - reflexivity.
Qed.

Lemma zeros_like_length tp d : length (t_data (zeros_like tp d)) = length (t_data tp).
Proof. unfold zeros_like. cbn. now rewrite length_fmap. Qed.

Lemma holds_created g tp : holds g tp (created_state g tp) (created_pstate g tp).
Proof.
  unfold created_state, created_pstate.
  split; cbn [ps_step ps_m ps_v ps_c]; try apply zeros_like_length;
    try reflexivity; try (intros _; apply zeros_like_length).
  - destruct (use_kahan_summation g); slot.
  - destruct (use_kahan_summation g); slot.
  - destruct (use_kahan_summation g); slot.
  - intros ->. slot.
Qed.

Lemma holds_nonempty g tp st ps : holds g tp st ps -> size st <> 0%nat.
Proof.
  intros [Hs _ _ _ _ _ _ _] Hsz. apply map_size_empty_iff in Hsz. subst st.
  now rewrite lookup_empty in Hs.
Qed.

(** The dense case: the update succeeds and leaves the parameter at
    [post_param] and its dictionary at [post_state]; nothing else
    changes. *)
Lemma update_param_run g w p gl tp tg ps :
  dense_grad w p gl tp tg ->
  holds g tp (get_or_create g tp (state w !! p)) ps ->
  update_param g p w
  = (World (<[p := post_param g tp tg ps]> (heap w)) (grad_of w)
           (<[p := post_state g tp tg ps (get_or_create g tp (state w !! p))]>
              (state w)),
     Ok tt).
Proof.
  intros [Hp Hgr Hg Hd Hne Lg] Hh. unfold update_param.
  assert (G : get_grad p w = (w, Ok (Some gl))) by (unfold get_grad; now rewrite Hgr).
  rewrite (bind_ok _ _ _ _ _ G). clear G.
  assert (G : read (Heap gl) w = (w, Ok tg)) by (unfold read; now rewrite Hg).
  rewrite (bind_ok _ _ _ _ _ G). clear G. rewrite Hd.
  destruct (state w !! p) as [st|] eqn:Hst; cbn [get_or_create] in Hh |- *.
  - assert (G : self_state p w = (w, Ok st)) by (unfold self_state; now rewrite Hst).
    rewrite (bind_ok _ _ _ _ _ G). clear G.
    rewrite (focus_intro w p tp st Hp Hst) at 1.
    destruct (decide (size st = 0%nat)) as [Hsz|Hsz].
    + apply map_size_empty_iff in Hsz. subst st.
      rewrite (bind_ok _ _ _ _ _ (init_state_run g _ _ _ _ _)).
      now rewrite (main_processing_run g _ _ _ _ gl tp tg _ ps Hh Hne Hg Lg).
    + assert (G : (mret tt : M unit) (focus (heap w) (grad_of w) (state w) p tp st)
                  = (focus (heap w) (grad_of w) (state w) p tp st, Ok tt))
        by reflexivity.
      rewrite (bind_ok _ _ _ _ _ G). clear G.
      now rewrite (main_processing_run g _ _ _ _ gl tp tg _ ps Hh Hne Hg Lg).
  - assert (G : self_state p w
                = (focus (heap w) (grad_of w) (state w) p tp ∅, Ok ∅)).
    { unfold self_state, focus. rewrite Hst. now rewrite (insert_id _ _ _ Hp). }
    rewrite (bind_ok _ _ _ _ _ G). clear G.
    destruct (decide (size (∅ : gmap string tensor) = 0%nat)) as [_|Hsz];
      [|now rewrite map_size_empty in Hsz].
    rewrite (bind_ok _ _ _ _ _ (init_state_run g _ _ _ _ _)).
    now rewrite (main_processing_run g _ _ _ _ gl tp tg _ ps Hh Hne Hg Lg).
Qed.

(** An absent gradient: [continue]. *)
Lemma update_param_absent g w p :
  grad_of w !! p = None -> update_param g p w = (w, Ok tt).
Proof.
  intros H. unfold update_param.
  assert (G : get_grad p w = (w, Ok None)) by (unfold get_grad; now rewrite H).
  now rewrite (bind_ok _ _ _ _ _ G).
Qed.

(** A sparse gradient: the exception is raised before anything is
    touched. *)
Lemma update_param_sparse g w p gl tg :
  grad_of w !! p = Some gl -> heap w !! gl = Some tg -> is_sparse tg = true ->
  update_param g p w
  = (w, Raise (RuntimeError "BFF does not support sparse gradients")).
Proof.
  intros Hgr Hg Hs. unfold update_param.
  assert (G : get_grad p w = (w, Ok (Some gl))) by (unfold get_grad; now rewrite Hgr).
  rewrite (bind_ok _ _ _ _ _ G). clear G.
  assert (G : read (Heap gl) w = (w, Ok tg)) by (unfold read; now rewrite Hg).
  rewrite (bind_ok _ _ _ _ _ G). now rewrite Hs.
Qed.

(** ** What an update can write *)

Lemma unchanged_refl P w : unchanged_outside P w w.
Proof. now repeat split. Qed.

Lemma unchanged_trans P w1 w2 w3 :
  unchanged_outside P w1 w2 -> unchanged_outside P w2 w3 ->
  unchanged_outside P w1 w3.
Proof.
  intros (G1 & H1 & S1) (G2 & H2 & S2). repeat split.
  - congruence.
  - intros l Hl. rewrite H2, H1; auto.
  - intros l Hl. rewrite S2, S1; auto.
Qed.

Lemma unchanged_mono (P Q : loc -> Prop) w w' :
  (forall l, P l -> Q l) -> unchanged_outside P w w' -> unchanged_outside Q w w'.
Proof. intros HPQ (G & H & S). repeat split; auto. Qed.

Lemma confined_mono (P Q : loc -> Prop) {X} (m : M X) :
  (forall l, P l -> Q l) -> confined P m -> confined Q m.
Proof. intros HPQ Hm w. eapply unchanged_mono; eauto. Qed.

Lemma confined_ret P {X} (x : X) : confined P (mret x : M X).
Proof. intros w. apply unchanged_refl. Qed.

Lemma confined_raise P {X} e : confined P (raise e : M X).
Proof. intros w. apply unchanged_refl. Qed.

Lemma confined_lift P {X} (o : outcome X) : confined P (lift o).
Proof. intros w. apply unchanged_refl. Qed.

Lemma confined_bind P {X Y} (m : M X) (k : X -> M Y) :
  confined P m -> (forall x, confined P (k x)) -> confined P (m ≫= k).
Proof.
  intros Hm Hk w. unfold mbind, M_bind. specialize (Hm w).
  destruct (m w) as [w' [x|e]]; cbn in *.
  - eapply unchanged_trans; [exact Hm | apply Hk].
  - exact Hm.
Qed.

Lemma confined_read P r : confined P (read r).
Proof.
  intros w. unfold read. destruct r as [l|q key].
  - destruct (heap w !! l); apply unchanged_refl.
  - destruct (state w !! q ≫= _); apply unchanged_refl.
Qed.

Lemma confined_get_grad P q : confined P (get_grad q).
Proof. intros w. apply unchanged_refl. Qed.

Lemma confined_write (P : loc -> Prop) r t : ref_in P r -> confined P (write r t).
Proof.
  intros Hr w. unfold write. destruct r as [l|q key]; cbn in *.
  - repeat split; cbn; auto. intros l' Hl'.
    apply lookup_insert_ne. intros ->. contradiction.
  - repeat split; cbn; auto. intros l' Hl'.
    apply lookup_insert_ne. intros ->. contradiction.
Qed.

Lemma confined_modify (P : loc -> Prop) r f : ref_in P r -> confined P (modify r f).
Proof.
  intros Hr. unfold modify.
  apply confined_bind; [apply confined_read|]. intros t.
  apply confined_bind; [apply confined_lift|]. intros t'.
  now apply confined_write.
Qed.

Lemma confined_state_ref P q key : confined P (state_ref q key).
Proof.
  unfold state_ref. apply confined_bind; [apply confined_read|].
  intros _. apply confined_ret.
Qed.

Lemma confined_self_state (P : loc -> Prop) q : P q -> confined P (self_state q).
Proof.
  intros Hq w. unfold self_state. destruct (state w !! q).
  - apply unchanged_refl.
  - repeat split; cbn; auto. intros l Hl.
    apply lookup_insert_ne. intros ->. contradiction.
Qed.

Ltac confine :=
  repeat first
    [ apply confined_ret | apply confined_raise | apply confined_lift
    | apply confined_read | apply confined_get_grad | apply confined_state_ref
    | (apply confined_write; assumption) | (apply confined_modify; assumption)
    | (apply confined_self_state; assumption)
    | (apply confined_bind; [| intros ? ]) ].

Lemma confined_init_state (P : loc -> Prop) g q : P q -> confined P (init_state g q).
Proof.
  intros Hq. unfold init_state. assert (ref_in P (Heap q)) by exact Hq.
  assert (forall k, ref_in P (Slot q k)) by (intros k; exact Hq).
  confine. destruct (use_kahan_summation g); confine.
Qed.

Lemma confined_bind_post P {X Y} (Q : X -> Prop) (m : M X) (k : X -> M Y) :
  confined P m ->
  (forall w w' x, m w = (w', Ok x) -> Q x) ->
  (forall x, Q x -> confined P (k x)) ->
  confined P (m ≫= k).
Proof.
  intros Hm HQ Hk w. unfold mbind, M_bind. specialize (Hm w).
  destruct (m w) as [w' [x|e]] eqn:E; cbn in *.
  - eapply unchanged_trans; [exact Hm | apply Hk; eapply HQ; exact E].
  - exact Hm.
Qed.

Lemma state_ref_result q key w w' r :
  state_ref q key w = (w', Ok r) -> r = Slot q key.
Proof.
  unfold state_ref, mbind, M_bind. destruct (read (Slot q key) w) as [w1 [t|e]].
  - intros [= _ <-]. reflexivity.
  - discriminate.
Qed.

Lemma confined_kahan_apply (P : loc -> Prop) q r cv ss :
  P q -> confined P (kahan_apply q r cv ss).
Proof.
  intros Hq. unfold kahan_apply. assert (ref_in P (Heap q)) by exact Hq.
  apply (confined_bind_post P (fun c => c = Slot q "compensation")).
  - apply confined_state_ref.
  - intros w w' x. apply state_ref_result.
  - intros c ->. assert (ref_in P (Slot q "compensation")) by exact Hq. confine.
Qed.

Lemma confined_direct_apply (P : loc -> Prop) q r cv ss :
  P q -> confined P (direct_apply q r cv ss).
Proof.
  intros Hq. unfold direct_apply. assert (ref_in P (Heap q)) by exact Hq. confine.
Qed.

Lemma confined_main_processing (P : loc -> Prop) g q gl :
  P q -> confined P (main_processing g q gl).
Proof.
  intros Hq. unfold main_processing.
  assert (ref_in P (Heap q)) by exact Hq.
  assert (Hslot : forall k, ref_in P (Slot q k)) by (intros k; exact Hq).
  apply confined_bind; [apply confined_modify, Hslot|]. intros _.
  apply (confined_bind_post P (fun c => c = Slot q "step"));
    [apply confined_state_ref | intros w w' x; apply state_ref_result |].
  intros step ->.
  apply (confined_bind_post P (fun c => c = Slot q "exp_avg"));
    [apply confined_state_ref | intros w w' x; apply state_ref_result |].
  intros exp_avg ->.
  apply (confined_bind_post P (fun c => c = Slot q "exp_avg_sq"));
    [apply confined_state_ref | intros w w' x; apply state_ref_result |].
  intros exp_avg_sq ->.
  pose proof (Hslot "exp_avg"). pose proof (Hslot "exp_avg_sq").
  apply confined_bind.
  { destruct (truthy (weight_decay g)); confine. }
  intros _. confine.
  destruct (use_kahan_summation g);
    [now apply confined_kahan_apply | now apply confined_direct_apply].
Qed.

(** Whatever its outcome, the update of [q] writes nothing but the tensor
    and the dictionary of [q]. *)
Lemma confined_update_param (P : loc -> Prop) g q :
  P q -> confined P (update_param g q).
Proof.
  intros Hq. unfold update_param.
  apply confined_bind; [apply confined_get_grad|]. intros [gl|]; [|apply confined_ret].
  apply confined_bind; [apply confined_read|]. intros tg.
  destruct (is_sparse tg); [apply confined_raise|].
  apply confined_bind; [now apply confined_self_state|]. intros st.
  apply confined_bind.
  { destruct (decide _); [now apply confined_init_state | apply confined_ret]. }
  intros _. now apply confined_main_processing.
Qed.

Lemma confined_for_each (P : loc -> Prop) {X} (l : list X) (body : X -> M unit) :
  (forall x, x ∈ l -> confined P (body x)) -> confined P (for_each l body).
Proof.
  induction l as [|x l IH]; intros Hb; cbn [for_each].
  - apply confined_ret.
  - apply confined_bind.
    + apply Hb. left.
    + intros _. apply IH. intros y Hy. apply Hb. now right.
Qed.

(** The parameters an optimizer walks over. *)
Lemma confined_step param_groups :
  confined (fun l => exists g, g ∈ param_groups /\ l ∈ params g)
           (step None param_groups).
Proof.
  unfold step. apply confined_bind; [apply confined_ret|]. intros _.
  apply confined_for_each. intros g Hg.
  apply confined_for_each. intros q Hq.
  apply confined_update_param. eauto.
Qed.

End Running.

(** ** Sequences of update calls *)

Section Runs.
Context {A : Arith}.

Lemma kahan_length value tp tc tm cv :
  length (t_data tc) = length (t_data tp) ->
  length (t_data tm) = length (t_data tp) ->
  length (t_data cv) = length (t_data tp) ->
  let c1 := kahan_accumulate value tc tm cv in
  let p2 := kahan_param tp c1 in
  length (t_data c1) = length (t_data tp) /\
  length (t_data p2) = length (t_data tp) /\
  length (t_data (kahan_recover c1 (kahan_lost tp p2))) = length (t_data tp).
Proof.
  intros Lc Lm Lv c1 p2.
  assert (L1 : length (t_data c1) = length (t_data tp)).
  { unfold c1, kahan_accumulate. rewrite zip3T_length; congruence. }
  assert (L2 : length (t_data p2) = length (t_data tp)).
  { unfold p2, kahan_param. now rewrite zipT_length. }
  repeat split; trivial.
  unfold kahan_recover, kahan_lost. rewrite zipT_length; [exact L1|].
  rewrite zipT_length; congruence.
Qed.

Lemma post_param_length g tp tg ps st :
  holds g tp st ps -> length (t_data tg) = length (t_data tp) ->
  length (t_data (post_param g tp tg ps)) = length (t_data tp).
Proof.
  intros [Hs H0 Hm Hv Hc Lm Lv Lc] Lg. unfold post_param.
  pose proof (new_momentum_length g _ _ _ Lm Lg) as Lm'.
  pose proof (new_variance_length g _ _ _ Lv Lg) as Lv'.
  destruct (use_kahan_summation g).
  - rewrite <- (decayed_length g tp).
    apply kahan_length; rewrite ?cvar_length, decayed_length; auto.
  - unfold direct_param.
    rewrite zip3T_length; rewrite ?cvar_length, ?decayed_length; auto.
Qed.

Lemma post_compensation_length g tp tg ps st :
  use_kahan_summation g = true ->
  holds g tp st ps -> length (t_data tg) = length (t_data tp) ->
  length (t_data (post_compensation g tp tg ps)) = length (t_data tp).
Proof.
  intros Hk [Hs H0 Hm Hv Hc Lm Lv Lc] Lg. unfold post_compensation.
  pose proof (new_momentum_length g _ _ _ Lm Lg) as Lm'.
  pose proof (new_variance_length g _ _ _ Lv Lg) as Lv'.
  rewrite <- (decayed_length g tp).
  apply kahan_length; rewrite ?cvar_length, decayed_length; auto.
Qed.

(** An update leaves a complete dictionary behind. *)
Lemma holds_post g tp tg ps st :
  holds g tp st ps -> length (t_data tg) = length (t_data tp) ->
  holds g (post_param g tp tg ps) (post_state g tp tg ps st) (post_pstate g tp tg ps).
Proof.
  intros Hh Lg. pose proof (post_param_length g tp tg ps st Hh Lg) as Lp.
  pose proof Hh as [Hs H0 Hm Hv Hc Lm Lv Lc].
  unfold post_state, post_pstate.
  split; cbn [ps_step ps_m ps_v ps_c]; rewrite ?Lp.
  - destruct (use_kahan_summation g); slot.
  - now apply new_step_length.
  - destruct (use_kahan_summation g); slot.
  - destruct (use_kahan_summation g); slot.
  - intros Hk. rewrite Hk. slot.
  - now apply new_momentum_length.
  - now apply new_variance_length.
  - intros Hk. rewrite Hk. now apply (post_compensation_length g tp tg ps st).
Qed.

Lemma same_shapes_refl w : same_shapes w w.
Proof. intros l tp H. eauto. Qed.

Lemma same_shapes_trans w1 w2 w3 :
  same_shapes w1 w2 -> same_shapes w2 w3 -> same_shapes w1 w3.
Proof.
  intros H12 H23 l tp H. destruct (H12 _ _ H) as (tp2 & H2 & L2).
  destruct (H23 _ _ H2) as (tp3 & H3 & L3). exists tp3. split; [exact H3 | congruence].
Qed.

Lemma event_ok_mono w w' ev : same_shapes w w' -> event_ok w ev -> event_ok w' ev.
Proof.
  intros Hs (tp & Hp & Ht). destruct (Hs _ _ Hp) as (tp' & Hp' & L).
  exists tp'. split; [exact Hp'|]. intros t E. rewrite L. auto.
Qed.

Lemma step_tensor_holds g w p tp st ps :
  state w !! p = Some st -> holds g tp st ps -> step_tensor w p = ps_step ps.
Proof.
  intros Hst Hh. unfold step_tensor. rewrite Hst. cbn. now rewrite (h_step _ _ _ _ Hh).
Qed.

(** After the caller stored a dense gradient of the right shape, the
    parameter is ready for its update. *)
Lemma set_grad_dense w p t tp :
  heap w !! p = Some tp ->
  is_sparse t = false ->
  length (t_data t) = length (t_data tp) ->
  dense_grad (set_grad p (Some t) w) p (fresh (dom (heap w))) tp t.
Proof.
  intros Hp Hd Lg. cbn [set_grad].
  assert (Hfresh : heap w !! fresh (dom (heap w)) = None).
  { apply not_elem_of_dom. apply is_fresh. }
  assert (Hne : fresh (dom (heap w)) <> p)
    by (intros E; rewrite E in Hfresh; congruence).
  split; cbn; trivial.
  - rewrite lookup_insert_ne by exact Hne. exact Hp.
  - apply lookup_insert_eq.
  - apply lookup_insert_eq.
Qed.

(** The state tensors the update of [p] starts from. *)
Lemma stored_pstate cfg w p tp :
  state_ok cfg w -> heap w !! p = Some tp ->
  exists ps,
    holds (cfg p) tp (get_or_create (cfg p) tp (state w !! p)) ps /\
    match state w !! p with
    | Some st => get_or_create (cfg p) tp (state w !! p) = st
    | None => ps = created_pstate (cfg p) tp
    end.
Proof.
  intros Hok Hp. destruct (state w !! p) as [st|] eqn:Hst.
  - destruct (Hok _ _ Hst) as (tp' & ps & Hp' & Hh).
    assert (tp' = tp) by congruence. subst tp'.
    exists ps. cbn [get_or_create].
    destruct (decide (size st = 0%nat)) as [E|_];
      [now apply (holds_nonempty _ _ _ _ Hh) in E|].
    split; [exact Hh | reflexivity].
  - exists (created_pstate (cfg p) tp). split; [apply holds_created | reflexivity].
Qed.

Lemma example_world_dense tp tg :
  is_sparse tg = false ->
  length (t_data tg) = length (t_data tp) ->
  dense_grad (example_world tp tg) 1%positive 2%positive tp tg.
Proof. intros Hd Lg. split; trivial; try reflexivity. discriminate. Qed.

Lemma example_world_holds g tp tg :
  holds g tp (get_or_create g tp (state (example_world tp tg) !! 1%positive))
        (created_pstate g tp).
Proof. apply holds_created. Qed.

(** A call with a dense gradient of the right shape succeeds; it bumps
    the step tensor of its parameter and touches no other dictionary. *)
Lemma call_present cfg w p t :
  state_ok cfg w -> event_ok w (p, Some t) ->
  exists w', call cfg (p, Some t) w = (w', Ok tt) /\
    state_ok cfg w' /\ same_shapes w w' /\
    step_tensor w' p = new_step (step_tensor w p) /\
    is_Some (state w' !! p) /\
    (forall q, q <> p -> state w' !! q = state w !! q) /\
    (forall q tq, q <> p -> heap w !! q = Some tq -> heap w' !! q = Some tq).
Proof.
  intros Hok (tp & Hp & Ht). cbn [fst snd] in *.
  destruct (Ht t eq_refl) as [Hd Lg]. clear Ht.
  unfold call. cbn [fst snd set_grad].
  set (gl := fresh (dom (heap w))).
  assert (Hfresh : heap w !! gl = None).
  { apply not_elem_of_dom. apply is_fresh. }
  assert (Hne : gl <> p) by (intros E; rewrite E in Hfresh; congruence).
  set (w1 := World (<[gl := t]> (heap w)) (<[p := gl]> (grad_of w)) (state w)).
  assert (Hdg : dense_grad w1 p gl tp t).
  { split; cbn; trivial.
    - rewrite lookup_insert_ne by exact Hne. exact Hp.
    - apply lookup_insert_eq.
    - apply lookup_insert_eq. }
  assert (Hh : exists ps, holds (cfg p) tp (get_or_create (cfg p) tp (state w !! p)) ps
                          /\ step_tensor w p = ps_step ps).
  { destruct (state w !! p) as [st|] eqn:Hst.
    - destruct (Hok _ _ Hst) as (tp' & ps & Hp' & Hh).
      assert (tp' = tp) by congruence. subst tp'.
      exists ps. cbn [get_or_create].
      destruct (decide (size st = 0%nat)) as [E|_];
        [now apply (holds_nonempty _ _ _ _ Hh) in E|].
      split; [exact Hh | eapply step_tensor_holds; eauto].
    - exists (created_pstate (cfg p) tp). split; [apply holds_created|].
      unfold step_tensor. now rewrite Hst. }
  destruct Hh as (ps & Hh & Hstep).
  pose proof (update_param_run (cfg p) w1 p gl tp t ps Hdg Hh) as Hrun.
  cbn [state heap grad_of w1] in Hrun. fold w1 in Hrun.
  eexists. split; [exact Hrun|].
  pose proof (holds_post _ _ _ _ _ Hh Lg) as Hh'.
  repeat split.
  - (* state_ok *)
    intros q st Hq. cbn [state heap] in *.
    destruct (decide (q = p)) as [->|Hqp].
    + rewrite lookup_insert_eq in Hq. injection Hq as <-.
      eexists _, _. split; [apply lookup_insert_eq | exact Hh'].
    + rewrite lookup_insert_ne in Hq by congruence.
      destruct (Hok _ _ Hq) as (tq & psq & Hq' & Hhq).
      exists tq, psq. split; [|exact Hhq].
      rewrite lookup_insert_ne by congruence.
      rewrite lookup_insert_ne; [exact Hq'|]. intros E. rewrite E in Hfresh. congruence.
  - (* same_shapes *)
    intros l tl Hl. cbn [heap].
    destruct (decide (l = p)) as [->|Hlp].
    + rewrite lookup_insert_eq. eexists. split; [reflexivity|].
      rewrite (post_param_length _ _ _ _ _ Hh Lg). congruence.
    + rewrite lookup_insert_ne by congruence.
      rewrite lookup_insert_ne; [eauto|]. intros E. rewrite E in Hfresh. congruence.
  - (* step *)
    unfold step_tensor at 1. cbn [state]. rewrite lookup_insert_eq. cbn.
    rewrite (h_step _ _ _ _ Hh'). cbn. now rewrite Hstep.
  - cbn [state]. rewrite lookup_insert_eq. eauto.
  - intros q Hq. cbn [state]. now rewrite lookup_insert_ne by congruence.
  - intros q tq Hq Hl. cbn [heap]. rewrite lookup_insert_ne by congruence.
    rewrite lookup_insert_ne; [exact Hl|]. intros E. rewrite E in Hfresh. congruence.
Qed.

(** A call without a gradient does nothing beyond clearing [p.grad]. *)
Lemma call_absent cfg w p :
  call cfg (p, None) w
  = (World (heap w) (delete p (grad_of w)) (state w), Ok tt).
Proof.
  unfold call. cbn [fst snd set_grad]. apply update_param_absent. cbn.
  apply lookup_delete_eq.
Qed.

Lemma present_calls_cons_present p q t evs :
  present_calls p ((q, Some t) :: evs)
  = if decide (q = p) then S (present_calls p evs) else present_calls p evs.
Proof.
  unfold present_calls. destruct (decide (q = p)) as [->|Hne].
  - rewrite filter_cons_True; [reflexivity|]. cbn. eauto.
  - rewrite filter_cons_False; [reflexivity|]. cbn. tauto.
Qed.

Lemma present_calls_cons_absent p q evs :
  present_calls p ((q, None) :: evs) = present_calls p evs.
Proof.
  unfold present_calls. rewrite filter_cons_False; [reflexivity|].
  cbn. intros [_ [x Hx]]. discriminate.
Qed.

Lemma step_tensor_frame w w' p :
  state w' !! p = state w !! p -> step_tensor w' p = step_tensor w p.
Proof. unfold step_tensor. now intros ->. Qed.

(** A run of well-formed calls succeeds, and the step tensor of every
    parameter has been bumped once per call that came with a gradient. *)
Lemma run_ok cfg evs : forall w,
  state_ok cfg w -> Forall (event_ok w) evs ->
  exists w', run cfg evs w = (w', Ok tt) /\
    state_ok cfg w' /\ same_shapes w w' /\
    forall p,
      step_tensor w' p = Nat.iter (present_calls p evs) new_step (step_tensor w p) /\
      (is_Some (state w' !! p) <->
       is_Some (state w !! p) \/ (0 < present_calls p evs)%nat).
Proof.
  induction evs as [|[q o] evs IH]; intros w Hok Hev.
  - exists w. split; [reflexivity|]. split; [exact Hok|].
    split; [apply same_shapes_refl|]. intros p. split; [reflexivity|].
    split; [now left | intros [H|H]; [exact H | cbn in H; lia]].
  - apply Forall_cons in Hev as [Hq Hev]. unfold run. cbn [for_each].
    destruct o as [t|].
    + destruct (call_present cfg w q t Hok Hq)
        as (w1 & Hrun & Hok1 & Hsh & Hstep & Hsome & Hframe & _).
      rewrite (bind_ok _ _ _ _ _ Hrun).
      assert (Hev1 : Forall (event_ok w1) evs).
      { eapply Forall_impl; [exact Hev|]. intros ev. now apply event_ok_mono. }
      destruct (IH w1 Hok1 Hev1) as (w' & Hrun' & Hok' & Hsh' & Hall).
      exists w'. split; [exact Hrun'|]. split; [exact Hok'|].
      split; [eapply same_shapes_trans; eauto|].
      intros p. destruct (Hall p) as [Hs Hex].
      rewrite present_calls_cons_present.
      destruct (decide (q = p)) as [->|Hne].
      * split.
        -- rewrite Hs, Hstep. now rewrite Nat.iter_succ_r.
        -- split; [intros _; right; lia | intros _; apply Hex; now left].
      * assert (E : state w1 !! p = state w !! p) by (apply Hframe; congruence).
        split.
        -- rewrite Hs. now rewrite (step_tensor_frame _ _ _ E).
        -- now rewrite Hex, E.
    + rewrite (bind_ok _ _ _ _ _ (call_absent cfg w q)).
      set (w1 := World (heap w) (delete q (grad_of w)) (state w)).
      assert (Hok1 : state_ok cfg w1) by exact Hok.
      assert (Hev1 : Forall (event_ok w1) evs) by exact Hev.
      destruct (IH w1 Hok1 Hev1) as (w' & Hrun' & Hok' & Hsh' & Hall).
      exists w'. split; [exact Hrun'|]. split; [exact Hok'|].
      split; [exact Hsh'|].
      intros p. rewrite present_calls_cons_absent. exact (Hall p).
Qed.

(** The value of a step tensor that was bumped [n] times from
    [torch.tensor(0.0)]. *)
Lemma iter_new_step n :
  Nat.iter n new_step tensor_0
  = Tensor default_dtype Strided
           [Nat.iter n (fun x => cast default_dtype (fadd x f1)) f0].
Proof.
  induction n as [|n IH]; [reflexivity|].
  change (Nat.iter (S n) new_step tensor_0)
    with (new_step (Nat.iter n new_step tensor_0)).
  now rewrite IH.
Qed.

End Runs.

(** ** The update, element by element *)

Section Claims.
Context {A : Arith} {L : ArithLaws A}.

Lemma decayed_layout g tp : t_layout (decayed g tp) = t_layout tp.
Proof. unfold decayed. now destruct (truthy _). Qed.

Lemma with_data_decayed g tp d : with_data (decayed g tp) d = with_data tp d.
Proof. unfold with_data. now rewrite decayed_dtype, decayed_layout. Qed.

Lemma zip_with_pair_diag {X Z} (f : X -> F * F -> Z) (l : list X) (k : list F) :
  zip_with f l (zip k k) = zip_with (fun x y => f x (y, y)) l k.
Proof.
  revert k. induction l as [|x l IH]; intros [|y k]; cbn; trivial.
  now rewrite IH.
Qed.

Lemma new_momentum_data g tm tg :
  new_momentum g tm tg
  = with_data tm
      (zip_with (fun m x => cast (t_dtype tm)
                   (fadd (cast (t_dtype tm) (fmul (beta1 g) m))
                         (fmul (fsub f1 (beta1 g)) x)))
                (t_data tm) (t_data tg)).
Proof.
  unfold new_momentum, zipT, t_mul_, tmap, with_data. cbn. f_equal.
  rewrite zip_with_fmap_l. apply zip_with_ext; trivial.
  intros m x. now rewrite (fmul_comm m).
Qed.

Lemma new_variance_data g tv tg :
  new_variance g tv tg
  = with_data tv
      (zip_with (fun v x => cast (t_dtype tv)
                   (fadd (cast (t_dtype tv) (fmul (beta2 g) v))
                         (fmul (fmul (fsub f1 (beta2 g)) x) x)))
                (t_data tv) (t_data tg)).
Proof.
  unfold new_variance, zip3T, t_mul_, tmap, with_data. cbn. f_equal.
  rewrite zip_with_pair_diag, zip_with_fmap_l. apply zip_with_ext; trivial.
  intros v x. cbn. now rewrite (fmul_comm v).
Qed.

(** The scalars of the step sizer, from the step count [t] stored at
    precision [d]. *)
Lemma step_size_scalar g ts t :
  t_data ts = [t] ->
  scalar_of (step_size g ts)
  = cast (t_dtype ts)
      (fdiv (lr g)
         (cast (t_dtype ts) (fsub f1 (cast (t_dtype ts) (fpow (beta1 g) t))))).
Proof.
  intros E. unfold scalar_of, step_size, bias_correction1, t_rdiv, t_rsub, t_rpow, tmap.
  cbn. now rewrite E.
Qed.

Lemma denom_correction_scalar g ts t :
  t_data ts = [t] ->
  scalar_of (denom_correction g ts)
  = cast (t_dtype ts)
      (fsqrt (cast (t_dtype ts) (fsub f1 (cast (t_dtype ts) (fpow (beta2 g) t))))).
Proof.
  intros E. unfold scalar_of, denom_correction, t_pow, t_rsub, t_rpow, tmap.
  cbn. rewrite E. cbn. now rewrite fpow_half.
Qed.

Lemma cvar_data g tv ts t :
  t_data ts = [t] ->
  cvar g tv ts
  = with_data tv
      ((fun v => cast (t_dtype tv)
          (fadd (cast (t_dtype tv)
                   (fdiv (cast (t_dtype tv) (fsqrt v))
                      (cast (t_dtype ts)
                         (fsqrt (cast (t_dtype ts)
                            (fsub f1 (cast (t_dtype ts) (fpow (beta2 g) t))))))))
                (eps g))) <$> t_data tv).
Proof.
  intros E. unfold cvar. rewrite (denom_correction_scalar g ts t E).
  unfold t_add_scalar_, t_sqrt, tmap, with_data. cbn. f_equal.
  rewrite <- !list_fmap_compose. apply list_fmap_ext. intros v. cbn.
  now rewrite fmul_1_l.
Qed.

Lemma new_step_data ts t :
  t_data ts = [t] -> t_data (new_step ts) = [cast (t_dtype ts) (fadd t f1)].
Proof. intros E. unfold new_step, t_iadd, tmap. cbn. now rewrite E. Qed.

(** The parameter after the update, whichever branch applies it. *)
Lemma update_param_result g w p gl tp tg ps :
  dense_grad w p gl tp tg ->
  holds g tp (get_or_create g tp (state w !! p)) ps ->
  exists w',
    update_param g p w = (w', Ok tt) /\
    heap w' !! p = Some (post_param g tp tg ps) /\
    state w' !! p
    = Some (post_state g tp tg ps (get_or_create g tp (state w !! p))).
Proof.
  intros Hd Hh. eexists. split; [apply (update_param_run g w p gl tp tg ps Hd Hh)|].
  cbn [heap state]. now rewrite !lookup_insert_eq.
Qed.

(** C1. With compensation enabled, the apply phase of an update is the
    four steps of the Kahan scheme, in this order: (1) the compensation
    buffer is decremented, element by element, by stepSize * momentum /
    centeredVariance; (2) the parameter is copied; (3) the compensation is
    added to the parameter; (4) the copy minus the new parameter is added
    to the compensation.  Each write rounds to the precision of the tensor
    written. *)
Theorem kahan_four_steps g w p gl tp tg ps :
  use_kahan_summation g = true ->
  dense_grad w p gl tp tg ->
  holds g tp (get_or_create g tp (state w !! p)) ps ->
  let ts' := new_step (ps_step ps) in
  let stepSize := scalar_of (step_size g ts') in
  let momentum := t_data (new_momentum g (ps_m ps) tg) in
  let centeredVariance := t_data (cvar g (new_variance g (ps_v ps) tg) ts') in
  let parameter := t_data (decayed g tp) in
  let rc := cast (t_dtype (ps_c ps)) in
  let rp := cast (t_dtype tp) in
  let c1 := zip_with (fun c mv => rc (fsub c (fdiv (fmul stepSize mv.1) mv.2)))
                     (t_data (ps_c ps)) (zip momentum centeredVariance) in
  let snapshot := parameter in
  let p1 := zip_with (fun x c => rp (fadd x c)) parameter c1 in
  let c2 := zip_with (fun c d => rc (fadd c d)) c1
                     (zip_with (fun a b => rp (fsub a b)) snapshot p1) in
  exists w' st',
    update_param g p w = (w', Ok tt) /\
    heap w' !! p = Some (with_data tp p1) /\
    state w' !! p = Some st' /\
    st' !! "compensation" = Some (with_data (ps_c ps) c2).
Proof.
  intros Hk Hd Hh ts' stepSize momentum centeredVariance parameter rc rp c1 snapshot p1 c2.
  destruct (update_param_result g w p gl tp tg ps Hd Hh) as (w' & Hrun & Hp & Hs).
  assert (E1 : t_data (kahan_accumulate (neg_step_size g ts') (ps_c ps)
                         (new_momentum g (ps_m ps) tg)
                         (cvar g (new_variance g (ps_v ps) tg) ts')) = c1).
  { unfold kahan_accumulate, zip3T, neg_step_size. cbn. apply zip_with_ext; trivial.
    intros c [m v]. cbn. now rewrite fadd_neg_sub. }
  assert (E2 : post_param g tp tg ps = with_data tp p1).
  { unfold post_param. rewrite Hk. fold ts'. unfold kahan_param, zipT.
    rewrite with_data_decayed, decayed_dtype. now rewrite E1. }
  exists w', (post_state g tp tg ps (get_or_create g tp (state w !! p))).
  split; [exact Hrun|]. split; [now rewrite Hp, E2|]. split; [exact Hs|].
  unfold post_state. rewrite Hk. rewrite lookup_insert_eq. f_equal.
  unfold post_compensation. fold ts'.
  unfold kahan_recover, kahan_lost, kahan_param, zipT.
  cbn [t_data with_data t_dtype t_layout].
  rewrite !E1, !decayed_dtype. reflexivity.
Qed.

(** C3. After the step counter was incremented to [t], the scalar step
    size is learningRate / (1 - beta1^t) and the centered variance is,
    element by element, sqrt(uncenteredVariance) / sqrt(1 - beta2^t) with
    the scalar epsilon added after the normalization; the apply phase
    works with exactly these.  Scalars round to the precision of the step
    tensor, the centered variance to the precision of the variance. *)
Theorem step_sizer_formulas g w p gl tp tg ps t :
  dense_grad w p gl tp tg ->
  holds g tp (get_or_create g tp (state w !! p)) ps ->
  t_data (new_step (ps_step ps)) = [t] ->
  let r := cast (t_dtype (ps_step ps)) in
  let rv := cast (t_dtype (ps_v ps)) in
  let uncenteredVariance := new_variance g (ps_v ps) tg in
  let stepSize := r (fdiv (lr g) (r (fsub f1 (r (fpow (beta1 g) t))))) in
  let denomCorrection := r (fsqrt (r (fsub f1 (r (fpow (beta2 g) t))))) in
  let centeredVariance :=
    with_data uncenteredVariance
      ((fun v => rv (fadd (rv (fdiv (rv (fsqrt v)) denomCorrection)) (eps g)))
         <$> t_data uncenteredVariance) in
  scalar_of (step_size g (new_step (ps_step ps))) = stepSize /\
  cvar g uncenteredVariance (new_step (ps_step ps)) = centeredVariance /\
  exists w',
    update_param g p w = (w', Ok tt) /\
    heap w' !! p
    = Some (if use_kahan_summation g
            then kahan_param (decayed g tp)
                   (kahan_accumulate (fneg stepSize) (ps_c ps)
                      (new_momentum g (ps_m ps) tg) centeredVariance)
            else direct_param (fneg stepSize) (decayed g tp)
                   (new_momentum g (ps_m ps) tg) centeredVariance).
Proof.
  intros Hd Hh Et r rv uncenteredVariance stepSize denomCorrection centeredVariance.
  assert (E1 : scalar_of (step_size g (new_step (ps_step ps))) = stepSize).
  { rewrite (step_size_scalar g _ t Et). reflexivity. }
  assert (E2 : cvar g uncenteredVariance (new_step (ps_step ps)) = centeredVariance).
  { rewrite (cvar_data g _ _ t Et). reflexivity. }
  split; [exact E1|]. split; [exact E2|].
  destruct (update_param_result g w p gl tp tg ps Hd Hh) as (w' & Hrun & Hp & _).
  exists w'. split; [exact Hrun|]. rewrite Hp. f_equal.
  unfold post_param, neg_step_size. fold uncenteredVariance.
  now rewrite E1, E2.
Qed.

(** C4. An update with a gradient rewrites the moment buffers in place,
    element by element, momentum <- beta1 * momentum + (1 - beta1) *
    gradient and uncenteredVariance <- beta2 * uncenteredVariance + (1 -
    beta2) * gradient * gradient, and the step sizer and the apply phase
    read the rewritten buffers. *)
Theorem moment_update g w p gl tp tg ps :
  dense_grad w p gl tp tg ->
  holds g tp (get_or_create g tp (state w !! p)) ps ->
  let rm := cast (t_dtype (ps_m ps)) in
  let rv := cast (t_dtype (ps_v ps)) in
  let momentum :=
    with_data (ps_m ps)
      (zip_with (fun m x => rm (fadd (rm (fmul (beta1 g) m))
                                     (fmul (fsub f1 (beta1 g)) x)))
                (t_data (ps_m ps)) (t_data tg)) in
  let uncenteredVariance :=
    with_data (ps_v ps)
      (zip_with (fun v x => rv (fadd (rv (fmul (beta2 g) v))
                                     (fmul (fmul (fsub f1 (beta2 g)) x) x)))
                (t_data (ps_v ps)) (t_data tg)) in
  let ts' := new_step (ps_step ps) in
  let centeredVariance := cvar g uncenteredVariance ts' in
  exists w' st',
    update_param g p w = (w', Ok tt) /\
    state w' !! p = Some st' /\
    st' !! "exp_avg" = Some momentum /\
    st' !! "exp_avg_sq" = Some uncenteredVariance /\
    heap w' !! p
    = Some (if use_kahan_summation g
            then kahan_param (decayed g tp)
                   (kahan_accumulate (neg_step_size g ts') (ps_c ps)
                      momentum centeredVariance)
            else direct_param (neg_step_size g ts') (decayed g tp)
                   momentum centeredVariance).
Proof.
  intros Hd Hh rm rv momentum uncenteredVariance ts' centeredVariance.
  destruct (update_param_result g w p gl tp tg ps Hd Hh) as (w' & Hrun & Hp & Hs).
  exists w', (post_state g tp tg ps (get_or_create g tp (state w !! p))).
  assert (Em : new_momentum g (ps_m ps) tg = momentum) by apply new_momentum_data.
  assert (Ev : new_variance g (ps_v ps) tg = uncenteredVariance)
    by apply new_variance_data.
  split; [exact Hrun|]. split; [exact Hs|].
  unfold post_state. rewrite Em, Ev.
  split; [destruct (use_kahan_summation g); slot|].
  split; [destruct (use_kahan_summation g); slot|].
  rewrite Hp. unfold post_param. now rewrite Em, Ev.
Qed.

(** C7. With a gradient present, whatever its values, a non-zero weight
    decay multiplies the parameter, element by element, by 1 -
    learningRate * weightDecay, and the gradient-based apply starts from
    the product; with weightDecay = 0 the multiplication is skipped and
    the apply starts from the parameter as it was. *)
Theorem weight_decay_first (T : TruthLaws A) g w p gl tp tg ps :
  dense_grad w p gl tp tg ->
  holds g tp (get_or_create g tp (state w !! p)) ps ->
  let shrunk :=
    with_data tp
      ((fun x => cast (t_dtype tp)
                   (fmul x (fsub f1 (fmul (lr g) (weight_decay g)))))
         <$> t_data tp) in
  let ts' := new_step (ps_step ps) in
  let momentum := new_momentum g (ps_m ps) tg in
  let centeredVariance := cvar g (new_variance g (ps_v ps) tg) ts' in
  let applied start :=
    if use_kahan_summation g
    then kahan_param start
           (kahan_accumulate (neg_step_size g ts') (ps_c ps)
              momentum centeredVariance)
    else direct_param (neg_step_size g ts') start momentum centeredVariance in
  exists w',
    update_param g p w = (w', Ok tt) /\
    (~ is_zero (weight_decay g) -> heap w' !! p = Some (applied shrunk)) /\
    (is_zero (weight_decay g) -> heap w' !! p = Some (applied tp)).
Proof.
  intros Hd Hh shrunk ts' momentum centeredVariance applied.
  destruct (update_param_result g w p gl tp tg ps Hd Hh) as (w' & Hrun & Hp & _).
  exists w'. split; [exact Hrun|]. rewrite Hp. unfold post_param, decayed.
  split; intros Hz.
  - apply truthy_nonzero in Hz. rewrite Hz. reflexivity.
  - destruct (truthy (weight_decay g)) eqn:E; [|reflexivity].
    apply truthy_nonzero in E. contradiction.
Qed.

End Claims.

(** ** State creation, failure and frame *)

Section Lifecycle.
Context {A : Arith}.

Lemma call_state_frame cfg q o w p :
  q <> p -> state (call cfg (q, o) w).1 !! p = state w !! p.
Proof.
  intros Hne. unfold call. cbn [fst snd].
  destruct (confined_update_param (fun l => l = q) (cfg q) q eq_refl (set_grad q o w))
    as (_ & _ & Hs).
  rewrite Hs by congruence. now destruct o.
Qed.

Lemma call_sparse cfg p t w :
  is_sparse t = true ->
  call cfg (p, Some t) w
  = (set_grad p (Some t) w, Raise (RuntimeError "BFF does not support sparse gradients")).
Proof.
  intros Hs. unfold call. cbn [fst snd].
  apply (update_param_sparse _ _ _ (fresh (dom (heap w))) t); cbn; trivial;
    apply lookup_insert_eq.
Qed.

Lemma run_no_state cfg p evs : forall w,
  state w !! p = None ->
  (forall t, (p, Some t) ∈ evs -> is_sparse t = true) ->
  state (run cfg evs w).1 !! p = None.
Proof.
  induction evs as [|[q o] evs IH]; intros w Hw Hev; [exact Hw|].
  unfold run. cbn [for_each]. unfold mbind, M_bind.
  assert (H1 : state (call cfg (q, o) w).1 !! p = None).
  { destruct (decide (q = p)) as [->|Hne].
    - destruct o as [t|].
      + rewrite (call_sparse cfg p t w) by (apply Hev; left). exact Hw.
      + rewrite call_absent. exact Hw.
    - now rewrite call_state_frame. }
  destruct (call cfg (q, o) w) as [w1 [[]|e]]; cbn [fst] in *; [|exact H1].
  apply IH; [exact H1|]. intros t Ht. apply Hev. now right.
Qed.

(** C8. The first update of a parameter with a gradient creates its
    state: a step tensor holding 0, momentum and variance buffers of
    zeros in the parameter's shape at their configured precisions, and a
    compensation buffer of zeros exactly when compensation is enabled; the
    update then runs from that state.  A parameter whose calls all came
    without a gradient (or with a sparse one, which raises) has no
    state. *)
Theorem first_update_creates_state g w p gl tp tg :
  dense_grad w p gl tp tg ->
  state w !! p = None ->
  let zeros d := Tensor d (t_layout tp) (replicate (length (t_data tp)) f0) in
  let created := created_state g tp in
  created !! "step" = Some (Tensor Float32 Strided [f0]) /\
  created !! "exp_avg" = Some (zeros (momentum_dtype g)) /\
  created !! "exp_avg_sq" = Some (zeros (variance_dtype g)) /\
  created !! "compensation"
  = (if use_kahan_summation g then Some (zeros (compensation_buffer_dtype g))
     else None) /\
  (exists w',
     update_param g p w = (w', Ok tt) /\
     state w' !! p
     = Some (post_state g tp tg
               (PState (Tensor Float32 Strided [f0])
                       (zeros (momentum_dtype g)) (zeros (variance_dtype g))
                       (zeros (compensation_buffer_dtype g)))
               created)) /\
  (forall cfg evs w0,
     state w0 !! p = None ->
     (forall t, (p, Some t) ∈ evs -> is_sparse t = true) ->
     state (run cfg evs w0).1 !! p = None).
Proof.
  intros Hd Hnone zeros created.
  assert (Ez : forall d, zeros_like tp d = zeros d).
  { intros d. unfold zeros_like, zeros. f_equal. apply const_fmap. now intros x. }
  unfold created, created_state. rewrite !Ez.
  split; [destruct (use_kahan_summation g); slot|].
  split; [destruct (use_kahan_summation g); slot|].
  split; [destruct (use_kahan_summation g); slot|].
  split; [destruct (use_kahan_summation g); slot|].
  split.
  - assert (Hh : holds g tp (get_or_create g tp (state w !! p)) (created_pstate g tp)).
    { rewrite Hnone. apply holds_created. }
    eexists. split; [apply (update_param_run g w p gl tp tg _ Hd Hh)|].
    cbn [state]. rewrite lookup_insert_eq, Hnone. cbn [get_or_create].
    unfold created_pstate, created_state. now rewrite !Ez.
  - intros cfg evs w0. apply run_no_state.
Qed.

(** C6. A sparse gradient makes the update of its parameter raise
    before anything is written: the world is left as it was.  A whole
    [step] over groups that contain the parameter raises as well, with
    the parameter's tensor and its state entry as they were before the
    call. *)
Theorem sparse_gradient_raises g w p gl tg :
  grad_of w !! p = Some gl ->
  heap w !! gl = Some tg ->
  is_sparse tg = true ->
  update_param g p w
  = (w, Raise (RuntimeError "BFF does not support sparse gradients")) /\
  forall param_groups,
    g ∈ param_groups -> p ∈ params g ->
    (forall g', g' ∈ param_groups -> gl ∉ params g') ->
    exists e w',
      step None param_groups w = (w', Raise e) /\
      heap w' !! p = heap w !! p /\
      state w' !! p = state w !! p.
Proof.
  intros Hgr Hg Hs. split; [now apply (update_param_sparse g w p gl tg)|].
  intros param_groups Hin Hp Hgl.
  set (J := fun w' : world =>
              grad_of w' !! p = Some gl /\ heap w' !! gl = Some tg /\
              heap w' !! p = heap w !! p /\ state w' !! p = state w !! p).
  assert (Hbody : forall g' q w1, J w1 -> q <> gl ->
            J (update_param g' q w1).1 /\
            (q = p -> exists e, (update_param g' q w1).2 = Raise e)).
  { intros g' q w1 (J1 & J2 & J3 & J4) Hq.
    destruct (decide (q = p)) as [->|Hne].
    - rewrite (update_param_sparse g' w1 p gl tg J1 J2 Hs). cbn.
      split; [now repeat split | eauto].
    - destruct (confined_update_param (fun l => l = q) g' q eq_refl w1)
        as (G & H & S).
      split; [|congruence]. repeat split.
      + now rewrite G.
      + rewrite H by congruence. exact J2.
      + rewrite H by congruence. exact J3.
      + rewrite S by congruence. exact J4. }
  assert (Hparams : forall g' l w1, J w1 -> gl ∉ l ->
            J (for_each l (update_param g') w1).1 /\
            (p ∈ l -> exists e, (for_each l (update_param g') w1).2 = Raise e)).
  { intros g' l. induction l as [|q l IH]; intros w1 HJ Hnot.
    - split; [exact HJ|]. intros H. now apply elem_of_nil in H.
    - cbn [for_each]. unfold mbind, M_bind.
      assert (Hq : q <> gl) by (intros ->; apply Hnot; left).
      destruct (Hbody g' q w1 HJ Hq) as [HJ1 Hr].
      destruct (update_param g' q w1) as [w2 [[]|e]]; cbn [fst snd] in *.
      + assert (Hnot' : gl ∉ l) by (intros H; apply Hnot; now right).
        destruct (IH w2 HJ1 Hnot') as [HJ2 Hr2]. split; [exact HJ2|].
        intros H. apply elem_of_cons in H as [->|H]; [|now apply Hr2].
        destruct (Hr eq_refl) as [e He]. discriminate.
      + split; [exact HJ1 | eauto]. }
  assert (Hgroups : forall gs w1, J w1 -> (forall g', g' ∈ gs -> gl ∉ params g') ->
            let r := for_each gs (fun g' => for_each (params g') (update_param g')) w1 in
            J r.1 /\ (g ∈ gs -> exists e, r.2 = Raise e)).
  { induction gs as [|g0 gs IH]; intros w1 HJ Hnot; cbn zeta.
    - split; [exact HJ|]. intros H. now apply elem_of_nil in H.
    - cbn [for_each]. unfold mbind, M_bind.
      destruct (Hparams g0 (params g0) w1 HJ (Hnot g0 ltac:(left))) as [HJ1 Hr].
      destruct (for_each (params g0) (update_param g0) w1) as [w2 [[]|e]];
        cbn [fst snd] in *.
      + destruct (IH w2 HJ1) as [HJ2 Hr2].
        { intros g' Hg'. apply Hnot. now right. }
        split; [exact HJ2|].
        intros H. apply elem_of_cons in H as [->|H]; [|now apply Hr2].
        destruct (Hr Hp) as [e He]. discriminate.
      + split; [exact HJ1 | eauto]. }
  assert (HJ : J w) by (now repeat split).
  destruct (Hgroups param_groups w HJ Hgl) as [(_ & _ & J3 & J4) Hr].
  destruct (Hr Hin) as [e He].
  unfold step. unfold mbind at 1, M_bind at 1. cbn [mret M_ret].
  destruct (for_each param_groups _ w) as [w' o]; cbn [fst snd] in *. subst o.
  exists e, w'. now repeat split.
Qed.

(** C10. An update call reads gradients and never writes them: a
    gradient array that is not itself one of the optimizer's parameters
    is the same object with the same elements after [step], every
    [.grad] attribute is unchanged, and what does change is confined to
    the tensors and state entries of the parameters walked over (the
    snapshot of the compensated apply is a fresh copy).  For a single
    parameter the update writes at most that parameter's tensor and state
    entry. *)
Theorem gradients_untouched param_groups w p gl :
  grad_of w !! p = Some gl ->
  (forall g, g ∈ param_groups -> gl ∉ params g) ->
  let w' := (step None param_groups w).1 in
  grad_of w' !! p = Some gl /\
  heap w' !! gl = heap w !! gl /\
  unchanged_outside (fun l => exists g, g ∈ param_groups /\ l ∈ params g) w w' /\
  forall g q, unchanged_outside (fun l => l = q) w (update_param g q w).1.
Proof.
  intros Hgr Hnot w'.
  pose proof (confined_step param_groups w) as Hc. fold w' in Hc.
  destruct Hc as (G & H & S). repeat split; trivial.
  - now rewrite G.
  - apply H. intros (g & Hg & Hin). exact (Hnot g Hg Hin).
  - apply (confined_update_param (fun l => l = q) g q eq_refl w).
  - apply (confined_update_param (fun l => l = q) g q eq_refl w).
  - apply (confined_update_param (fun l => l = q) g q eq_refl w).
Qed.

End Lifecycle.

(** ** Exact arithmetic *)

Module ExactFacts.
Import Exact.
Local Open Scope R_scope.
#[local] Existing Instance RArith.

Lemma Rtruthy_spec x : Rtruthy x = true <-> x <> 0.
Proof. unfold Rtruthy. destruct (Req_dec_T x 0); split; intros; congruence. Qed.

Lemma half_not_integer z : / 2 <> IZR z.
Proof.
  intros E. assert (H : IZR (2 * z) = IZR 1) by (rewrite mult_IZR, <- E; lra).
  apply eq_IZR in H. lia.
Qed.

Lemma Rpow_half x : Rpow x (/ 2) = sqrt x.
Proof.
  unfold Rpow. destruct (Rlt_dec 0 x) as [Hx|Hx].
  - now apply Rpower_sqrt.
  - destruct (Req_dec_T x 0) as [->|Hx0].
    + destruct (Req_dec_T (/ 2) 0) as [E|_]; [lra|]. now rewrite sqrt_0.
    + destruct (Req_dec_T (/ 2) (IZR (Int_part (/ 2)))) as [E|_].
      * now apply half_not_integer in E.
      * symmetry. apply sqrt_neg_0. lra.
Qed.

Lemma Rpow_pos_1 x : 0 < x -> Rpow x 1 = x.
Proof.
  intros Hx. unfold Rpow. destruct (Rlt_dec 0 x); [|contradiction].
  now apply Rpower_1.
Qed.

Lemma RArith_laws : ArithLaws RArith.
Proof.
  split; cbn.
  - intros x y. ring.
  - intros x. ring.
  - intros a s m v. unfold Rdiv. ring.
  - apply Rpow_half.
Qed.

Lemma RArith_truth : TruthLaws RArith.
Proof.
  split. intros x. cbn. rewrite Rtruthy_spec. unfold is_zero. cbn. split.
  - intros H [E|E]; apply H; lra.
  - intros H E. apply H. now left.
Qed.

Lemma sqrt_between a b x : 0 <= a -> 0 <= b -> a * a < x -> x < b * b -> a < sqrt x < b.
Proof.
  intros Ha Hb H1 H2. split.
  - rewrite <- (sqrt_square a Ha). apply sqrt_lt_1_alt. split; [nra | exact H1].
  - rewrite <- (sqrt_square b Hb). apply sqrt_lt_1_alt. split; [nra | exact H2].
Qed.

Lemma dc_value : Rabs (sqrt (1 - 0.999) - 0.0316228) < 1e-7.
Proof.
  destruct (sqrt_between 0.0316227 0.0316229 (1 - 0.999)) as [H1 H2]; try lra.
  apply Rabs_def1; lra.
Qed.

Lemma sqrt_4 : sqrt 4 = 2.
Proof. replace 4 with (2 * 2) by lra. apply sqrt_square. lra. Qed.

Lemma scenario_step : new_step tensor_0 = Tensor Float32 Strided [1].
Proof. unfold new_step, t_iadd, tmap, tensor_0. cbn. do 2 f_equal. lra. Qed.

Lemma scenario_momentum :
  new_momentum scenario_group (zeros_like scenario_param Float32) scenario_grad
  = Tensor Float32 Strided [0.2].
Proof. unfold new_momentum, zipT, t_mul_, tmap. cbn. do 2 f_equal. lra. Qed.

Lemma scenario_variance :
  new_variance scenario_group (zeros_like scenario_param Float32) scenario_grad
  = Tensor Float32 Strided [0.004].
Proof. unfold new_variance, zip3T, t_mul_, tmap. cbn. do 2 f_equal. lra. Qed.

Lemma scenario_bias_correction1 :
  bias_correction1 scenario_group (Tensor Float32 Strided [1])
  = Tensor Float32 Strided [0.1].
Proof.
  unfold bias_correction1, t_rsub, t_rpow, tmap. cbn. do 2 f_equal.
  rewrite Rpow_pos_1 by lra. lra.
Qed.

Lemma scenario_step_size :
  step_size scenario_group (Tensor Float32 Strided [1]) = Tensor Float32 Strided [1].
Proof.
  unfold step_size. rewrite scenario_bias_correction1.
  unfold t_rdiv, tmap. cbn. do 2 f_equal. lra.
Qed.

Lemma scenario_denom_correction :
  denom_correction scenario_group (Tensor Float32 Strided [1])
  = Tensor Float32 Strided [sqrt (1 - 0.999)].
Proof.
  unfold denom_correction, t_pow, t_rsub, t_rpow, tmap. cbn. do 2 f_equal.
  rewrite Rpow_pos_1 by lra. apply Rpow_half.
Qed.

Lemma scenario_cvar :
  cvar scenario_group (Tensor Float32 Strided [0.004]) (Tensor Float32 Strided [1])
  = Tensor Float32 Strided [2.00000001].
Proof.
  unfold cvar. rewrite scenario_denom_correction.
  unfold t_add_scalar_, t_sqrt, tmap, scalar_of. simpl. do 2 f_equal.
  replace (sqrt 0.004 / sqrt (1 - 0.999)) with 2; [lra|].
  rewrite <- sqrt_div_alt by lra.
  replace (0.004 / (1 - 0.999)) with 4 by lra. now rewrite sqrt_4.
Qed.

(** C2. The concrete scenario in exact arithmetic: one update of the
    scalar parameter 1.0 with gradient 2.0 leaves step = 1, momentum = 0.2,
    uncenteredVariance = 0.004; the step sizer computes biasCorrection1 =
    0.1, stepSize = 1, denomCorrection = sqrt 0.001 (within 1e-7 of
    0.0316228) and centeredVariance = 2.00000001; the parameter ends within
    1e-8 of 0.9. *)
Theorem concrete_scenario :
  exists w' st' x dc,
    update_param scenario_group 1%positive scenario_world = (w', Ok tt) /\
    state w' !! 1%positive = Some st' /\
    st' !! "step" = Some (Tensor Float32 Strided [1]) /\
    st' !! "exp_avg" = Some (Tensor Float32 Strided [0.2]) /\
    st' !! "exp_avg_sq" = Some (Tensor Float32 Strided [0.004]) /\
    bias_correction1 scenario_group (Tensor Float32 Strided [1])
    = Tensor Float32 Strided [0.1] /\
    step_size scenario_group (Tensor Float32 Strided [1])
    = Tensor Float32 Strided [1] /\
    denom_correction scenario_group (Tensor Float32 Strided [1])
    = Tensor Float32 Strided [dc] /\
    Rabs (dc - 0.0316228) < 1e-7 /\
    cvar scenario_group (Tensor Float32 Strided [0.004]) (Tensor Float32 Strided [1])
    = Tensor Float32 Strided [2.00000001] /\
    heap w' !! 1%positive = Some (Tensor Float32 Strided [x]) /\
    Rabs (x - 0.9) < 1e-8.
Proof.
  destruct (update_param_result scenario_group scenario_world 1%positive 2%positive
              scenario_param scenario_grad (created_pstate scenario_group scenario_param))
    as (w' & Hrun & Hp & Hs).
  { now apply example_world_dense. }
  { apply example_world_holds. }
  eexists w', _, (1 + - 1 * 0.2 / 2.00000001), (sqrt (1 - 0.999)).
  split; [exact Hrun|]. split; [exact Hs|].
  unfold post_state. cbn [use_kahan_summation scenario_group ps_step ps_m ps_v created_pstate momentum_dtype variance_dtype].
  rewrite scenario_step, scenario_momentum, scenario_variance.
  split; [slot|]. split; [slot|]. split; [slot|].
  split; [apply scenario_bias_correction1|].
  split; [apply scenario_step_size|].
  split; [apply scenario_denom_correction|].
  split; [apply dc_value|].
  split; [apply scenario_cvar|].
  split.
  - refine (eq_trans Hp _). f_equal. unfold post_param.
    cbn [use_kahan_summation scenario_group ps_step ps_m ps_v created_pstate momentum_dtype variance_dtype].
    rewrite scenario_step, scenario_momentum, scenario_variance, scenario_cvar.
    unfold neg_step_size. rewrite scenario_step_size.
    unfold direct_param, zip3T, decayed, scalar_of. cbn.
    unfold Rtruthy. destruct (Req_dec_T 0 0) as [_|N]; [|congruence].
    cbn. reflexivity.
  - apply Rabs_def1; lra.
Qed.

Lemma holds_no_kahan (g : group) tp st ps :
  holds g tp st ps -> holds (no_kahan g) tp st ps.
Proof.
  intros [Hs H0 Hm Hv Hc Lm Lv Lc]. split; trivial; cbn; discriminate.
Qed.

Lemma recovered_is_zero (P C : list R) :
  Forall (fun x => x = 0)
    (zip_with (fun c d => c + d) C
       (zip_with (fun a b => a - b) P (zip_with (fun x c => x + c) P C))).
Proof.
  revert C. induction P as [|x P IH]; intros [|c C]; cbn; try constructor.
  - lra.
  - apply IH.
Qed.

Lemma post_compensation_zero (g : group) tp tg ps :
  Forall (fun x => x = 0) (t_data (post_compensation g tp tg ps)).
Proof. unfold post_compensation. apply recovered_is_zero. Qed.

Lemma accumulate_from_zero (f : R * R -> R) (P C0 : list R) (Z : list (R * R)) :
  Forall (fun x => x = 0) C0 -> length C0 = length P ->
  zip_with (fun x c => x + c) P (zip_with (fun c yz => c + f yz) C0 Z)
  = zip_with (fun x yz => x + f yz) P Z.
Proof.
  revert C0 Z. induction P as [|x P IH]; intros [|c C0] [|z Z] Hz Hl;
    cbn in *; try discriminate; trivial.
  apply Forall_cons in Hz as [-> Hz]. f_equal; [lra|]. apply IH; [exact Hz | lia].
Qed.

Lemma kahan_equals_direct (g : group) tp tg ps :
  Forall (fun x => x = 0) (t_data (ps_c ps)) ->
  length (t_data (ps_c ps)) = length (t_data tp) ->
  use_kahan_summation g = true ->
  post_param g tp tg ps = post_param (no_kahan g) tp tg ps.
Proof.
  intros Hz Hl Hk. unfold post_param. rewrite Hk. cbn [use_kahan_summation no_kahan].
  unfold kahan_param, kahan_accumulate, direct_param, zipT, zip3T.
  cbn [t_data with_data t_dtype t_layout].
  change (decayed (no_kahan g) tp) with (decayed g tp).
  f_equal.
  rewrite <- (decayed_length g tp) in Hl.
  exact (accumulate_from_zero
           (fun yz => neg_step_size g (new_step (ps_step ps)) * yz.1 / yz.2)
           _ _ _ Hz Hl).
Qed.

Lemma zeros_like_zero (tp : tensor) d :
  Forall (fun x => x = 0) (t_data (zeros_like tp d)).
Proof. unfold zeros_like. cbn. apply Forall_fmap. now apply Forall_true. Qed.

(** The state a call with a gradient starts from has a compensation buffer
    of zeros. *)
Lemma stored_compensation_zero cfg w p tp ps :
  comp_zero w ->
  use_kahan_summation (cfg p) = true ->
  holds (cfg p) tp (get_or_create (cfg p) tp (state w !! p)) ps ->
  match state w !! p with
  | Some st => get_or_create (cfg p) tp (state w !! p) = st
  | None => ps = created_pstate (cfg p) tp
  end ->
  Forall (fun x => x = 0) (t_data (ps_c ps)).
Proof.
  intros Hz Hk Hh Hm. destruct (state w !! p) as [st|] eqn:Hst.
  - rewrite Hm in Hh. apply (Hz p st (ps_c ps) Hst). now apply (h_c _ _ _ _ Hh).
  - subst ps. apply zeros_like_zero.
Qed.

Lemma call_keeps_invariants cfg w ev w' :
  state_ok cfg w -> comp_zero w -> event_ok w ev ->
  call cfg ev w = (w', Ok tt) ->
  state_ok cfg w' /\ comp_zero w'.
Proof.
  intros Hok Hz Hev Hcall. destruct ev as [p [t|]].
  - destruct (call_present cfg w p t Hok Hev) as (w1 & Hrun & Hok1 & _).
    assert (w1 = w') by congruence. subst w1. split; [exact Hok1|].
    destruct Hev as (tp & Hp & Ht). cbn [fst snd] in *.
    destruct (Ht t eq_refl) as [Hd Lg].
    destruct (stored_pstate cfg w p tp Hok Hp) as (ps & Hh & Hm).
    pose proof (update_param_run (cfg p) _ p _ tp t ps
                  (set_grad_dense w p t tp Hp Hd Lg) Hh) as Hrun'.
    unfold call in Hcall. cbn [fst snd] in Hcall. rewrite Hrun' in Hcall.
    injection Hcall as <-. intros q st tc Hq Hc. cbn [state set_grad] in Hq.
    destruct (decide (q = p)) as [->|Hne].
    + rewrite lookup_insert_eq in Hq. injection Hq as <-.
      unfold post_state in Hc. destruct (use_kahan_summation (cfg p)) eqn:Hk.
      * rewrite lookup_insert_eq in Hc. injection Hc as <-.
        apply post_compensation_zero.
      * rewrite !lookup_insert_ne in Hc by discriminate.
        destruct (state w !! p) as [st|] eqn:Hst.
        -- rewrite Hm in Hc. exact (Hz p st tc Hst Hc).
        -- cbn [get_or_create] in Hc. unfold created_state in Hc. rewrite Hk in Hc.
           rewrite !lookup_insert_ne in Hc by discriminate.
           now rewrite lookup_empty in Hc.
    + rewrite lookup_insert_ne in Hq by congruence. exact (Hz q st tc Hq Hc).
  - rewrite call_absent in Hcall. injection Hcall as <-. split; assumption.
Qed.

Lemma reachable_invariants cfg w :
  reachable cfg w -> state_ok cfg w /\ comp_zero w.
Proof.
  induction 1 as [w Hinit | w ev w' Hr [Hok Hz] Hev Hcall].
  - split.
    + intros p st Hst. rewrite Hinit in Hst. now rewrite lookup_empty in Hst.
    + intros p st tc Hst. rewrite Hinit in Hst. now rewrite lookup_empty in Hst.
  - now apply (call_keeps_invariants cfg w ev w').
Qed.

Lemma created_state_no_kahan (g : group) tp key :
  key <> "compensation" ->
  created_state (no_kahan g) tp !! key = created_state g tp !! key.
Proof.
  intros Hk. unfold created_state. cbn [use_kahan_summation no_kahan].
  destruct (use_kahan_summation g); [|reflexivity].
  now rewrite (lookup_insert_ne _ "compensation").
Qed.

Lemma holds_without_kahan (g : group) tp o ps :
  holds g tp (get_or_create g tp o) ps ->
  holds (no_kahan g) tp (get_or_create (no_kahan g) tp o) ps.
Proof.
  intros Hh.
  assert (Hc : holds g tp (created_state g tp) ps ->
               holds (no_kahan g) tp (created_state (no_kahan g) tp) ps).
  { intros [Hs H0 Hm Hv Hc Lm Lv Lc]. split; trivial; try (cbn; discriminate).
    - now rewrite created_state_no_kahan.
    - now rewrite created_state_no_kahan.
    - now rewrite created_state_no_kahan. }
  destruct o as [st|]; cbn [get_or_create] in *; [|now apply Hc].
  destruct (decide (size st = 0%nat)); [now apply Hc | now apply holds_no_kahan].
Qed.

(** C9, as amended.  In exact arithmetic, an update with compensation
    that starts from a compensation buffer of zeros leaves the parameter
    exactly where the update without compensation leaves it from the same
    state, and whatever the buffer held before, it holds zeros after the
    update. *)
Theorem compensation_is_exact_noop (g : group) w p gl tp tg ps :
  use_kahan_summation g = true ->
  dense_grad w p gl tp tg ->
  holds g tp (get_or_create g tp (state w !! p)) ps ->
  exists wk wd st tc,
    update_param g p w = (wk, Ok tt) /\
    update_param (no_kahan g) p w = (wd, Ok tt) /\
    state wk !! p = Some st /\
    st !! "compensation" = Some tc /\
    Forall (fun x => x = 0) (t_data tc) /\
    (Forall (fun x => x = 0) (t_data (ps_c ps)) -> heap wk = heap wd).
Proof.
  intros Hk Hdg Hh.
  pose proof (holds_without_kahan g tp _ ps Hh) as Hh'.
  pose proof (update_param_run g w p gl tp tg ps Hdg Hh) as Hk_run.
  pose proof (update_param_run (no_kahan g) w p gl tp tg ps Hdg Hh') as Hd_run.
  eexists _, _, _, _.
  split; [exact Hk_run|]. split; [exact Hd_run|].
  split; [|split; [|split]].
  - cbn [state]. apply lookup_insert_eq.
  - unfold post_state. rewrite Hk. apply lookup_insert_eq.
  - apply post_compensation_zero.
  - intros Hz. cbn [heap]. f_equal. apply kahan_equals_direct; trivial.
    now apply (h_len_c _ _ _ _ Hh).
Qed.

(** A compensation buffer that does not start at zero is added to the
    parameter: from [stale_world] the compensated update ends at 2.0 and
    the direct update at 1.0. *)
Lemma stale_compensation_shifts :
  exists wk wd,
    update_param stale_group 1%positive stale_world = (wk, Ok tt) /\
    update_param (no_kahan stale_group) 1%positive stale_world = (wd, Ok tt) /\
    heap wk !! 1%positive = Some (Tensor Float32 Strided [2]) /\
    heap wd !! 1%positive = Some (Tensor Float32 Strided [1]) /\
    heap wk !! 1%positive <> heap wd !! 1%positive.
Proof.
  assert (Hd : dense_grad stale_world 1%positive 2%positive
                 (Tensor Float32 Strided [1]) (Tensor Float32 Strided [0])).
  { split; trivial; try reflexivity. discriminate. }
  assert (Hh : holds stale_group (Tensor Float32 Strided [1])
                 (get_or_create stale_group (Tensor Float32 Strided [1])
                    (state stale_world !! 1%positive)) stale_pstate).
  { assert (E : get_or_create stale_group (Tensor Float32 Strided [1])
                  (state stale_world !! 1%positive) = stale_state).
    { change (state stale_world !! 1%positive) with (Some stale_state).
      cbn [get_or_create].
      destruct (decide (size stale_state = 0%nat)) as [E|_]; [|reflexivity].
      apply map_size_empty_iff in E.
      assert (H : stale_state !! "step" = Some (Tensor Float32 Strided [1]))
        by (unfold stale_state; slot).
      rewrite E in H. now rewrite lookup_empty in H. }
    rewrite E. unfold stale_state, stale_pstate.
    split; cbn [ps_step ps_m ps_v ps_c]; try reflexivity; slot. }
  destruct (update_param_result stale_group stale_world 1%positive 2%positive
              _ _ stale_pstate Hd Hh) as (wk & Hk & Hpk & _).
  destruct (update_param_result (no_kahan stale_group) stale_world 1%positive
              2%positive _ _ stale_pstate Hd (holds_without_kahan _ _ _ _ Hh))
    as (wd & Hrd & Hpd & _).
  assert (Ek : post_param stale_group (Tensor Float32 Strided [1])
                 (Tensor Float32 Strided [0]) stale_pstate
               = Tensor Float32 Strided [2]).
  { unfold post_param, kahan_param, kahan_accumulate, new_momentum, decayed,
      zipT, zip3T, t_mul_, tmap, cvar, t_add_scalar_, t_sqrt, new_variance, tmap.
    simpl. unfold Rtruthy. destruct (Req_dec_T 0 0) as [_|N]; [|congruence].
    simpl. do 2 f_equal. unfold Rdiv. ring. }
  assert (Ed : post_param (no_kahan stale_group) (Tensor Float32 Strided [1])
                 (Tensor Float32 Strided [0]) stale_pstate
               = Tensor Float32 Strided [1]).
  { unfold post_param, direct_param, new_momentum, decayed,
      zipT, zip3T, t_mul_, tmap, cvar, t_add_scalar_, t_sqrt, new_variance, tmap.
    simpl. unfold Rtruthy. destruct (Req_dec_T 0 0) as [_|N]; [|congruence].
    simpl. do 2 f_equal. unfold Rdiv. ring. }
  exists wk, wd. split; [exact Hk|]. split; [exact Hrd|].
  assert (Gk : heap wk !! 1%positive = Some (Tensor Float32 Strided [2]))
    by (refine (eq_trans Hpk _); now rewrite Ek).
  assert (Gd : heap wd !! 1%positive = Some (Tensor Float32 Strided [1]))
    by (refine (eq_trans Hpd _); now rewrite Ed).
  split; [exact Gk|]. split; [exact Gd|].
  rewrite Gk, Gd. intros [= H]. lra.
Qed.

(** Along every run from a new optimizer the buffer does start at zero:
    at each world reached, the compensated and the direct call agree. *)
Lemma reachable_compensation_noop cfg w p t :
  reachable cfg w ->
  use_kahan_summation (cfg p) = true ->
  event_ok w (p, Some t) ->
  exists wk wd st tc,
    call cfg (p, Some t) w = (wk, Ok tt) /\
    call (fun q => no_kahan (cfg q)) (p, Some t) w = (wd, Ok tt) /\
    heap wk = heap wd /\
    state wk !! p = Some st /\
    st !! "compensation" = Some tc /\
    Forall (fun x => x = 0) (t_data tc).
Proof.
  intros Hr Hk (tp & Hp & Ht). cbn [fst snd] in *.
  destruct (Ht t eq_refl) as [Hd Lg].
  destruct (reachable_invariants cfg w Hr) as [Hok Hz].
  destruct (stored_pstate cfg w p tp Hok Hp) as (ps & Hh & Hm).
  pose proof (stored_compensation_zero cfg w p tp ps Hz Hk Hh Hm) as Hc0.
  pose proof (set_grad_dense w p t tp Hp Hd Lg) as Hdg.
  assert (Hh' : holds (no_kahan (cfg p)) tp
                  (get_or_create (no_kahan (cfg p)) tp (state w !! p)) ps).
  { destruct (state w !! p) as [st|] eqn:Hst.
    - rewrite Hm in Hh. cbn [get_or_create].
      destruct (decide (size st = 0%nat)) as [E|_];
        [now apply (holds_nonempty _ _ _ _ Hh) in E|].
      now apply holds_no_kahan.
    - subst ps. exact (holds_created (no_kahan (cfg p)) tp). }
  pose proof (update_param_run (cfg p) _ p _ tp t ps Hdg Hh) as Hk_run.
  pose proof (update_param_run (no_kahan (cfg p)) _ p _ tp t ps Hdg Hh') as Hd_run.
  eexists _, _, _, _.
  split; [exact Hk_run|]. split; [exact Hd_run|].
  split; [|split; [|split]].
  - cbn [heap]. f_equal. apply kahan_equals_direct; trivial.
    now apply (h_len_c _ _ _ _ Hh).
  - cbn [state]. apply lookup_insert_eq.
  - unfold post_state. rewrite Hk. apply lookup_insert_eq.
  - apply post_compensation_zero.
Qed.
(** *** The general theorems at the scenario *)

Lemma scenario_dense :
  dense_grad scenario_world 1%positive 2%positive scenario_param scenario_grad.
Proof. now apply example_world_dense. Qed.

Lemma kahan_four_steps_witness :
  use_kahan_summation kahan_group = true /\
  dense_grad scenario_world 1%positive 2%positive scenario_param scenario_grad /\
  exists w', update_param kahan_group 1%positive scenario_world = (w', Ok tt).
Proof.
  split; [reflexivity|]. split; [exact scenario_dense|].
  destruct (@kahan_four_steps RArith RArith_laws kahan_group scenario_world
              1%positive 2%positive scenario_param scenario_grad
              (created_pstate kahan_group scenario_param)
              eq_refl scenario_dense (example_world_holds _ _ _))
    as (w' & st' & Hrun & _).
  exists w'. exact Hrun.
Defined.

Lemma step_sizer_formulas_witness :
  dense_grad scenario_world 1%positive 2%positive scenario_param scenario_grad /\
  t_data (new_step (ps_step (created_pstate scenario_group scenario_param))) = [0 + 1] /\
  scalar_of (step_size scenario_group (new_step tensor_0))
  = 0.1 / (1 - Rpow 0.9 (0 + 1)).
Proof.
  split; [exact scenario_dense|]. split; [reflexivity|].
  destruct (@step_sizer_formulas RArith RArith_laws scenario_group scenario_world
              1%positive 2%positive scenario_param scenario_grad
              (created_pstate scenario_group scenario_param) (0 + 1)
              scenario_dense (example_world_holds _ _ _) eq_refl)
    as (Hs & _).
  exact Hs.
Defined.

Lemma moment_update_witness :
  dense_grad scenario_world 1%positive 2%positive scenario_param scenario_grad /\
  exists w', update_param scenario_group 1%positive scenario_world = (w', Ok tt).
Proof.
  split; [exact scenario_dense|].
  destruct (@moment_update RArith RArith_laws scenario_group scenario_world
              1%positive 2%positive scenario_param scenario_grad
              (created_pstate scenario_group scenario_param)
              scenario_dense (example_world_holds _ _ _))
    as (w' & st' & Hrun & _).
  exists w'. exact Hrun.
Defined.

Lemma weight_decay_first_witness :
  ~ is_zero (weight_decay kahan_group) /\
  is_zero (weight_decay scenario_group) /\
  (exists w',
     update_param kahan_group 1%positive scenario_world = (w', Ok tt) /\
     heap w' !! 1%positive
     = Some (kahan_param
               (Tensor Float32 Strided [1 * (1 - 0.1 * 0.1)])
               (kahan_accumulate
                  (neg_step_size kahan_group (new_step tensor_0))
                  (zeros_like scenario_param BFloat16)
                  (new_momentum kahan_group
                     (zeros_like scenario_param BFloat16) scenario_grad)
                  (cvar kahan_group
                     (new_variance kahan_group
                        (zeros_like scenario_param BFloat16) scenario_grad)
                     (new_step tensor_0))))) /\
  (exists w',
     update_param scenario_group 1%positive scenario_world = (w', Ok tt) /\
     heap w' !! 1%positive
     = Some (direct_param
               (neg_step_size scenario_group (new_step tensor_0))
               (Tensor Float32 Strided [1])
               (new_momentum scenario_group
                  (zeros_like scenario_param Float32) scenario_grad)
               (cvar scenario_group
                  (new_variance scenario_group
                     (zeros_like scenario_param Float32) scenario_grad)
                  (new_step tensor_0)))).
Proof.
  assert (Hnz : ~ is_zero (weight_decay kahan_group)).
  { unfold is_zero. simpl. intros [E|E]; lra. }
  assert (Hz : is_zero (weight_decay scenario_group)) by (left; reflexivity).
  split; [exact Hnz|]. split; [exact Hz|]. split.
  - destruct (@weight_decay_first RArith RArith_truth kahan_group scenario_world
                1%positive 2%positive scenario_param scenario_grad
                (created_pstate kahan_group scenario_param)
                scenario_dense (example_world_holds _ _ _))
      as (w' & Hrun & Hdecay & _).
    exists w'. split; [exact Hrun|]. exact (Hdecay Hnz).
  - destruct (@weight_decay_first RArith RArith_truth scenario_group scenario_world
                1%positive 2%positive scenario_param scenario_grad
                (created_pstate scenario_group scenario_param)
                scenario_dense (example_world_holds _ _ _))
      as (w' & Hrun & _ & Hskip).
    exists w'. split; [exact Hrun|]. exact (Hskip Hz).
Defined.

Lemma first_update_creates_state_witness :
  dense_grad scenario_world 1%positive 2%positive scenario_param scenario_grad /\
  state scenario_world !! 1%positive = None /\
  created_state kahan_group scenario_param !! "step"
  = Some (Tensor Float32 Strided [0]).
Proof.
  split; [exact scenario_dense|]. split; [reflexivity|].
  destruct (@first_update_creates_state RArith kahan_group scenario_world
              1%positive 2%positive scenario_param scenario_grad
              scenario_dense eq_refl)
    as (Hs & _).
  exact Hs.
Defined.

Lemma sparse_gradient_raises_witness :
  let w := example_world scenario_param sparse_grad in
  grad_of w !! 1%positive = Some 2%positive /\
  heap w !! 2%positive = Some sparse_grad /\
  update_param scenario_group 1%positive w
  = (w, Raise (RuntimeError "BFF does not support sparse gradients")).
Proof.
  split; [reflexivity|]. split; [reflexivity|].
  destruct (@sparse_gradient_raises RArith scenario_group
              (example_world scenario_param sparse_grad)
              1%positive 2%positive sparse_grad
              eq_refl eq_refl eq_refl)
    as (Hs & _).
  exact Hs.
Defined.

Lemma scenario_gradient_apart :
  forall g : group, g ∈ [scenario_group] -> 2%positive ∉ params g.
Proof.
  intros g Hg Hin. apply list_elem_of_singleton in Hg. subst g.
  apply list_elem_of_singleton in Hin. discriminate.
Qed.

Lemma gradients_untouched_witness :
  grad_of scenario_world !! 1%positive = Some 2%positive /\
  heap (step None [scenario_group] scenario_world).1 !! 2%positive
  = heap scenario_world !! 2%positive.
Proof.
  split; [reflexivity|].
  destruct (@gradients_untouched RArith [scenario_group] scenario_world
              1%positive 2%positive eq_refl scenario_gradient_apart)
    as (_ & Hh & _).
  exact Hh.
Defined.

Lemma scenario_event :
  event_ok scenario_world (1%positive, Some scenario_grad).
Proof.
  exists scenario_param. split; [reflexivity|]. intros t [= <-]. now split.
Qed.

Lemma compensation_is_exact_noop_witness :
  use_kahan_summation kahan_group = true /\
  dense_grad scenario_world 1%positive 2%positive scenario_param scenario_grad /\
  exists wk wd,
    update_param kahan_group 1%positive scenario_world = (wk, Ok tt) /\
    update_param (no_kahan kahan_group) 1%positive scenario_world = (wd, Ok tt) /\
    heap wk = heap wd.
Proof.
  split; [reflexivity|]. split; [exact scenario_dense|].
  destruct (compensation_is_exact_noop kahan_group scenario_world
              1%positive 2%positive scenario_param scenario_grad
              (created_pstate kahan_group scenario_param)
              eq_refl scenario_dense (example_world_holds _ _ _))
    as (wk & wd & st & tc & Hk & Hd & _ & _ & _ & Hh).
  exists wk, wd. split; [exact Hk|]. split; [exact Hd|].
  apply Hh. apply zeros_like_zero.
Defined.

End ExactFacts.

(** ** The step counter in binary32 *)

Module Binary32Facts.
Import Binary32.
Local Open Scope Z_scope.

(* The proofs below compute with binary numbers. *)
#[local] Arguments Pos.succ : simpl nomatch.
#[local] Arguments Pos.add : simpl nomatch.
#[local] Arguments Pos.mul : simpl nomatch.
#[local] Arguments Pos.sub : simpl nomatch.
#[local] Arguments Z.succ : simpl nomatch.
#[local] Arguments Z.add : simpl nomatch.
#[local] Arguments Z.sub : simpl nomatch.
#[local] Arguments Z.opp : simpl nomatch.
#[local] Arguments Z.mul : simpl nomatch.
#[local] Arguments Z.max : simpl nomatch.
#[local] Arguments Z.min : simpl nomatch.

(** Python's truth value on binary32: false for [0.0] and [-0.0] only. *)
Lemma B32Arith_truth : TruthLaws B32Arith.
Proof.
  split. intros x. unfold is_zero. cbn [truthy f0 fneg B32Arith].
  destruct x as [s|s| |s m e]; cbn [b32_truthy SFopp].
  - split; [discriminate|]. intros H. destruct H.
    destruct s; [right|left]; reflexivity.
  - split; [|reflexivity]. intros _ [E|E]; discriminate.
  - split; [|reflexivity]. intros _ [E|E]; discriminate.
  - split; [|reflexivity]. intros _ [E|E]; discriminate.
Qed.


Lemma digits_succ p :
  digits2_pos (Pos.succ p) = digits2_pos p \/
  digits2_pos (Pos.succ p) = Pos.succ (digits2_pos p).
Proof.
  induction p as [p IH|p IH|].
  - change (digits2_pos (Pos.succ p~1)) with (Pos.succ (digits2_pos (Pos.succ p))).
    change (digits2_pos p~1) with (Pos.succ (digits2_pos p)).
    destruct IH as [->| ->]; auto.
  - left. reflexivity.
  - right. reflexivity.
Qed.

Lemma digits_lower p : 2 ^ (Zpos (digits2_pos p) - 1) <= Zpos p.
Proof.
  induction p as [p IH|p IH|]; cbn [digits2_pos].
  - rewrite Pos2Z.inj_succ.
    replace (Z.succ (Zpos (digits2_pos p)) - 1)
      with (Z.succ (Zpos (digits2_pos p) - 1)) by lia.
    rewrite Z.pow_succ_r by lia. lia.
  - rewrite Pos2Z.inj_succ.
    replace (Z.succ (Zpos (digits2_pos p)) - 1)
      with (Z.succ (Zpos (digits2_pos p) - 1)) by lia.
    rewrite Z.pow_succ_r by lia. lia.
  - cbn. lia.
Qed.

Lemma digits_le_24 p : Zpos p < 2 ^ 24 -> (digits2_pos p <= 24)%positive.
Proof.
  intros H. destruct (Pos.leb_spec (digits2_pos p) 24) as [L|L]; [exact L|].
  exfalso. pose proof (digits_lower p).
  assert (2 ^ 24 <= 2 ^ (Zpos (digits2_pos p) - 1)) by (apply Z.pow_le_mono_r; lia).
  lia.
Qed.

Lemma digits_one p : digits2_pos p = 1%positive -> p = 1%positive.
Proof.
  destruct p as [p|p|]; cbn; intros H; try reflexivity;
    destruct (digits2_pos p); discriminate.
Qed.

(** Unfold an addition of binary32 integers once the number of digits of
    the operands is known. *)
Ltac crunch E E' :=
  repeat (progress
    (unfold b32_of_Z, b32_one, binary_normalize, binary_round, SFadd,
       binary_round_aux, shr_fexp, fexp, emin, shl_align, shr, Zdigits2;
     cbn; rewrite ?E, ?E')).

Lemma incr_case p d d' :
  digits2_pos p = d -> digits2_pos (p + 1) = d' ->
  (d <= 24)%positive -> (d' <= 24)%positive -> (d' = d \/ d' = Pos.succ d) ->
  SFadd 24 128 (b32_of_Z (Zpos p)) b32_one = b32_of_Z (Zpos (p + 1)).
Proof.
  intros E E' L L' R.
  assert (C : (d = 1 \/ d = 2 \/ d = 3 \/ d = 4 \/ d = 5 \/ d = 6 \/ d = 7 \/
               d = 8 \/ d = 9 \/ d = 10 \/ d = 11 \/ d = 12 \/ d = 13 \/
               d = 14 \/ d = 15 \/ d = 16 \/ d = 17 \/ d = 18 \/ d = 19 \/
               d = 20 \/ d = 21 \/ d = 22 \/ d = 23 \/ d = 24)%positive) by lia.
  revert E E' L'.
  destruct R as [R|R]; rewrite R; clear R d'.
  - destruct C as [C|C].
    { rewrite C. intros E. apply digits_one in E. subst p. discriminate. }
    repeat (destruct C as [C|C];
            [rewrite C; clear C d L; intros E E' _; crunch E E'; reflexivity|]).
    rewrite C; clear C d L; intros E E' _; crunch E E'; reflexivity.
  - repeat (destruct C as [C|C];
            [rewrite C; clear C d L; intros E E' _; crunch E E'; reflexivity|]).
    rewrite C. intros _ _ L'. cbn in L'. lia.
Qed.

(** Below 2^24 adding 1.0 is exact. *)
Lemma b32_incr k :
  0 <= k < 2 ^ 24 -> SFadd 24 128 (b32_of_Z k) b32_one = b32_of_Z (k + 1).
Proof.
  intros [H0 H1]. destruct k as [|p|p]; [reflexivity| |lia].
  destruct (Z.eq_dec (Zpos p) (2 ^ 24 - 1)) as [E|N].
  - injection E as ->. vm_compute. reflexivity.
  - change (Zpos p + 1) with (Zpos (p + 1)).
    assert (H2 : Zpos (p + 1) < 2 ^ 24) by lia.
    apply (incr_case p _ _ eq_refl eq_refl (digits_le_24 _ H1) (digits_le_24 _ H2)).
    rewrite Pos.add_1_r. apply digits_succ.
Qed.

(** At 2^24 it is lost: 16777217 is halfway between two binary32 numbers
    and rounds to the even one. *)
Lemma b32_saturated : SFadd 24 128 (b32_of_Z (2 ^ 24)) b32_one = b32_of_Z (2 ^ 24).
Proof. vm_compute. reflexivity. Qed.

Lemma b32_count n :
  Nat.iter n (fun x => SFadd 24 128 x b32_one) (S754_zero false)
  = b32_of_Z (Z.min (Z.of_nat n) (2 ^ 24)).
Proof.
  induction n as [|n IH]; [reflexivity|].
  rewrite Nat.iter_succ, IH.
  destruct (Z_lt_le_dec (Z.of_nat n) (2 ^ 24)) as [Hlt|Hge].
  - rewrite Z.min_l by lia. rewrite b32_incr by lia.
    f_equal. rewrite Z.min_l by lia. lia.
  - rewrite Z.min_r by lia. rewrite b32_saturated.
    f_equal. rewrite Z.min_r by lia. reflexivity.
Qed.

Lemma roundtrip_case p d :
  digits2_pos p = d -> (d <= 24)%positive ->
  b32_to_Z (b32_of_Z (Zpos p)) = Some (Zpos p).
Proof.
  intros E L.
  assert (C : (d = 1 \/ d = 2 \/ d = 3 \/ d = 4 \/ d = 5 \/ d = 6 \/ d = 7 \/
               d = 8 \/ d = 9 \/ d = 10 \/ d = 11 \/ d = 12 \/ d = 13 \/
               d = 14 \/ d = 15 \/ d = 16 \/ d = 17 \/ d = 18 \/ d = 19 \/
               d = 20 \/ d = 21 \/ d = 22 \/ d = 23 \/ d = 24)%positive) by lia.
  revert E.
  repeat (destruct C as [C|C];
    [rewrite C; clear C d L; intros E; crunch E E; unfold b32_to_Z, cond_Zopp;
     match goal with
     | |- context [Z.modulo (Zpos ?X) (2 ^ ?K)] =>
         replace (Zpos X) with (Zpos p * 2 ^ K) by lia
     end;
     rewrite Z.mod_mul by lia; rewrite Z.div_mul by lia; reflexivity|]).
  rewrite C; clear C d L; intros E; crunch E E. unfold b32_to_Z, cond_Zopp.
  f_equal. lia.
Qed.

(** Up to 2^24 every integer is a binary32 number. *)
Lemma b32_roundtrip k : 0 <= k <= 2 ^ 24 -> b32_to_Z (b32_of_Z k) = Some k.
Proof.
  intros [H0 H1]. destruct k as [|p|p]; [reflexivity| |lia].
  destruct (Z.eq_dec (Zpos p) (2 ^ 24)) as [E|N].
  - injection E as ->. vm_compute. reflexivity.
  - apply (roundtrip_case p _ eq_refl). apply digits_le_24. lia.
Qed.

Section Counter.
Context {A : Arith} (enc : spec_float -> F).
Hypothesis enc_zero : enc (S754_zero false) = f0.
Hypothesis enc_incr :
  forall x, cast Float32 (fadd (enc x) f1) = enc (SFadd 24 128 x b32_one).

Lemma counter_value n :
  Nat.iter n (fun x => cast default_dtype (fadd x f1)) f0
  = enc (b32_of_Z (Z.min (Z.of_nat n) (2 ^ 24))).
Proof.
  rewrite <- b32_count. induction n as [|n IH]; [now rewrite <- enc_zero|].
  rewrite !Nat.iter_succ, IH. apply enc_incr.
Qed.

Lemma run_step_counter cfg evs w p :
  state w = ∅ -> Forall (event_ok w) evs ->
  exists w', run cfg evs w = (w', Ok tt) /\
    step_tensor w' p
    = Tensor Float32 Strided
        [enc (b32_of_Z (Z.min (Z.of_nat (present_calls p evs)) (2 ^ 24)))].
Proof.
  intros Hinit Hev.
  assert (Hok : state_ok cfg w).
  { intros q st Hst. rewrite Hinit in Hst. now rewrite lookup_empty in Hst. }
  destruct (run_ok cfg evs w Hok Hev) as (w' & Hrun & _ & _ & Hall).
  exists w'. split; [exact Hrun|]. destruct (Hall p) as [Hs _]. rewrite Hs.
  assert (E : step_tensor w p = tensor_0).
  { unfold step_tensor. rewrite Hinit. now rewrite lookup_empty. }
  rewrite E, iter_new_step. now rewrite counter_value.
Qed.

End Counter.
Lemma present_calls_replicate {A : Arith} (p : loc) (t : tensor) n :
  present_calls p (replicate n (p, Some t)) = n.
Proof.
  induction n as [|n IH]; [reflexivity|].
  change (replicate (S n) (p, Some t)) with ((p, Some t) :: replicate n (p, Some t)).
  rewrite present_calls_cons_present.
  destruct (decide (p = p)); [now rewrite IH | congruence].
Qed.

Lemma b32_enc_incr (x : spec_float) :
  @cast B32Arith Float32 (@fadd B32Arith x (@f1 B32Arith)) = SFadd 24 128 x b32_one.
Proof. cbn. now destruct (SFadd 24 128 x b32_one). Qed.

Lemma counter_world_ok (t : @tensor B32Arith) :
  @is_sparse B32Arith t = false -> length (@t_data B32Arith t) = 1%nat ->
  @event_ok B32Arith counter_world (1%positive, Some t).
Proof.
  intros Hd Hl. exists counter_param. split; [reflexivity|].
  intros t' [= <-]. now split.
Qed.

(** C5, as amended.  The step counter is a binary32 tensor: after a run of
    well-formed calls from a new optimizer, [n] of which came with a
    gradient for the parameter, it holds the number min(n, 2^24) - exactly
    [n] as long as [n <= 2^24 = 16777216], and 16777216 from then on.
    Each call with a gradient adds 1.0 to it in the arithmetic of the step
    tensor; a call without a gradient leaves the whole world, parameter
    and state included, as it was.  The arithmetic is any whose Float32
    addition of 1 is the IEEE one. *)
Theorem step_counter_is_binary32 {A : Arith} (enc : spec_float -> F) cfg evs w p :
  enc (S754_zero false) = f0 ->
  (forall x, cast Float32 (fadd (enc x) f1) = enc (SFadd 24 128 x b32_one)) ->
  state w = ∅ ->
  Forall (event_ok w) evs ->
  let n := Z.of_nat (present_calls p evs) in
  (exists w',
     run cfg evs w = (w', Ok tt) /\
     step_tensor w' p = Tensor Float32 Strided [enc (b32_of_Z (Z.min n (2 ^ 24)))]) /\
  b32_to_Z (b32_of_Z (Z.min n (2 ^ 24))) = Some (Z.min n (2 ^ 24)) /\
  (forall w1 t, state_ok cfg w1 -> event_ok w1 (p, Some t) ->
     exists w2, call cfg (p, Some t) w1 = (w2, Ok tt) /\
                step_tensor w2 p = new_step (step_tensor w1 p)) /\
  (forall g w1, grad_of w1 !! p = None -> update_param g p w1 = (w1, Ok tt)).
Proof.
  intros Hz Hi Hinit Hev n. split; [|split; [|split]].
  - now apply run_step_counter.
  - apply b32_roundtrip. unfold n. lia.
  - intros w1 t Hok1 Hev1.
    destruct (call_present cfg w1 p t Hok1 Hev1) as (w2 & Hrun & _ & _ & Hs & _).
    eauto.
  - intros g w1. apply update_param_absent.
Qed.

Lemma step_counter_is_binary32_witness :
  exists w',
    @run B32Arith (fun _ => counter_group)
         [(1%positive, Some counter_grad); (1%positive, None);
          (1%positive, Some counter_grad)] counter_world = (w', Ok tt) /\
    @step_tensor B32Arith w' 1%positive
    = @Tensor B32Arith Float32 Strided [b32_of_Z 2].
Proof.
  destruct (@step_counter_is_binary32 B32Arith (fun x => x) (fun _ => counter_group)
              [(1%positive, Some counter_grad); (1%positive, None);
               (1%positive, Some counter_grad)] counter_world 1%positive)
    as [(w' & Hrun & Hs) _].
  - reflexivity.
  - exact b32_enc_incr.
  - reflexivity.
  - repeat constructor; try (now apply counter_world_ok).
    exists counter_param. split; [reflexivity | discriminate].
  - exists w'. split; [exact Hrun | exact Hs].
Defined.

(** After 2^24 + 1 = 16777217 calls with a gradient the step counter
    holds 16777216. *)
Lemma step_counter_stalls :
  exists w',
    @run B32Arith (fun _ => counter_group) counter_calls counter_world = (w', Ok tt) /\
    Z.of_nat (@present_calls B32Arith 1%positive counter_calls) = 16777217 /\
    b32_to_Z (@scalar_of B32Arith (@step_tensor B32Arith w' 1%positive))
    = Some 16777216 /\
    b32_to_Z (@scalar_of B32Arith (@step_tensor B32Arith w' 1%positive))
    <> Some (Z.of_nat (@present_calls B32Arith 1%positive counter_calls)).
Proof.
  assert (Hev : Forall (@event_ok B32Arith counter_world) counter_calls).
  { apply Forall_replicate. now apply counter_world_ok. }
  destruct (@run_step_counter B32Arith (fun x => x) eq_refl b32_enc_incr
              (fun _ => counter_group) counter_calls counter_world 1%positive
              eq_refl Hev) as (w' & Hrun & Hs).
  assert (Hn : Z.of_nat (@present_calls B32Arith 1%positive counter_calls) = 16777217).
  { unfold counter_calls. rewrite present_calls_replicate. apply Z2Nat.id. lia. }
  exists w'. split; [exact Hrun|]. split; [exact Hn|].
  rewrite Hs, Hn. split; [reflexivity | discriminate].
Qed.

End Binary32Facts.

(** * Further properties of the update *)

Section Partial.
Context {A : Arith}.

(** The update up to the apply phase: step, decay and both moments are
    written; only the three keys read so far need to be there. *)
Lemma main_processing_until_apply g h gr s p gl tp tg st ps :
  holds (no_kahan g) tp st ps ->
  gl <> p -> h !! gl = Some tg ->
  length (t_data tg) = length (t_data tp) ->
  main_processing g p gl (focus h gr s p tp st)
  = (if use_kahan_summation g
     then kahan_apply p (Slot p "exp_avg")
            (cvar g (new_variance g (ps_v ps) tg) (new_step (ps_step ps)))
            (step_size g (new_step (ps_step ps)))
     else direct_apply p (Slot p "exp_avg")
            (cvar g (new_variance g (ps_v ps) tg) (new_step (ps_step ps)))
            (step_size g (new_step (ps_step ps))))
      (focus h gr s p (decayed g tp) (moments_written g tg ps st)).
Proof.
  intros [Hs H0 Hm Hv _ Lm Lv _] Hne Hg Lg. unfold main_processing.
  rewrite (bind_ok _ _ _ _ _
             (modify_slot _ _ _ _ _ (fun t => Ok (t_iadd t f1)) _ _ _ _ Hs eq_refl)).
  fold (new_step (ps_step ps)).
  set (st1 := <["step" := new_step (ps_step ps)]> st).
  assert (Hs1 : st1 !! "step" = Some (new_step (ps_step ps))) by (unfold st1; slot).
  assert (Hm1 : st1 !! "exp_avg" = Some (ps_m ps)) by (unfold st1; slot).
  assert (Hv1 : st1 !! "exp_avg_sq" = Some (ps_v ps)) by (unfold st1; slot).
  rewrite (bind_ok _ _ _ _ _ (state_ref_slot _ _ _ _ _ _ _ _ Hs1)).
  rewrite (bind_ok _ _ _ _ _ (state_ref_slot _ _ _ _ _ _ _ _ Hm1)).
  rewrite (bind_ok _ _ _ _ _ (state_ref_slot _ _ _ _ _ _ _ _ Hv1)).
  assert (Hdecay :
    (if truthy (weight_decay g)
     then modify (Heap p)
            (fun t => Ok (t_mul_ t (fsub f1 (fmul (lr g) (weight_decay g)))))
     else mret tt) (focus h gr s p tp st1)
    = (focus h gr s p (decayed g tp) st1, Ok tt)).
  { unfold decayed, decay_factor. destruct (truthy (weight_decay g)).
    - now apply (modify_param _ _ _ _ (fun t => Ok (t_mul_ t _))).
    - reflexivity. }
  rewrite (bind_ok _ _ _ _ _ Hdecay). clear Hdecay.
  rewrite (bind_ok _ _ _ _ _
             (modify_slot _ _ _ _ _ (fun m => Ok (t_mul_ m (beta1 g))) _ _ _ _
                Hm1 eq_refl)).
  rewrite (bind_ok _ _ _ _ _ (read_other _ _ _ _ _ _ _ _ Hne Hg)).
  assert (Hm2 : <["exp_avg" := t_mul_ (ps_m ps) (beta1 g)]> st1 !! "exp_avg"
                = Some (t_mul_ (ps_m ps) (beta1 g))) by slot.
  assert (Hadd : t_add_alpha_ (t_mul_ (ps_m ps) (beta1 g)) tg (fsub f1 (beta1 g))
                 = Ok (new_momentum g (ps_m ps) tg)).
  { unfold t_add_alpha_, new_momentum. apply tzip_ok.
    unfold t_mul_. rewrite tmap_length. congruence. }
  rewrite (bind_ok _ _ _ _ _
             (modify_slot _ _ _ _ _ (fun m => t_add_alpha_ m tg _) _ _ _ _ Hm2 Hadd)).
  rewrite insert_insert_eq. clear Hm2 Hadd.
  set (st2 := <["exp_avg" := new_momentum g (ps_m ps) tg]> st1).
  assert (Hv2 : st2 !! "exp_avg_sq" = Some (ps_v ps)) by (unfold st2; slot).
  rewrite (bind_ok _ _ _ _ _
             (modify_slot _ _ _ _ _ (fun v => Ok (t_mul_ v (beta2 g))) _ _ _ _
                Hv2 eq_refl)).
  rewrite (bind_ok _ _ _ _ _ (read_other _ _ _ _ _ _ _ _ Hne Hg)).
  assert (Hv3 : <["exp_avg_sq" := t_mul_ (ps_v ps) (beta2 g)]> st2 !! "exp_avg_sq"
                = Some (t_mul_ (ps_v ps) (beta2 g))) by slot.
  assert (Hcm : t_addcmul_ (t_mul_ (ps_v ps) (beta2 g)) tg tg (fsub f1 (beta2 g))
                = Ok (new_variance g (ps_v ps) tg)).
  { unfold t_addcmul_, new_variance. apply tzip3_ok;
      unfold t_mul_; rewrite tmap_length; congruence. }
  rewrite (bind_ok _ _ _ _ _
             (modify_slot _ _ _ _ _ (fun v => t_addcmul_ v tg tg _) _ _ _ _ Hv3 Hcm)).
  rewrite insert_insert_eq. clear Hv3 Hcm.
  set (st3 := <["exp_avg_sq" := new_variance g (ps_v ps) tg]> st2).
  assert (Hs3 : st3 !! "step" = Some (new_step (ps_step ps)))
    by (unfold st3, st2; slot).
  assert (Hv4 : st3 !! "exp_avg_sq" = Some (new_variance g (ps_v ps) tg))
    by (unfold st3; slot).
  rewrite (bind_ok _ _ _ _ _ (read_slot _ _ _ _ _ _ _ _ Hs3)).
  rewrite (bind_ok _ _ _ _ _ (read_slot _ _ _ _ _ _ _ _ Hv4)).
  pose proof (new_step_length _ H0) as L1.
  rewrite (bind_ok _ _ _ _ _ (lift_ok _ _ _ (centered_variance_ok g _ _ L1))).
  reflexivity.
Qed.

(** Entering main processing with a stored, non-empty dictionary. *)
Lemma update_param_stored g w p gl tp tg st :
  dense_grad w p gl tp tg ->
  state w !! p = Some st -> size st <> 0%nat ->
  update_param g p w
  = main_processing g p gl (focus (heap w) (grad_of w) (state w) p tp st).
Proof.
  intros [Hp Hgr Hg Hd Hne Lg] Hst Hsz. unfold update_param.
  assert (G : get_grad p w = (w, Ok (Some gl))) by (unfold get_grad; now rewrite Hgr).
  rewrite (bind_ok _ _ _ _ _ G). clear G.
  assert (G : read (Heap gl) w = (w, Ok tg)) by (unfold read; now rewrite Hg).
  rewrite (bind_ok _ _ _ _ _ G). clear G. rewrite Hd.
  assert (G : self_state p w = (w, Ok st)) by (unfold self_state; now rewrite Hst).
  rewrite (bind_ok _ _ _ _ _ G). clear G.
  rewrite (focus_intro w p tp st Hp Hst) at 1.
  destruct (decide (size st = 0%nat)) as [E|_]; [contradiction|].
  reflexivity.
Qed.

(** A focused world whose parameter is the stored one is the world. *)
Lemma focus_state w p tp st :
  heap w !! p = Some tp ->
  focus (heap w) (grad_of w) (state w) p tp st
  = World (heap w) (grad_of w) (<[p := st]> (state w)).
Proof. intros Hp. unfold focus. now rewrite (insert_id _ _ _ Hp). Qed.

(** X1. Switching compensation on for a parameter whose state was
    created without it: the update raises [KeyError] at
    [state["compensation"]], after the step counter, the weight decay and
    both moments were written and before the weights are updated. *)
Theorem enabling_kahan_later_raises g w p gl tp tg st ps :
  use_kahan_summation g = true ->
  dense_grad w p gl tp tg ->
  state w !! p = Some st ->
  holds (no_kahan g) tp st ps ->
  st !! "compensation" = None ->
  update_param g p w
  = (World (<[p := decayed g tp]> (heap w)) (grad_of w)
           (<[p := moments_written g tg ps st]> (state w)),
     Raise (KeyError "compensation")).
Proof.
  intros Hk Hd Hst Hh Hc.
  rewrite (update_param_stored g w p gl tp tg st Hd Hst (holds_nonempty _ _ _ _ Hh)).
  destruct Hd as [Hp Hgr Hg Hds Hne Lg].
  rewrite (main_processing_until_apply g _ _ _ p gl tp tg st ps Hh Hne Hg Lg).
  rewrite Hk. unfold kahan_apply.
  assert (Hmiss : moments_written g tg ps st !! "compensation" = None).
  { unfold moments_written. now rewrite !lookup_insert_ne by discriminate. }
  assert (G : state_ref p "compensation"
                (focus (heap w) (grad_of w) (state w) p (decayed g tp)
                   (moments_written g tg ps st))
              = (focus (heap w) (grad_of w) (state w) p (decayed g tp)
                   (moments_written g tg ps st), Raise (KeyError "compensation"))).
  { unfold state_ref.
    now rewrite (bind_raise _ _ _ _ _ (read_slot_missing _ _ _ _ _ _ _ Hmiss)). }
  now rewrite (bind_raise _ _ _ _ _ G).
Qed.

(** X2. A stored dictionary that is not empty and has no ["step"]: the
    update raises [KeyError] at [state["step"] += 1] and nothing was
    written. *)
Theorem missing_step_raises g w p gl tg st :
  grad_of w !! p = Some gl -> heap w !! gl = Some tg -> is_sparse tg = false ->
  state w !! p = Some st -> size st <> 0%nat ->
  st !! "step" = None ->
  update_param g p w = (w, Raise (KeyError "step")).
Proof.
  intros Hgr Hg Hd Hst Hsz Hmiss. unfold update_param.
  assert (G : get_grad p w = (w, Ok (Some gl))) by (unfold get_grad; now rewrite Hgr).
  rewrite (bind_ok _ _ _ _ _ G). clear G.
  assert (G : read (Heap gl) w = (w, Ok tg)) by (unfold read; now rewrite Hg).
  rewrite (bind_ok _ _ _ _ _ G). clear G. rewrite Hd.
  assert (G : self_state p w = (w, Ok st)) by (unfold self_state; now rewrite Hst).
  rewrite (bind_ok _ _ _ _ _ G). clear G.
  destruct (decide (size st = 0%nat)) as [E|_]; [contradiction|].
  assert (G : (mret tt : M unit) w = (w, Ok tt)) by reflexivity.
  rewrite (bind_ok _ _ _ _ _ G). clear G.
  unfold main_processing.
  assert (G : modify (Slot p "step") (fun t => Ok (t_iadd t f1)) w
              = (w, Raise (KeyError "step"))).
  { unfold modify.
    assert (R : read (Slot p "step") w = (w, Raise (KeyError "step"))).
    { unfold read. rewrite Hst. cbn [mbind option_bind]. now rewrite Hmiss. }
    now rewrite (bind_raise _ _ _ _ _ R). }
  now rewrite (bind_raise _ _ _ _ _ G).
Qed.

(** X3. A stored dictionary with ["step"] but without one of the
    moments: the update raises [KeyError] for the first missing moment
    after the step counter was advanced; the weights are as before. *)
Theorem missing_moment_raises g w p gl tp tg st ts :
  dense_grad w p gl tp tg ->
  state w !! p = Some st ->
  st !! "step" = Some ts ->
  st !! "exp_avg" = None \/ st !! "exp_avg_sq" = None ->
  update_param g p w
  = (World (heap w) (grad_of w) (<[p := <["step" := new_step ts]> st]> (state w)),
     Raise (KeyError (match st !! "exp_avg" with
                      | Some _ => "exp_avg_sq"
                      | None => "exp_avg"
                      end))).
Proof.
  intros Hd Hst Hs Hmiss.
  assert (Hsz : size st <> 0%nat).
  { intros E. apply map_size_empty_iff in E. subst st. now rewrite lookup_empty in Hs. }
  rewrite (update_param_stored g w p gl tp tg st Hd Hst Hsz).
  destruct Hd as [Hp _ _ _ _ _]. unfold main_processing.
  rewrite (bind_ok _ _ _ _ _
             (modify_slot _ _ _ _ _ (fun t => Ok (t_iadd t f1)) _ _ _ _ Hs eq_refl)).
  fold (new_step ts).
  set (st1 := <["step" := new_step ts]> st).
  assert (Hs1 : st1 !! "step" = Some (new_step ts)) by (unfold st1; slot).
  rewrite (bind_ok _ _ _ _ _ (state_ref_slot _ _ _ _ _ _ _ _ Hs1)).
  rewrite <- (focus_state w p tp st1 Hp).
  destruct (st !! "exp_avg") as [tm|] eqn:Hm.
  - destruct Hmiss as [?|Hv]; [discriminate|].
    assert (Hm1 : st1 !! "exp_avg" = Some tm) by (unfold st1; slot).
    rewrite (bind_ok _ _ _ _ _ (state_ref_slot _ _ _ _ _ _ _ _ Hm1)).
    assert (Hv1 : st1 !! "exp_avg_sq" = None).
    { unfold st1. now rewrite lookup_insert_ne by discriminate. }
    assert (G : state_ref p "exp_avg_sq"
                  (focus (heap w) (grad_of w) (state w) p tp st1)
                = (focus (heap w) (grad_of w) (state w) p tp st1,
                   Raise (KeyError "exp_avg_sq"))).
    { unfold state_ref.
      now rewrite (bind_raise _ _ _ _ _ (read_slot_missing _ _ _ _ _ _ _ Hv1)). }
    now rewrite (bind_raise _ _ _ _ _ G).
  - assert (Hm1 : st1 !! "exp_avg" = None).
    { unfold st1. now rewrite lookup_insert_ne by discriminate. }
    assert (G : state_ref p "exp_avg"
                  (focus (heap w) (grad_of w) (state w) p tp st1)
                = (focus (heap w) (grad_of w) (state w) p tp st1,
                   Raise (KeyError "exp_avg"))).
    { unfold state_ref.
      now rewrite (bind_raise _ _ _ _ _ (read_slot_missing _ _ _ _ _ _ _ Hm1)). }
    now rewrite (bind_raise _ _ _ _ _ G).
Qed.

(** X4. An empty dictionary stored for a parameter counts as no state:
    the update initializes it and proceeds exactly as for a parameter the
    optimizer has never seen. *)
Theorem empty_state_is_new g w p gl tp tg :
  dense_grad w p gl tp tg ->
  state w !! p = Some ∅ ->
  update_param g p w
  = update_param g p (World (heap w) (grad_of w) (delete p (state w))).
Proof.
  intros Hd Hst.
  assert (Hd' : dense_grad (World (heap w) (grad_of w) (delete p (state w)))
                  p gl tp tg) by (destruct Hd; now constructor).
  assert (Hnone : state (World (heap w) (grad_of w) (delete p (state w))) !! p = None)
    by apply lookup_delete_eq.
  assert (H1 : get_or_create g tp (state w !! p) = created_state g tp).
  { rewrite Hst. cbn [get_or_create].
    destruct (decide (size (∅ : gmap string tensor) = 0%nat)) as [_|N];
      [reflexivity|now rewrite map_size_empty in N]. }
  rewrite (update_param_run g w p gl tp tg (created_pstate g tp) Hd);
    [|rewrite H1; apply holds_created].
  rewrite (update_param_run g _ p gl tp tg (created_pstate g tp) Hd');
    [|rewrite Hnone; apply holds_created].
  rewrite H1, Hnone. cbn [heap grad_of state get_or_create].
  now rewrite insert_delete_eq.
Qed.

End Partial.

Section Shapes.
Context {A : Arith}.

Lemma post_param_dtype g (tp tg : tensor) ps :
  t_dtype (post_param g tp tg ps) = t_dtype tp /\
  t_layout (post_param g tp tg ps) = t_layout tp.
Proof.
  unfold post_param, decayed.
  destruct (use_kahan_summation g), (truthy (weight_decay g)); now split.
Qed.

(** The stored dictionary is the one main processing starts from. *)
Lemma get_or_create_stored g (tp : tensor) st ps :
  holds g tp st ps -> get_or_create g tp (Some st) = st.
Proof.
  intros Hh. cbn [get_or_create].
  destruct (decide (size st = 0%nat)) as [E|_]; [|reflexivity].
  now destruct (holds_nonempty _ _ _ _ Hh).
Qed.

(** X5. An update keeps the precision, the layout and the number of
    elements of the parameter and of every state tensor, and leaves a
    complete dictionary behind: the hyperparameters [momentum_dtype],
    [variance_dtype] and [compensation_buffer_dtype] matter only when the
    state is created. *)
Theorem update_keeps_dtypes_and_shapes g w p gl tp tg ps :
  dense_grad w p gl tp tg ->
  holds g tp (get_or_create g tp (state w !! p)) ps ->
  exists w' tp' st' ps',
    update_param g p w = (w', Ok tt) /\
    heap w' !! p = Some tp' /\ state w' !! p = Some st' /\
    holds g tp' st' ps' /\
    t_dtype tp' = t_dtype tp /\ t_layout tp' = t_layout tp /\
    length (t_data tp') = length (t_data tp) /\
    t_dtype (ps_step ps') = t_dtype (ps_step ps) /\
    t_dtype (ps_m ps') = t_dtype (ps_m ps) /\
    t_layout (ps_m ps') = t_layout (ps_m ps) /\
    t_dtype (ps_v ps') = t_dtype (ps_v ps) /\
    t_layout (ps_v ps') = t_layout (ps_v ps) /\
    t_dtype (ps_c ps') = t_dtype (ps_c ps) /\
    t_layout (ps_c ps') = t_layout (ps_c ps).
Proof.
  intros Hd Hh. assert (Lg : length (t_data tg) = length (t_data tp)) by now destruct Hd.
  exists (World (<[p := post_param g tp tg ps]> (heap w)) (grad_of w)
            (<[p := post_state g tp tg ps (get_or_create g tp (state w !! p))]>
               (state w))),
    (post_param g tp tg ps),
    (post_state g tp tg ps (get_or_create g tp (state w !! p))),
    (post_pstate g tp tg ps).
  split; [exact (update_param_run g w p gl tp tg ps Hd Hh)|].
  split; [apply lookup_insert_eq|]. split; [apply lookup_insert_eq|].
  split; [exact (holds_post g tp tg ps _ Hh Lg)|].
  destruct (post_param_dtype g tp tg ps) as [-> ->].
  rewrite (post_param_length g tp tg ps _ Hh Lg).
  unfold post_pstate, post_compensation. cbn [ps_step ps_m ps_v ps_c].
  destruct (use_kahan_summation g); repeat split; reflexivity.
Qed.

(** X6. An update reads and writes four keys of the dictionary at most:
    every other entry stays as it is, and with compensation switched off
    the entry ["compensation"] is neither created nor changed. *)
Theorem update_touches_only_its_keys g w p gl tp tg st ps :
  dense_grad w p gl tp tg ->
  state w !! p = Some st ->
  holds g tp st ps ->
  exists w' st',
    update_param g p w = (w', Ok tt) /\
    state w' !! p = Some st' /\
    (forall key, key ∉ update_keys -> st' !! key = st !! key) /\
    (use_kahan_summation g = false -> st' !! "compensation" = st !! "compensation").
Proof.
  intros Hd Hst Hh.
  pose proof (get_or_create_stored g tp st ps Hh) as E.
  exists (World (<[p := post_param g tp tg ps]> (heap w)) (grad_of w)
            (<[p := post_state g tp tg ps st]> (state w))),
    (post_state g tp tg ps st).
  split.
  { rewrite (update_param_run g w p gl tp tg ps Hd); rewrite Hst, E; [reflexivity|assumption]. }
  split; [apply lookup_insert_eq|]. split.
  - intros key Hk. unfold update_keys in Hk.
    assert (key <> "step" /\ key <> "exp_avg" /\ key <> "exp_avg_sq"
            /\ key <> "compensation") as (N1 & N2 & N3 & N4).
    { repeat split; intros ->; apply Hk; set_solver. }
    unfold post_state. destruct (use_kahan_summation g);
      now rewrite !lookup_insert_ne by congruence.
  - intros Hk. unfold post_state. rewrite Hk.
    now rewrite !lookup_insert_ne by discriminate.
Qed.

End Shapes.

(** * The loops of [step] *)

Section Loops.
Context {A : Arith}.

Lemma bind_apply {X Y} (m : M X) (k : X -> M Y) w :
  (m ≫= k) w
  = match m w with
    | (w', Ok x) => k x w'
    | (w', Raise e) => (w', Raise e)
    end.
Proof. reflexivity. Qed.

Lemma for_each_app {X} (l1 l2 : list X) (body : X -> M unit) w :
  for_each (l1 ++ l2) body w = (for_each l1 body;; for_each l2 body) w.
Proof.
  revert w. induction l1 as [|x l1 IH]; intros w; [reflexivity|].
  cbn [app for_each]. unfold mbind, M_bind.
  destruct (body x w) as [w1 [[]|e]]; [|reflexivity].
  rewrite IH. reflexivity.
Qed.

Lemma for_each_fmap {X Y} (f : X -> Y) (l : list X) (body : Y -> M unit) w :
  for_each (f <$> l) body w = for_each l (fun x => body (f x)) w.
Proof.
  revert w. induction l as [|x l IH]; intros w; [reflexivity|].
  cbn [fmap list_fmap for_each]. unfold mbind, M_bind.
  destruct (body (f x) w) as [w1 [[]|e]]; [|reflexivity].
  apply IH.
Qed.

(** The loop nest is one loop over its visits. *)
Lemma step_visits param_groups w :
  step None param_groups w
  = for_each (visits param_groups) (fun v => update_param v.1 v.2) w.
Proof.
  unfold step.
  assert (G : (mret tt : M unit) w = (w, Ok tt)) by reflexivity.
  rewrite (bind_ok _ _ _ _ _ G). clear G. revert w.
  unfold visits. induction param_groups as [|g gs IH]; intros w; [reflexivity|].
  rewrite bind_cons, for_each_app. cbn beta. cbn [for_each].
  rewrite !bind_apply, for_each_fmap. cbn [fst snd].
  change (fun x : loc => update_param g x) with (update_param g).
  destruct (for_each (params g) (update_param g) w) as [w1 [[]|e]]; [|reflexivity].
  apply IH.
Qed.

Lemma elem_of_visits param_groups g p :
  (g, p) ∈ visits param_groups <-> g ∈ param_groups /\ p ∈ params g.
Proof.
  unfold visits. rewrite list_elem_of_bind. split.
  - intros (g' & Hin & Hg). apply list_elem_of_fmap in Hin as (q & [= -> ->] & Hq).
    now split.
  - intros [Hg Hp]. exists g. split; [|assumption].
    apply list_elem_of_fmap. now exists p.
Qed.

Lemma elem_of_all_params param_groups p :
  p ∈ all_params param_groups <-> exists g, g ∈ param_groups /\ p ∈ params g.
Proof.
  unfold all_params. rewrite list_elem_of_fmap. split.
  - intros ([g q] & -> & Hin). exists g. now apply elem_of_visits.
  - intros (g & Hg & Hp). exists (g, p). split; [reflexivity|].
    now apply elem_of_visits.
Qed.

(** A property of the world that every visit keeps, whatever its
    outcome, holds when the loop ends or aborts. *)
Lemma for_each_invariant {X} (I : world -> Prop) (l : list X) (body : X -> M unit) :
  (forall x w, x ∈ l -> I w -> I (body x w).1) ->
  forall w, I w -> I (for_each l body w).1.
Proof.
  induction l as [|x l IH]; intros Hb w Hw; [exact Hw|].
  cbn [for_each]. unfold mbind, M_bind.
  pose proof (Hb x w (list_elem_of_here _ _) Hw) as H1.
  destruct (body x w) as [w1 [[]|e]]; [|exact H1].
  apply IH; [|exact H1]. intros y w' Hy. apply Hb. now apply list_elem_of_further.
Qed.

(** X7. A parameter whose [.grad] is [None] is skipped by a whole call
    of [step]: its tensor and its state entry are as before, and no
    state entry is created for it, whether the call returns or raises
    for another parameter. *)
Theorem step_skips_parameters_without_gradient param_groups w p :
  grad_of w !! p = None ->
  heap (step None param_groups w).1 !! p = heap w !! p /\
  state (step None param_groups w).1 !! p = state w !! p /\
  grad_of (step None param_groups w).1 !! p = None.
Proof.
  intros Hgr. rewrite step_visits.
  pose (I := fun w1 : world =>
               grad_of w1 = grad_of w /\ heap w1 !! p = heap w !! p /\
               state w1 !! p = state w !! p).
  assert (HI : I (for_each (visits param_groups)
                    (fun v => update_param v.1 v.2) w).1).
  { apply for_each_invariant; [|now repeat split].
    intros [g q] w1 _ (Eg & Eh & Es). cbn [fst snd].
    destruct (decide (q = p)) as [->|Hne].
    - rewrite update_param_absent by now rewrite Eg. now repeat split.
    - destruct (confined_update_param (fun l => l = q) g q eq_refl w1)
        as (Eg' & Eh' & Es').
      repeat split.
      + now rewrite Eg'.
      + rewrite Eh' by congruence. exact Eh.
      + rewrite Es' by congruence. exact Es. }
  destruct HI as (Eg & Eh & Es). rewrite Eg. now repeat split.
Qed.

(** X8. An exception ends the call where it is raised: when the visits
    before a parameter with a sparse gradient succeed, [step] raises the
    [RuntimeError] in the world those visits left; their updates stay,
    and no later parameter or group is processed. *)
Theorem sparse_gradient_stops_step param_groups done g p todo w w1 gl tg :
  visits param_groups = done ++ (g, p) :: todo ->
  for_each done (fun v => update_param v.1 v.2) w = (w1, Ok tt) ->
  grad_of w !! p = Some gl -> heap w !! gl = Some tg -> is_sparse tg = true ->
  gl ∉ done.*2 ->
  step None param_groups w
  = (w1, Raise (RuntimeError "BFF does not support sparse gradients")).
Proof.
  intros Hv Hdone Hgr Hg Hs Hfresh.
  rewrite step_visits, Hv, for_each_app.
  rewrite (bind_ok _ _ _ _ _ Hdone). cbn [for_each fst snd].
  assert (Hc : unchanged_outside (fun l => l ∈ done.*2) w w1).
  { change w1 with (w1, @Ok unit tt).1. rewrite <- Hdone.
    apply confined_for_each. intros [g' q] Hin. cbn [fst snd].
    apply confined_update_param. apply list_elem_of_fmap. now exists (g', q). }
  destruct Hc as (Eg & Eh & _).
  apply bind_raise. apply (update_param_sparse g w1 p gl tg).
  - now rewrite Eg.
  - now rewrite Eh.
  - exact Hs.
Qed.

(** A parameter that is ready has a dictionary main processing can
    start from. *)
Lemma param_ok_holds listed w g p tp :
  param_ok listed w g p -> heap w !! p = Some tp ->
  exists ps, holds g tp (get_or_create g tp (state w !! p)) ps.
Proof.
  intros (tp' & Hp & Hst & _) Hp'. assert (tp' = tp) as -> by congruence.
  destruct (state w !! p) as [st|]; cbn [get_or_create].
  - destruct (decide (size st = 0%nat)) as [E|N].
    + eexists. apply holds_created.
    + now apply Hst.
  - eexists. apply holds_created.
Qed.

(** The update of a ready parameter reads its tensor, its dictionary and
    its gradient array only. *)
Lemma update_param_local listed w w1 g p :
  param_ok listed w g p ->
  grad_of w1 = grad_of w -> heap w1 !! p = heap w !! p ->
  state w1 !! p = state w !! p ->
  (forall gl, grad_of w !! p = Some gl -> heap w1 !! gl = heap w !! gl) ->
  exists w1',
    update_param g p w1 = (w1', Ok tt) /\
    heap w1' !! p = heap (update_param g p w).1 !! p /\
    state w1' !! p = state (update_param g p w).1 !! p.
Proof.
  intros Hok Eg Eh Es Egl. pose proof Hok as (tp & Hp & _ & Hgr).
  destruct (grad_of w !! p) as [gl|] eqn:Hgl.
  - destruct (Hgr gl eq_refl) as (_ & Hne & tg & Hg & Hd & Lg).
    destruct (param_ok_holds listed w g p tp Hok Hp) as (ps & Hh).
    assert (D : dense_grad w p gl tp tg) by now constructor.
    assert (D1 : dense_grad w1 p gl tp tg).
    { constructor; try assumption.
      - now rewrite Eh.
      - now rewrite Eg.
      - now rewrite (Egl gl eq_refl). }
    rewrite (update_param_run g w p gl tp tg ps D Hh).
    rewrite <- Es in Hh.
    rewrite (update_param_run g w1 p gl tp tg ps D1 Hh).
    eexists; split; [reflexivity|]. cbn [fst heap state].
    rewrite !lookup_insert_eq, Es. now split.
  - rewrite (update_param_absent g w p Hgl).
    rewrite (update_param_absent g w1 p) by now rewrite Eg.
    eexists; split; [reflexivity|]. now split.
Qed.

Lemma param_ok_frame listed listed' w w1 g q :
  param_ok listed w g q ->
  grad_of w1 = grad_of w -> heap w1 !! q = heap w !! q ->
  state w1 !! q = state w !! q ->
  (forall gl, gl ∉ listed -> heap w1 !! gl = heap w !! gl) ->
  (forall l, l ∈ listed' -> l ∈ listed) ->
  param_ok listed' w1 g q.
Proof.
  intros (tp & Hp & Hst & Hgr) Eg Eh Es Egl Hsub.
  exists tp. split; [now rewrite Eh|]. split.
  - intros st Hs. apply Hst. now rewrite <- Es.
  - intros gl Hgl. rewrite Eg in Hgl.
    destruct (Hgr gl Hgl) as (Hf & Hne & tg & Hg & Hd & Lg).
    split; [intros Hin; apply Hf, Hsub, Hin|]. split; [exact Hne|].
    exists tg. now rewrite (Egl gl Hf).
Qed.

Lemma visits_independent (vs : list (group * loc)) : forall w,
  NoDup vs.*2 ->
  (forall g p, (g, p) ∈ vs -> param_ok vs.*2 w g p) ->
  exists w',
    for_each vs (fun v => update_param v.1 v.2) w = (w', Ok tt) /\
    unchanged_outside (fun l => l ∈ vs.*2) w w' /\
    forall g p, (g, p) ∈ vs ->
      heap w' !! p = heap (update_param g p w).1 !! p /\
      state w' !! p = state (update_param g p w).1 !! p.
Proof.
  induction vs as [|[g p] vs IH]; intros w Hnd Hok.
  - exists w. split; [reflexivity|]. split; [apply unchanged_refl|].
    intros g p Hin. now apply elem_of_nil in Hin.
  - cbn [fmap list_fmap snd] in Hnd, Hok |- *.
    apply NoDup_cons in Hnd as [Hp Hnd].
    destruct (update_param_local _ w w g p (Hok g p (list_elem_of_here _ _))
                eq_refl eq_refl eq_refl (fun _ _ => eq_refl))
      as (w1 & Hrun & _).
    pose proof (confined_update_param (fun l => l = p) g p eq_refl w) as Hc.
    rewrite Hrun in Hc. cbn [fst] in Hc. destruct Hc as (Eg & Eh & Es).
    assert (Hok1 : forall g' q, (g', q) ∈ vs -> param_ok vs.*2 w1 g' q).
    { intros g' q Hin.
      assert (Hq : q ∈ vs.*2) by (apply list_elem_of_fmap; now exists (g', q)).
      apply (param_ok_frame (p :: vs.*2) _ w).
      - apply Hok. now apply list_elem_of_further.
      - exact Eg.
      - apply Eh. congruence.
      - apply Es. congruence.
      - intros gl Hgl. apply Eh. intros ->. apply Hgl, list_elem_of_here.
      - intros l Hl. now apply list_elem_of_further. }
    destruct (IH w1 Hnd Hok1) as (w' & Hrest & Hc' & Hres).
    exists w'. split; [|split].
    + cbn [for_each fst snd]. now rewrite (bind_ok _ _ _ _ _ Hrun).
    + apply (unchanged_trans _ w w1 w').
      * apply (unchanged_mono (fun l => l = p)); [|now repeat split].
        intros l ->. apply list_elem_of_here.
      * apply (unchanged_mono (fun l => l ∈ vs.*2)); [|exact Hc'].
        intros l Hl. now apply list_elem_of_further.
    + intros g' q Hin. apply elem_of_cons in Hin as [[= -> ->]|Hin].
      * destruct Hc' as (_ & Eh' & Es'). rewrite Hrun. cbn [fst].
        now rewrite Eh', Es'.
      * assert (Hq : q ∈ vs.*2) by (apply list_elem_of_fmap; now exists (g', q)).
        destruct (Hres g' q Hin) as [-> ->].
        destruct (update_param_local (p :: vs.*2) w w1 g' q) as (w1' & -> & R).
        -- apply Hok. now apply list_elem_of_further.
        -- exact Eg.
        -- apply Eh. congruence.
        -- apply Es. congruence.
        -- intros gl Hgl. apply Eh. intros E. rewrite E in Hgl.
           destruct (Hok g' q (list_elem_of_further _ _ _ Hin))
             as (tq & _ & _ & Hgr).
           destruct (Hgr p Hgl) as (Hf & _). apply Hf, list_elem_of_here.
        -- exact R.
Qed.

(** X9. With every parameter listed once and ready, [step] returns and
    amounts to independent updates: each listed parameter and its
    dictionary end as the update of that parameter alone would leave
    them, in whatever order the groups list them, and nothing else
    changes. *)
Theorem step_is_independent_updates param_groups w :
  NoDup (all_params param_groups) ->
  (forall g p, g ∈ param_groups -> p ∈ params g ->
     param_ok (all_params param_groups) w g p) ->
  exists w',
    step None param_groups w = (w', Ok tt) /\
    unchanged_outside (fun l => l ∈ all_params param_groups) w w' /\
    forall g p, g ∈ param_groups -> p ∈ params g ->
      heap w' !! p = heap (update_param g p w).1 !! p /\
      state w' !! p = state (update_param g p w).1 !! p.
Proof.
  intros Hnd Hok.
  destruct (visits_independent (visits param_groups) w Hnd) as (w' & Hrun & Hc & Hres).
  { intros g p Hin. apply elem_of_visits in Hin as [Hg Hp]. now apply Hok. }
  exists w'. split; [now rewrite step_visits|]. split; [exact Hc|].
  intros g p Hg Hp. apply Hres. now apply elem_of_visits.
Qed.

(** X10. Any sequence of calls for allocated parameters, each with no
    gradient or a dense one of the parameter's shape, runs to the end
    from a world with complete dictionaries: every dictionary stays
    complete, every object keeps its number of elements, each step
    counter was advanced once per call that came with a gradient, and a
    parameter has state exactly if it had before or got such a call. *)
Theorem well_formed_run_succeeds cfg evs w :
  state_ok cfg w -> Forall (event_ok w) evs ->
  exists w',
    run cfg evs w = (w', Ok tt) /\
    state_ok cfg w' /\ same_shapes w w' /\
    forall p,
      step_tensor w' p = Nat.iter (present_calls p evs) new_step (step_tensor w p) /\
      (is_Some (state w' !! p) <->
       is_Some (state w !! p) \/ (0 < present_calls p evs)%nat).
Proof. intros Hs He. exact (run_ok cfg evs w Hs He). Qed.

(** A ready parameter is ready again after its update. *)
Lemma param_ok_after listed w w' g p :
  param_ok listed w g p ->
  grad_of w' = grad_of w ->
  heap w' !! p = heap (update_param g p w).1 !! p ->
  state w' !! p = state (update_param g p w).1 !! p ->
  (forall gl, gl ∉ listed -> heap w' !! gl = heap w !! gl) ->
  param_ok listed w' g p.
Proof.
  intros Hok Eg Eh Es Egl. pose proof Hok as (tp & Hp & Hst & Hgr).
  destruct (grad_of w !! p) as [gl|] eqn:Hgl.
  - destruct (Hgr gl eq_refl) as (Hf & Hne & tg & Hg & Hd & Lg).
    destruct (param_ok_holds listed w g p tp Hok Hp) as (ps & Hh).
    assert (D : dense_grad w p gl tp tg) by now constructor.
    rewrite (update_param_run g w p gl tp tg ps D Hh) in Eh, Es.
    cbn [fst heap state] in Eh, Es.
    rewrite lookup_insert_eq in Eh. rewrite lookup_insert_eq in Es.
    exists (post_param g tp tg ps). split; [exact Eh|]. split.
    + intros st Hst' _. rewrite Es in Hst'. injection Hst' as <-.
      exists (post_pstate g tp tg ps). now apply holds_post.
    + intros gl' Hgl'. rewrite Eg, Hgl in Hgl'. injection Hgl' as <-.
      split; [exact Hf|]. split; [exact Hne|]. exists tg.
      rewrite (Egl gl Hf). split; [exact Hg|]. split; [exact Hd|].
      now rewrite (post_param_length g tp tg ps _ Hh Lg).
  - rewrite (update_param_absent g w p Hgl) in Eh, Es. cbn [fst] in Eh, Es.
    exists tp. split; [now rewrite Eh|]. split.
    + intros st Hst'. apply Hst. now rewrite <- Es.
    + intros gl Hgl'. rewrite Eg, Hgl in Hgl'. discriminate.
Qed.

(** X14. With every parameter listed once and ready, [step] returns and
    leaves every listed parameter ready: its dictionary is complete and
    of its shape, so [step] can be called again, with the same gradients
    or with new ones of the parameters' shapes. *)
Theorem step_keeps_parameters_ready param_groups w :
  NoDup (all_params param_groups) ->
  (forall g p, g ∈ param_groups -> p ∈ params g ->
     param_ok (all_params param_groups) w g p) ->
  exists w',
    step None param_groups w = (w', Ok tt) /\
    forall g p, g ∈ param_groups -> p ∈ params g ->
      param_ok (all_params param_groups) w' g p.
Proof.
  intros Hnd Hok.
  destruct (visits_independent (visits param_groups) w Hnd) as (w' & Hrun & Hc & Hres).
  { intros g p Hin. apply elem_of_visits in Hin as [Hg Hp]. now apply Hok. }
  exists w'. split; [now rewrite step_visits|].
  intros g p Hg Hp. destruct Hc as (Eg & Eh & _).
  destruct (Hres g p) as [Rh Rs]; [now apply elem_of_visits|].
  apply (param_ok_after _ w); try assumption. now apply Hok.
Qed.

End Loops.

(** ** Exact arithmetic: a constant gradient *)

Module ExactFurther.
Import Exact ExactFacts.
Local Open Scope R_scope.
#[local] Existing Instance RArith.
#[local] Existing Instance RArith_laws.

Lemma Rpow_nat x n : 0 <= x -> Rpow x (INR (S n)) = x ^ S n.
Proof.
  intros Hx. unfold Rpow. destruct (Rlt_dec 0 x) as [H|H].
  - now apply Rpower_pow.
  - assert (x = 0) as -> by lra.
    destruct (Req_dec_T 0 0) as [_|N]; [|contradiction].
    destruct (Req_dec_T (INR (S n)) 0) as [E|_].
    + now apply not_0_INR in E.
    + cbn [pow]. ring.
Qed.

Lemma pow_below_1 x n : 0 <= x < 1 -> 0 <= x ^ S n < 1.
Proof.
  intros [H0 H1]. split; [now apply pow_le|].
  induction n as [|n IH]; [cbn [pow]; lra|].
  change (x ^ S (S n)) with (x * x ^ S n).
  assert (0 <= x ^ S n) by now apply pow_le. nra.
Qed.

Lemma normalized_pointwise (g : group) n x d :
  0 <= beta1 g < 1 -> 0 <= beta2 g < 1 -> 0 < eps g ->
  x + - (lr g / (1 - beta1 g ^ S n))
      * (beta1 g * ((1 - beta1 g ^ n) * d) + (1 - beta1 g) * d)
      / (sqrt (beta2 g * ((1 - beta2 g ^ n) * (d * d)) + (1 - beta2 g) * d * d)
         / sqrt (1 - beta2 g ^ S n) + eps g)
  = x - lr g * d / (Rabs d + eps g).
Proof.
  intros H1 H2 He.
  pose proof (pow_below_1 _ n H1) as B1. pose proof (pow_below_1 _ n H2) as B2.
  replace (beta1 g * ((1 - beta1 g ^ n) * d) + (1 - beta1 g) * d)
    with ((1 - beta1 g ^ S n) * d) by (cbn [pow]; ring).
  replace (beta2 g * ((1 - beta2 g ^ n) * (d * d)) + (1 - beta2 g) * d * d)
    with ((1 - beta2 g ^ S n) * Rsqr d) by (unfold Rsqr; cbn [pow]; ring).
  rewrite sqrt_mult by (try apply Rle_0_sqr; lra).
  rewrite sqrt_Rsqr_abs.
  assert (0 < sqrt (1 - beta2 g ^ S n)) by (apply sqrt_lt_R0; lra).
  pose proof (Rabs_pos d).
  field. repeat split; lra.
Qed.

Lemma zip_fused (F : R -> R * R -> R) (fm fv : R -> R -> R) (c km kv cv : R -> R)
    (N : R -> R -> R) (G : list R) : forall P : list R,
  (forall x d, F (c x) (fm (km d) d, cv (fv (kv d) d)) = N x d) ->
  zip_with F (c <$> P) (zip (zip_with fm (km <$> G) G) (cv <$> zip_with fv (kv <$> G) G))
  = zip_with N P G.
Proof.
  induction G as [|d G IH]; intros [|x P] H; try reflexivity.
  cbn. rewrite H. f_equal. now apply IH.
Qed.

Lemma zip_with_fmap_diag (f : R -> R -> R) (k : R -> R) (G : list R) :
  zip_with f (k <$> G) G = (fun d => f (k d) d) <$> G.
Proof. induction G as [|d G IH]; [reflexivity|]. cbn. now rewrite IH. Qed.

Lemma zip_with_zip_with (f N : R -> R -> R) (G : list R) : forall P : list R,
  zip_with f (zip_with N P G) G = zip_with (fun x d => f (N x d) d) P G.
Proof.
  induction G as [|d G IH]; intros [|x P]; try reflexivity.
  cbn. now rewrite IH.
Qed.

Lemma zip_with_fst (G : list R) : forall P : list R,
  length G = length P -> zip_with (fun x _ => x) P G = P.
Proof.
  induction G as [|d G IH]; intros [|x P] H; try discriminate; [reflexivity|].
  cbn. rewrite IH; [reflexivity|]. now injection H.
Qed.

Lemma zeros_tracking (b : R) (k : R -> R) (G : list R) : forall P : list R,
  length G = length P ->
  (forall d, (1 - b ^ 0) * k d = 0) ->
  (fun _ : R => 0) <$> P = (fun d => (1 - b ^ 0) * k d) <$> G.
Proof.
  induction G as [|d G IH]; intros [|x P] H Hk; try discriminate; [reflexivity|].
  cbn [fmap list_fmap]. rewrite Hk. f_equal. apply IH; [now injection H|exact Hk].
Qed.

Lemma tensor_eta (t t' : tensor) d :
  t_dtype t = t_dtype t' -> t_layout t = t_layout t' -> t_data t = d ->
  t = with_data t' d.
Proof. destruct t. cbn. now intros -> -> ->. Qed.

Lemma decayed_data (g : group) (tp : tensor) :
  t_data (decayed g tp)
  = (fun x => x * (1 - lr g * weight_decay g)) <$> t_data tp.
Proof.
  unfold decayed. destruct (truthy (weight_decay g)) eqn:E; [reflexivity|].
  assert (H0 : weight_decay g = 0).
  { destruct (Req_dec_T (weight_decay g) 0) as [H|H]; [exact H|].
    apply Rtruthy_spec in H. cbn in E. congruence. }
  rewrite H0. rewrite <- (list_fmap_id (t_data tp)) at 1.
  apply list_fmap_ext. intros _ x _.
  assert (Hr : forall y l : R, y = y * (1 - l * 0)) by (intros; ring).
  apply Hr.
Qed.

(** With the moments of a constant gradient the bias corrections cancel:
    the update moves each weight by [lr * d / (|d| + eps)]. *)
Lemma tracked_post_param (g : group) n tp tg ps :
  0 <= beta1 g < 1 -> 0 <= beta2 g < 1 -> 0 < eps g ->
  tracking g n tg ps ->
  length (t_data (ps_c ps)) = length (t_data tp) ->
  post_param g tp tg ps
  = with_data tp (zip_with (normalized_step g) (t_data tp) (t_data tg)).
Proof.
  intros H1 H2 He Ht Lc.
  assert (D : forall g' : group,
             use_kahan_summation g' = false ->
             beta1 g' = beta1 g -> beta2 g' = beta2 g -> eps g' = eps g ->
             lr g' = lr g -> weight_decay g' = weight_decay g ->
             t_data (post_param g' tp tg ps)
             = zip_with (normalized_step g) (t_data tp) (t_data tg)).
  { intros g' Hk E1 E2 E3 E4 E5. destruct Ht as (Es & Em & Ev & _).
    unfold post_param. rewrite Hk. unfold neg_step_size.
    rewrite (step_size_scalar g' _ _ (new_step_data _ _ Es)).
    rewrite (cvar_data g' _ _ _ (new_step_data _ _ Es)).
    rewrite new_momentum_data, new_variance_data.
    unfold direct_param, zip3T. cbn [t_data with_data t_dtype].
    rewrite Em, Ev, decayed_data, E1, E2, E3, E4, E5.
    apply zip_fused. intros x d.
    cbn [cast fadd fsub fmul fdiv fneg fpow fsqrt f1 RArith fst snd].
    rewrite <- S_INR, !Rpow_nat by lra.
    unfold normalized_step. now apply normalized_pointwise. }
  apply tensor_eta; [apply post_param_dtype..|].
  destruct (use_kahan_summation g) eqn:Hk.
  - rewrite (kahan_equals_direct g tp tg ps) by (try apply Ht; assumption).
    now apply D.
  - now apply D.
Qed.

(** One more update under the same gradient keeps the moments in step. *)
Lemma tracked_post_pstate (g : group) n tp tg ps :
  tracking g n tg ps -> tracking g (S n) tg (post_pstate g tp tg ps).
Proof.
  intros (Es & Em & Ev & Ec). unfold post_pstate, tracking.
  cbn [ps_step ps_m ps_v ps_c]. repeat split.
  - rewrite (new_step_data _ _ Es), S_INR. reflexivity.
  - rewrite new_momentum_data. cbn [t_data with_data]. rewrite Em, zip_with_fmap_diag.
    apply list_fmap_ext. intros _ d _. cbn. ring.
  - rewrite new_variance_data. cbn [t_data with_data]. rewrite Ev, zip_with_fmap_diag.
    apply list_fmap_ext. intros _ d _. cbn. ring.
  - destruct (use_kahan_summation g); [apply post_compensation_zero|exact Ec].
Qed.

Lemma tracking_created (g : group) (tp tg : tensor) :
  length (t_data tg) = length (t_data tp) ->
  tracking g 0 tg (created_pstate g tp).
Proof.
  intros Lg. unfold tracking, created_pstate. cbn [ps_step ps_m ps_v ps_c].
  repeat split.
  - unfold zeros_like. cbn [t_data].
    apply (zeros_tracking _ (fun d => d)); [exact Lg|]. intros d. cbn [pow]. ring.
  - unfold zeros_like. cbn [t_data].
    apply (zeros_tracking _ (fun d => d * d)); [exact Lg|]. intros d. cbn [pow]. ring.
  - apply zeros_like_zero.
Qed.

(** X11. In exact arithmetic the first update of a parameter does not
    depend on the betas: after the decay each weight moves by
    [lr * d / (|d| + eps)] against its gradient [d], with or without
    compensation. *)
Theorem first_update_is_normalized_gradient (g : group) w p gl tp tg :
  dense_grad w p gl tp tg ->
  state w !! p = None ->
  0 <= beta1 g < 1 -> 0 <= beta2 g < 1 -> 0 < eps g ->
  exists w',
    update_param g p w = (w', Ok tt) /\
    heap w' !! p
    = Some (with_data tp
              (zip_with (fun x d => x * (1 - lr g * weight_decay g)
                                    - lr g * d / (Rabs d + eps g))
                        (t_data tp) (t_data tg))).
Proof.
  intros Hd Hst H1 H2 He.
  assert (Lg : length (t_data tg) = length (t_data tp)) by now destruct Hd.
  assert (Hh : holds g tp (get_or_create g tp (state w !! p)) (created_pstate g tp)).
  { rewrite Hst. apply holds_created. }
  rewrite (update_param_run g w p gl tp tg _ Hd Hh).
  eexists. split; [reflexivity|]. cbn [heap]. rewrite lookup_insert_eq. f_equal.
  apply (tracked_post_param g 0); try assumption.
  - now apply tracking_created.
  - apply zeros_like_length.
Qed.

Lemma constant_gradient_from cfg p (tg : tensor) n : forall k w tp ps,
  0 <= beta1 (cfg p) < 1 -> 0 <= beta2 (cfg p) < 1 -> 0 < eps (cfg p) ->
  is_sparse tg = false ->
  heap w !! p = Some tp ->
  length (t_data tg) = length (t_data tp) ->
  holds (cfg p) tp (get_or_create (cfg p) tp (state w !! p)) ps ->
  length (t_data (ps_c ps)) = length (t_data tp) ->
  tracking (cfg p) k tg ps ->
  exists w',
    run cfg (replicate n (p, Some tg)) w = (w', Ok tt) /\
    heap w' !! p
    = Some (with_data tp
              (zip_with (fun x d => Nat.iter n (fun y => normalized_step (cfg p) y d) x)
                        (t_data tp) (t_data tg))).
Proof.
  induction n as [|n IH]; intros k w tp ps H1 H2 He Hd Hp Lg Hh Lc Ht.
  - exists w. split; [reflexivity|]. rewrite Hp. f_equal. cbn [Nat.iter].
    destruct tp as [dt ly P]. unfold with_data. cbn [t_dtype t_layout t_data] in *.
    f_equal. symmetry. exact (zip_with_fst _ _ Lg).
  - cbn [replicate]. unfold run. cbn [for_each].
    pose proof (set_grad_dense w p tg tp Hp Hd Lg) as D.
    assert (Hh' : holds (cfg p) tp
                    (get_or_create (cfg p) tp
                       (state (set_grad p (Some tg) w) !! p)) ps) by exact Hh.
    pose proof (update_param_run (cfg p) _ p _ tp tg ps D Hh') as Hrun.
    assert (Hcall : call cfg (p, Some tg) w
                    = (World (<[p := post_param (cfg p) tp tg ps]>
                                (heap (set_grad p (Some tg) w)))
                             (grad_of (set_grad p (Some tg) w))
                             (<[p := post_state (cfg p) tp tg ps
                                       (get_or_create (cfg p) tp (state w !! p))]>
                                (state w)), Ok tt)) by exact Hrun.
    rewrite (bind_ok _ _ _ _ _ Hcall). clear Hrun Hcall Hh' D.
    set (w1 := World _ _ _).
    pose proof (holds_post _ _ _ _ _ Hh Lg) as Hpost.
    pose proof (post_param_length _ _ _ _ _ Hh Lg) as Lp.
    pose proof (tracked_post_param _ k tp tg ps H1 H2 He Ht Lc) as Ep.
    destruct (IH (S k) w1 (post_param (cfg p) tp tg ps)
                (post_pstate (cfg p) tp tg ps)) as (w' & Hrest & Hres);
      try assumption.
    + apply lookup_insert_eq.
    + now rewrite Lp.
    + unfold w1. cbn [state]. rewrite lookup_insert_eq.
      now rewrite (get_or_create_stored _ _ _ _ Hpost).
    + rewrite Lp. unfold post_pstate. cbn [ps_c].
      destruct (use_kahan_summation (cfg p)) eqn:Hk; [|exact Lc].
      now apply (post_compensation_length _ _ _ _ _ Hk Hh).
    + now apply tracked_post_pstate.
    + exists w'. split; [exact Hrest|]. rewrite Hres, Ep. f_equal.
      unfold with_data. cbn [t_dtype t_layout t_data]. f_equal.
      rewrite zip_with_zip_with.
      apply zip_with_ext; [|reflexivity..]. intros x d.
      now rewrite Nat.iter_succ_r.
Qed.

Lemma iter_without_decay (g : group) d n x :
  weight_decay g = 0 ->
  Nat.iter n (fun y => normalized_step g y d) x
  = x - INR n * (lr g * d / (Rabs d + eps g)).
Proof.
  intros H0. induction n as [|n IH]; [cbn; ring|].
  rewrite S_INR, Nat.iter_succ, IH. unfold normalized_step. rewrite H0.
  unfold Rdiv. ring.
Qed.

(** X12. In exact arithmetic the bias corrections are exact for a
    constant gradient: from a new optimizer, each of [n] calls with the
    same gradient moves every weight by [lr * d / (|d| + eps)] after the
    decay, and without weight decay the weights end at
    [x - n * lr * d / (|d| + eps)]. *)
Theorem constant_gradient_run cfg p (tg : tensor) n w tp :
  0 <= beta1 (cfg p) < 1 -> 0 <= beta2 (cfg p) < 1 -> 0 < eps (cfg p) ->
  heap w !! p = Some tp -> state w !! p = None ->
  is_sparse tg = false -> length (t_data tg) = length (t_data tp) ->
  exists w',
    run cfg (replicate n (p, Some tg)) w = (w', Ok tt) /\
    heap w' !! p
    = Some (with_data tp
              (zip_with (fun x d => Nat.iter n (fun y => normalized_step (cfg p) y d) x)
                        (t_data tp) (t_data tg))) /\
    (weight_decay (cfg p) = 0 ->
     heap w' !! p
     = Some (with_data tp
               (zip_with (fun x d => x - INR n * (lr (cfg p) * d
                                                  / (Rabs d + eps (cfg p))))
                         (t_data tp) (t_data tg)))).
Proof.
  intros H1 H2 He Hp Hst Hd Lg.
  destruct (constant_gradient_from cfg p tg n 0 w tp (created_pstate (cfg p) tp))
    as (w' & Hrun & Hres); try assumption.
  - rewrite Hst. apply holds_created.
  - apply zeros_like_length.
  - now apply tracking_created.
  - exists w'. split; [exact Hrun|]. split; [exact Hres|].
    intros H0. rewrite Hres. do 2 f_equal.
    apply zip_with_ext; [|reflexivity..]. intros x d. now apply iter_without_decay.
Qed.

End ExactFurther.

(** ** The further properties at the scenario *)

Module FurtherWitnesses.
Import Exact ExactFacts ExactFurther.
Local Open Scope R_scope.
#[local] Existing Instance RArith.

Lemma stored_world_dense st :
  dense_grad (stored_world st) 1%positive 2%positive scenario_param scenario_grad.
Proof. now constructor. Qed.

Lemma stored_world_state st : state (stored_world st) !! 1%positive = Some st.
Proof. apply lookup_singleton_eq. Qed.

Lemma plain_holds (g : group) :
  use_kahan_summation g = false ->
  holds g scenario_param plain_state plain_pstate.
Proof.
  intros Hk. unfold plain_state, plain_pstate.
  split; cbn [ps_step ps_m ps_v ps_c]; try reflexivity; try slot;
    rewrite Hk; discriminate.
Qed.

Lemma plain_no_compensation : plain_state !! "compensation" = None.
Proof. unfold plain_state. now rewrite !lookup_insert_ne by discriminate. Qed.

Lemma enabling_kahan_later_raises_witness :
  use_kahan_summation kahan_group = true /\
  plain_state !! "compensation" = None /\
  exists w',
    update_param kahan_group 1%positive (stored_world plain_state)
    = (w', Raise (KeyError "compensation")).
Proof.
  split; [reflexivity|]. split; [exact plain_no_compensation|].
  eexists.
  exact (@enabling_kahan_later_raises RArith kahan_group (stored_world plain_state)
           1%positive 2%positive scenario_param scenario_grad plain_state plain_pstate
           eq_refl (stored_world_dense _) (stored_world_state _)
           (plain_holds (no_kahan kahan_group) eq_refl) plain_no_compensation).
Defined.

Lemma moment_only_nonempty : size moment_only_state <> 0%nat.
Proof.
  intros E. apply map_size_empty_iff in E.
  assert (H : moment_only_state !! "exp_avg" = None) by (rewrite E; apply lookup_empty).
  unfold moment_only_state in H. now rewrite lookup_insert_eq in H.
Qed.

Lemma moment_only_no_step : moment_only_state !! "step" = None.
Proof. unfold moment_only_state. now rewrite lookup_insert_ne by discriminate. Qed.

Lemma missing_step_raises_witness :
  size moment_only_state <> 0%nat /\
  moment_only_state !! "step" = None /\
  update_param scenario_group 1%positive (stored_world moment_only_state)
  = (stored_world moment_only_state, Raise (KeyError "step")).
Proof.
  split; [exact moment_only_nonempty|]. split; [exact moment_only_no_step|].
  exact (@missing_step_raises RArith scenario_group (stored_world moment_only_state)
           1%positive 2%positive scenario_grad moment_only_state
           eq_refl eq_refl eq_refl (stored_world_state _)
           moment_only_nonempty moment_only_no_step).
Defined.

Lemma step_only_step :
  step_only_state !! "step" = Some (Tensor Float32 Strided [1]).
Proof. unfold step_only_state. apply lookup_insert_eq. Qed.

Lemma step_only_no_moment : step_only_state !! "exp_avg" = None.
Proof. unfold step_only_state. now rewrite lookup_insert_ne by discriminate. Qed.

Lemma missing_moment_raises_witness :
  step_only_state !! "exp_avg" = None /\
  exists w' key,
    update_param scenario_group 1%positive (stored_world step_only_state)
    = (w', Raise (KeyError key)).
Proof.
  split; [exact step_only_no_moment|].
  eexists. eexists.
  exact (@missing_moment_raises RArith scenario_group (stored_world step_only_state)
           1%positive 2%positive scenario_param scenario_grad step_only_state _
           (stored_world_dense _) (stored_world_state _) step_only_step
           (or_introl step_only_no_moment)).
Defined.

Lemma empty_state_is_new_witness :
  state (stored_world ∅) !! 1%positive = Some ∅ /\
  update_param scenario_group 1%positive (stored_world ∅)
  = update_param scenario_group 1%positive
      (World (heap (stored_world ∅)) (grad_of (stored_world ∅))
             (delete 1%positive (state (stored_world ∅)))).
Proof.
  split; [exact (stored_world_state ∅)|].
  exact (@empty_state_is_new RArith scenario_group (stored_world ∅)
           1%positive 2%positive scenario_param scenario_grad
           (stored_world_dense _) (stored_world_state ∅)).
Defined.

Lemma update_keeps_dtypes_and_shapes_witness :
  dense_grad scenario_world 1%positive 2%positive scenario_param scenario_grad /\
  exists w', update_param scenario_group 1%positive scenario_world = (w', Ok tt).
Proof.
  split; [exact scenario_dense|].
  destruct (@update_keeps_dtypes_and_shapes RArith scenario_group scenario_world
              1%positive 2%positive scenario_param scenario_grad
              (created_pstate scenario_group scenario_param)
              scenario_dense (example_world_holds _ _ _))
    as (w' & _ & _ & _ & Hrun & _).
  exists w'. exact Hrun.
Defined.

Lemma update_touches_only_its_keys_witness :
  state (stored_world plain_state) !! 1%positive = Some plain_state /\
  exists w',
    update_param scenario_group 1%positive (stored_world plain_state) = (w', Ok tt).
Proof.
  split; [exact (stored_world_state _)|].
  destruct (@update_touches_only_its_keys RArith scenario_group
              (stored_world plain_state) 1%positive 2%positive
              scenario_param scenario_grad plain_state plain_pstate
              (stored_world_dense _) (stored_world_state _)
              (plain_holds scenario_group eq_refl))
    as (w' & _ & Hrun & _).
  exists w'. exact Hrun.
Defined.

Lemma step_skips_parameters_without_gradient_witness :
  grad_of idle_world !! 1%positive = None /\
  heap (step None [scenario_group] idle_world).1 !! 1%positive
  = heap idle_world !! 1%positive.
Proof.
  split; [reflexivity|].
  destruct (@step_skips_parameters_without_gradient RArith [scenario_group]
              idle_world 1%positive eq_refl) as (Hh & _).
  exact Hh.
Defined.

Lemma pair_group_done :
  for_each [(pair_group, 3%positive)] (fun v => update_param v.1 v.2)
           (example_world scenario_param sparse_grad)
  = (example_world scenario_param sparse_grad, Ok tt).
Proof.
  cbn [for_each fst snd].
  now rewrite (bind_ok _ _ _ _ _
                 (update_param_absent pair_group
                    (example_world scenario_param sparse_grad) 3%positive eq_refl)).
Qed.

Lemma gradient_not_done : 2%positive ∉ [(pair_group, 3%positive)].*2.
Proof. cbn. intros H. apply list_elem_of_singleton in H. discriminate. Qed.

Lemma sparse_gradient_stops_step_witness :
  visits [pair_group] = [(pair_group, 3%positive)] ++ (pair_group, 1%positive) :: [] /\
  step None [pair_group] (example_world scenario_param sparse_grad)
  = (example_world scenario_param sparse_grad,
     Raise (RuntimeError "BFF does not support sparse gradients")).
Proof.
  split; [reflexivity|].
  exact (@sparse_gradient_stops_step RArith [pair_group] [(pair_group, 3%positive)]
           pair_group 1%positive [] (example_world scenario_param sparse_grad)
           (example_world scenario_param sparse_grad) 2%positive sparse_grad
           eq_refl pair_group_done eq_refl eq_refl eq_refl gradient_not_done).
Defined.

Lemma scenario_params_once : NoDup (all_params [scenario_group]).
Proof. apply NoDup_singleton. Qed.

Lemma scenario_param_ok (g : group) p :
  g ∈ [scenario_group] -> p ∈ params g ->
  param_ok (all_params [scenario_group]) scenario_world g p.
Proof.
  intros Hg Hp. apply list_elem_of_singleton in Hg. subst g.
  apply list_elem_of_singleton in Hp. subst p.
  exists scenario_param. split; [reflexivity|]. split.
  - intros st Hst. cbn [state scenario_world example_world] in Hst.
    now rewrite lookup_empty in Hst.
  - intros gl Hgl. assert (gl = 2%positive) as ->.
    { cbn [grad_of scenario_world example_world] in Hgl.
      rewrite lookup_singleton_eq in Hgl. congruence. }
    split; [|split; [discriminate|]].
    + intros H. apply list_elem_of_singleton in H. discriminate.
    + exists scenario_grad. now repeat split.
Qed.

Lemma step_is_independent_updates_witness :
  NoDup (all_params [scenario_group]) /\
  exists w', step None [scenario_group] scenario_world = (w', Ok tt).
Proof.
  split; [exact scenario_params_once|].
  destruct (@step_is_independent_updates RArith [scenario_group] scenario_world
              scenario_params_once scenario_param_ok) as (w' & Hrun & _).
  exists w'. exact Hrun.
Defined.

Lemma step_keeps_parameters_ready_witness :
  NoDup (all_params [scenario_group]) /\
  exists w',
    step None [scenario_group] scenario_world = (w', Ok tt) /\
    param_ok (all_params [scenario_group]) w' scenario_group 1%positive.
Proof.
  split; [exact scenario_params_once|].
  destruct (@step_keeps_parameters_ready RArith [scenario_group] scenario_world
              scenario_params_once scenario_param_ok) as (w' & Hrun & Hok).
  exists w'. split; [exact Hrun|].
  apply Hok; apply list_elem_of_singleton; reflexivity.
Defined.

Lemma scenario_state_ok : state_ok (fun _ => scenario_group) scenario_world.
Proof.
  intros p st Hst. cbn [state scenario_world example_world] in Hst.
  now rewrite lookup_empty in Hst.
Qed.

Lemma scenario_events :
  Forall (event_ok scenario_world) [(1%positive, Some scenario_grad)].
Proof. constructor; [exact scenario_event|constructor]. Qed.

Lemma well_formed_run_succeeds_witness :
  state_ok (fun _ => scenario_group) scenario_world /\
  exists w',
    run (fun _ => scenario_group) [(1%positive, Some scenario_grad)] scenario_world
    = (w', Ok tt).
Proof.
  split; [exact scenario_state_ok|].
  destruct (@well_formed_run_succeeds RArith (fun _ => scenario_group)
              [(1%positive, Some scenario_grad)] scenario_world
              scenario_state_ok scenario_events) as (w' & Hrun & _).
  exists w'. exact Hrun.
Defined.

Lemma scenario_betas :
  0 <= beta1 scenario_group < 1 /\ 0 <= beta2 scenario_group < 1 /\
  0 < eps scenario_group.
Proof. simpl. lra. Qed.

Lemma first_update_is_normalized_gradient_witness :
  0 <= beta1 scenario_group < 1 /\ 0 <= beta2 scenario_group < 1 /\
  0 < eps scenario_group /\
  exists w',
    update_param scenario_group 1%positive scenario_world = (w', Ok tt) /\
    heap w' !! 1%positive
    = Some (Tensor Float32 Strided [1 * (1 - 0.1 * 0) - 0.1 * 2 / (Rabs 2 + 1e-8)]).
Proof.
  destruct scenario_betas as (H1 & H2 & He).
  split; [exact H1|]. split; [exact H2|]. split; [exact He|].
  exact (first_update_is_normalized_gradient scenario_group scenario_world
           1%positive 2%positive scenario_param scenario_grad
           scenario_dense eq_refl H1 H2 He).
Defined.

Lemma constant_gradient_run_witness :
  0 <= beta1 scenario_group < 1 /\ 0 <= beta2 scenario_group < 1 /\
  0 < eps scenario_group /\
  exists w',
    run (fun _ => scenario_group)
        (replicate 2 (1%positive, Some scenario_grad)) scenario_world
    = (w', Ok tt).
Proof.
  destruct scenario_betas as (H1 & H2 & He).
  split; [exact H1|]. split; [exact H2|]. split; [exact He|].
  destruct (constant_gradient_run (fun _ => scenario_group) 1%positive scenario_grad
              2 scenario_world scenario_param H1 H2 He eq_refl eq_refl eq_refl eq_refl)
    as (w' & Hrun & _).
  exists w'. exact Hrun.
Defined.

End FurtherWitnesses.
